(** * Session manager and Instagram OAuth callback of the canvas front end

    A shallow embedding of
    - [api/auth.ts]: the token and identity store, [refreshToken],
      [getAuthStatus], [logout], [saveAuthData], [getUserProfile],
      [authenticatedFetch], [login], [register];
    - [hooks/use-auth.ts]: the mutations of [useLogin] and [useRegister];
    - [api/instagram.ts]: [connectInstagram], [getInstagramStatus],
      [getInstagramAuthUrl], [disconnectInstagram];
    - [components/canvas/InstagramConnectDialog.tsx]: the effect that
      processes the OAuth redirect, with its [processedRef] guard,
      [loadStatus], [handleConnect], [handleDisconnect];
    - [contexts/AuthContext.tsx]: [refreshAuth] of the provider;
    - [components/TopMenu.tsx], [routes/admin/index.tsx]: the role check
      of the menu and the guard of the administration page.

    The browser is modelled first: ECMAScript values as far as [JSON.parse]
    produces them, [JSON.stringify], [localStorage], [fetch], and [async]
    functions as resumptions that suspend at a [fetch]. *)

From Stdlib Require Import NArith ZArith String Ascii List Bool Lia.
From stdpp Require Import base decidable option list strings pretty gmap.
Import ListNotations.

(** ** ECMAScript values

    Strings are byte strings, read as the UTF-8 encoding of the script's
    text.  Numbers keep their literal: ECMAScript rounds them to binary64,
    and of that only what decides a branch is modelled (which literals
    denote zero, which overflow); no field of the records below is numeric. *)

Module JS.

#[warnings="-register-all"]
Inductive json : Type :=
| JNull
| JBool (b : bool)
| JNum (lit : string)
| JStr (s : string)
| JArr (items : list json)
| JObj (props : list (string * json)).

Fixpoint json_eq_dec (a b : json) {struct a} : {a = b} + {a ≠ b}.
Proof.
  decide equality.
  - apply Bool.bool_dec.
  - apply string_dec.
  - apply string_dec.
  - apply (List.list_eq_dec json_eq_dec).
  - refine (List.list_eq_dec _ _ _). decide equality. apply string_dec.
Defined.

#[export] Instance json_eq_decision : EqDecision json := json_eq_dec.

(** A script value here is [undefined] ([None]) or a JSON value. *)
Definition value : Type := option json.
Definition undefined : value := None.

(** What a script throws.  [Error message] is [new Error(message)] of the
    application; the other three are raised by the engine, whose wording
    of the message is its own. *)
Inductive exn : Type :=
| Error (message : string)
| TypeError
| SyntaxError
| FetchFailed.

Inductive completion (A : Type) : Type :=
| Returns (a : A)
| Throws (e : exn).
Arguments Returns {A} a.
Arguments Throws {A} e.

Definition dquote : ascii := "034"%char.
Definition backslash : ascii := "092"%char.

Definition is_digit (c : ascii) : bool :=
  (48 <=? N_of_ascii c)%N && (N_of_ascii c <=? 57)%N.

Definition digit_value (c : ascii) : N := N_of_ascii c - 48.

(** *** Numbers *)

Fixpoint digits_value (acc : N) (s : string) : N :=
  match s with
  | EmptyString => acc
  | String c r => digits_value (10 * acc + digit_value c) r
  end.

Fixpoint span_digits (s : string) : string * string :=
  match s with
  | EmptyString => (EmptyString, EmptyString)
  | String c r =>
      if is_digit c then
        let '(d, rest) := span_digits r in (String c d, rest)
      else (EmptyString, s)
  end.

(** The exact value [m * 10^e] of a literal of the JSON number grammar
    (the sign is dropped). *)
Definition decimal_of_literal (lit : string) : N * Z :=
  let unsigned :=
    match lit with
    | String "-"%char r => r
    | _ => lit
    end in
  let '(int, r1) := span_digits unsigned in
  let '(frac, r2) :=
    match r1 with
    | String "."%char r => span_digits r
    | _ => (EmptyString, r1)
    end in
  let e :=
    match r2 with
    | String _ (String "-"%char r) => (- Z.of_N (digits_value 0 r))%Z
    | String _ (String "+"%char r) => Z.of_N (digits_value 0 r)
    | String _ r => Z.of_N (digits_value 0 r)
    | EmptyString => 0%Z
    end in
  (digits_value (digits_value 0 int) frac,
   (e - Z.of_nat (String.length frac))%Z).

(** Binary64 rounding sends everything up to half the least subnormal to
    zero, and everything from the midpoint above the largest finite
    number to infinity. *)
Definition rounds_to_zero (lit : string) : bool :=
  let '(m, e) := decimal_of_literal lit in
  (m =? 0)%N ||
  ((e <? 0)%Z && (Z.of_N m * 2 ^ 1075 <=? 10 ^ (- e))%Z).

Definition rounds_to_infinity (lit : string) : bool :=
  let '(m, e) := decimal_of_literal lit in
  let bound := (2 ^ 1024 - 2 ^ 970)%Z in
  if (0 <=? e)%Z then (bound <=? Z.of_N m * 10 ^ e)%Z
  else (bound * 10 ^ (- e) <=? Z.of_N m)%Z.

(** *** Truthiness, property access, string conversion *)

Definition truthy_string (s : string) : bool :=
  match s with
  | EmptyString => false
  | _ => true
  end.

Definition truthy (v : json) : bool :=
  match v with
  | JNull => false
  | JBool b => b
  | JNum lit => negb (rounds_to_zero lit)
  | JStr s => truthy_string s
  | JArr _ | JObj _ => true
  end.

Definition truthy_value (v : value) : bool :=
  match v with
  | Some j => truthy j
  | None => false
  end.

(** [if (x)] on the result of [localStorage.getItem]: [null] and the empty
    string are both falsy. *)
Definition truthy_item (x : option string) : option string :=
  match x with
  | Some s => if truthy_string s then Some s else None
  | None => None
  end.

Fixpoint assoc (k : string) (props : list (string * json)) : value :=
  match props with
  | [] => None
  | (k', v) :: rest => if String.eqb k k' then Some v else assoc k rest
  end.

(** [data.key] for a key that no prototype defines: a property of [null]
    throws, a missing property is [undefined]. *)
Definition get_property (data : json) (key : string) : completion value :=
  match data with
  | JNull => Throws TypeError
  | JObj props => Returns (assoc key props)
  | _ => Returns undefined
  end.

Definition sequence {A} : list (option A) → option (list A) :=
  fix go (l : list (option A)) : option (list A) :=
    match l with
    | [] => Some []
    | Some x :: rest =>
        match go rest with
        | Some xs => Some (x :: xs)
        | None => None
        end
    | None :: _ => None
    end.

(** [String(v)], as a template literal, [localStorage.setItem] and the
    [Error] constructor apply it; [None] is the [TypeError] of an object
    whose own [toString] property hides the inherited method. *)
Fixpoint ToString_json (v : json) : option string :=
  match v with
  | JNull => Some "null"
  | JBool true => Some "true"
  | JBool false => Some "false"
  | JNum lit =>
      Some (if rounds_to_infinity lit then
              match lit with
              | String "-"%char _ => "-Infinity"
              | _ => "Infinity"
              end
            else lit)
  | JStr s => Some s
  | JArr items =>
      match sequence (map (fun x =>
               match x with
               | JNull => Some EmptyString
               | _ => ToString_json x
               end) items) with
      | Some parts => Some (String.concat "," parts)
      | None => None
      end
  | JObj props =>
      match assoc "toString" props with
      | Some _ => None
      | None => Some "[object Object]"
      end
  end.

Definition ToString (v : value) : completion string :=
  match v with
  | None => Returns "undefined"
  | Some j =>
      match ToString_json j with
      | Some s => Returns s
      | None => Throws TypeError
      end
  end.

(** *** [JSON.stringify] *)

Definition hex_digit (n : N) : ascii :=
  if (n <? 10)%N then ascii_of_N (48 + n) else ascii_of_N (87 + n).

(** QuoteJSONString, character by character. *)
Definition escape_char (c : ascii) : string :=
  let n := N_of_ascii c in
  if (n =? 34)%N then String backslash (String dquote EmptyString)
  else if (n =? 92)%N then String backslash (String backslash EmptyString)
  else if (n =? 8)%N then String backslash "b"
  else if (n =? 9)%N then String backslash "t"
  else if (n =? 10)%N then String backslash "n"
  else if (n =? 12)%N then String backslash "f"
  else if (n =? 13)%N then String backslash "r"
  else if (n <? 32)%N then
    String backslash
      (String "u" (String "0" (String "0"
         (String (hex_digit (n / 16)) (String (hex_digit (n mod 16)) EmptyString)))))
  else String c EmptyString.

Fixpoint quote_body (s : string) : string :=
  match s with
  | EmptyString => EmptyString
  | String c r => escape_char c +:+ quote_body r
  end.

Definition quote (s : string) : string :=
  String dquote (quote_body s +:+ String dquote EmptyString).

Fixpoint JSON_stringify (v : json) : string :=
  match v with
  | JNull => "null"
  | JBool true => "true"
  | JBool false => "false"
  | JNum lit => if rounds_to_infinity lit then "null" else lit
  | JStr s => quote s
  | JArr items => "[" +:+ String.concat "," (map JSON_stringify items) +:+ "]"
  | JObj props =>
      "{" +:+ String.concat "," (map (fun kv => quote (fst kv) +:+ ":" +:+ JSON_stringify (snd kv)) props)
          +:+ "}"
  end.

(** [JSON.stringify(undefined)] is [undefined]. *)
Definition JSON_stringify_value (v : value) : value :=
  match v with
  | Some j => Some (JStr (JSON_stringify j))
  | None => undefined
  end.

(** *** [JSON.parse] *)

Definition is_ws (c : ascii) : bool :=
  let n := N_of_ascii c in
  (n =? 32)%N || (n =? 9)%N || (n =? 10)%N || (n =? 13)%N.

Fixpoint skip_ws (s : string) : string :=
  match s with
  | String c r => if is_ws c then skip_ws r else s
  | EmptyString => s
  end.

Definition hex_value (c : ascii) : option N :=
  let n := N_of_ascii c in
  if is_digit c then Some (n - 48)%N
  else if (97 <=? n)%N && (n <=? 102)%N then Some (n - 87)%N
  else if (65 <=? n)%N && (n <=? 70)%N then Some (n - 55)%N
  else None.

Definition hex4 (a b c d : ascii) : option N :=
  match hex_value a, hex_value b, hex_value c, hex_value d with
  | Some x, Some y, Some z, Some w => Some (((x * 16 + y) * 16 + z) * 16 + w)%N
  | _, _, _, _ => None
  end.

(** A string literal is read as raw bytes and escaped UTF-16 code units. *)
Inductive item : Type :=
| Raw (c : ascii)
| Unit16 (u : N).

Definition simple_escape (e : ascii) : option ascii :=
  let n := N_of_ascii e in
  if (n =? 34)%N then Some dquote
  else if (n =? 92)%N then Some backslash
  else if (n =? 47)%N then Some "/"%char
  else if (n =? 98)%N then Some "008"%char
  else if (n =? 102)%N then Some "012"%char
  else if (n =? 110)%N then Some "010"%char
  else if (n =? 114)%N then Some "013"%char
  else if (n =? 116)%N then Some "009"%char
  else None.

(** The characters after the opening quote, up to the closing one. *)
Fixpoint parse_string_items (s : string) : option (list item * string) :=
  match s with
  | EmptyString => None
  | String c r =>
      let n := N_of_ascii c in
      if (n =? 34)%N then Some ([], r)
      else if (n =? 92)%N then
        match r with
        | String e r' =>
            if (N_of_ascii e =? 117)%N then
              match r' with
              | String h1 (String h2 (String h3 (String h4 r''))) =>
                  match hex4 h1 h2 h3 h4, parse_string_items r'' with
                  | Some u, Some (items, rest) => Some (Unit16 u :: items, rest)
                  | _, _ => None
                  end
              | _ => None
              end
            else
              match simple_escape e, parse_string_items r' with
              | Some c', Some (items, rest) => Some (Raw c' :: items, rest)
              | _, _ => None
              end
        | EmptyString => None
        end
      else if (n <? 32)%N then None
      else
        match parse_string_items r with
        | Some (items, rest) => Some (Raw c :: items, rest)
        | None => None
        end
  end.

Definition byte (n : N) : ascii := ascii_of_N n.

Definition utf8 (cp : N) : string :=
  if (cp <? 128)%N then String (byte cp) EmptyString
  else if (cp <? 2048)%N then
    String (byte (192 + cp / 64)) (String (byte (128 + cp mod 64)) EmptyString)
  else if (cp <? 65536)%N then
    String (byte (224 + cp / 4096))
      (String (byte (128 + (cp / 64) mod 64))
         (String (byte (128 + cp mod 64)) EmptyString))
  else
    String (byte (240 + cp / 262144))
      (String (byte (128 + (cp / 4096) mod 64))
         (String (byte (128 + (cp / 64) mod 64))
            (String (byte (128 + cp mod 64)) EmptyString))).

Definition is_high_surrogate (u : N) : bool := (55296 <=? u)%N && (u <=? 56319)%N.
Definition is_low_surrogate (u : N) : bool := (56320 <=? u)%N && (u <=? 57343)%N.

(** Escaped surrogate pairs are one code point. *)
Fixpoint decode_items (l : list item) : string :=
  match l with
  | [] => EmptyString
  | Raw c :: rest => String c (decode_items rest)
  | Unit16 hi :: rest =>
      match rest with
      | Unit16 lo :: rest' =>
          if is_high_surrogate hi && is_low_surrogate lo then
            utf8 (65536 + (hi - 55296) * 1024 + (lo - 56320)) +:+ decode_items rest'
          else utf8 hi +:+ decode_items rest
      | _ => utf8 hi +:+ decode_items rest
      end
  end.

Definition parse_string (s : string) : option (string * string) :=
  match parse_string_items s with
  | Some (items, rest) => Some (decode_items items, rest)
  | None => None
  end.

(** The number grammar: an optional minus, an integer part without leading
    zero, an optional fraction and an optional exponent; the literal and
    the rest of the text are returned. *)
Definition parse_number (s : string) : option (string * string) :=
  let '(sign, s1) :=
    match s with
    | String "-"%char r => ("-", r)
    | _ => (EmptyString, s)
    end in
  let '(int, s2) := span_digits s1 in
  let int_ok :=
    match int with
    | EmptyString => false
    | String "0"%char (String _ _) => false
    | _ => true
    end in
  if negb int_ok then None else
  let frac :=
    match s2 with
    | String "."%char r =>
        let '(d, r') := span_digits r in
        if truthy_string d then Some ("." +:+ d, r') else None
    | _ => Some (EmptyString, s2)
    end in
  match frac with
  | None => None
  | Some (f, s3) =>
      let exponent (e : ascii) (r : string) :=
        let '(esign, r1) :=
          match r with
          | String "-"%char r' => ("-", r')
          | String "+"%char r' => ("+", r')
          | _ => (EmptyString, r)
          end in
        let '(d, r2) := span_digits r1 in
        if truthy_string d then Some (String e (esign +:+ d), r2) else None in
      let ex :=
        match s3 with
        | String "e"%char r => exponent "e"%char r
        | String "E"%char r => exponent "E"%char r
        | _ => Some (EmptyString, s3)
        end in
      match ex with
      | None => None
      | Some (x, s4) => Some (sign +:+ int +:+ f +:+ x, s4)
      end
  end.

(** Property keys that are array indices come first, in ascending order;
    the others follow in the order of their first definition. *)
Definition array_index (k : string) : option N :=
  match k with
  | EmptyString => None
  | String c r =>
      if forallb is_digit (list_ascii_of_string k)
         && negb ((N_of_ascii c =? 48)%N && truthy_string r)
         && (digits_value 0 k <=? 4294967294)%N
      then Some (digits_value 0 k) else None
  end.

Fixpoint insert_index (i : N) (k : string) (v : json)
    (props : list (string * json)) : list (string * json) :=
  match props with
  | [] => [(k, v)]
  | (k', v') :: rest =>
      match array_index k' with
      | Some j => if (j <? i)%N then (k', v') :: insert_index i k v rest
                  else (k, v) :: props
      | None => (k, v) :: props
      end
  end.

Fixpoint replace_property (k : string) (v : json)
    (props : list (string * json)) : list (string * json) :=
  match props with
  | [] => []
  | (k', v') :: rest =>
      if String.eqb k k' then (k', v) :: rest
      else (k', v') :: replace_property k v rest
  end.

(** CreateDataProperty on the object under construction. *)
Definition obj_set (props : list (string * json)) (k : string) (v : json)
    : list (string * json) :=
  match assoc k props with
  | Some _ => replace_property k v props
  | None =>
      match array_index k with
      | Some i => insert_index i k v props
      | None => props ++ [(k, v)]
      end
  end.

Definition starts_with (p s : string) : option string :=
  if String.prefix p s
  then Some (String.substring (String.length p) (String.length s - String.length p) s)
  else None.

(** The values that are neither objects, arrays nor strings: the three
    literal names, and numbers. *)
Definition parse_literal (s : string) : option (json * string) :=
  match starts_with "true" s, starts_with "false" s, starts_with "null" s with
  | Some rest, _, _ => Some (JBool true, rest)
  | _, Some rest, _ => Some (JBool false, rest)
  | _, _, Some rest => Some (JNull, rest)
  | None, None, None =>
      match parse_number s with
      | Some (lit, rest) => Some (JNum lit, rest)
      | None => None
      end
  end.

Fixpoint parse_value (fuel : nat) (s : string) : option (json * string) :=
  match fuel with
  | O => None
  | S fuel' =>
      match skip_ws s with
      | EmptyString => None
      | String c r as s' =>
          let n := N_of_ascii c in
          if (n =? 123)%N then
            match skip_ws r with
            | String "}"%char r' => Some (JObj [], r')
            | r' => parse_members fuel' [] r'
            end
          else if (n =? 91)%N then
            match skip_ws r with
            | String "]"%char r' => Some (JArr [], r')
            | r' => parse_elements fuel' [] r'
            end
          else if (n =? 34)%N then
            match parse_string r with
            | Some (str, rest) => Some (JStr str, rest)
            | None => None
            end
          else parse_literal s'
      end
  end
with parse_elements (fuel : nat) (acc : list json) (s : string)
    : option (json * string) :=
  match fuel with
  | O => None
  | S fuel' =>
      match parse_value fuel' s with
      | Some (v, r) =>
          match skip_ws r with
          | String ","%char r' => parse_elements fuel' (v :: acc) r'
          | String "]"%char r' => Some (JArr (rev (v :: acc)), r')
          | _ => None
          end
      | None => None
      end
  end
with parse_members (fuel : nat) (acc : list (string * json)) (s : string)
    : option (json * string) :=
  match fuel with
  | O => None
  | S fuel' =>
      match skip_ws s with
      | String c r =>
          if negb (N_of_ascii c =? 34)%N then None else
          match parse_string r with
          | Some (k, r1) =>
              match skip_ws r1 with
              | String ":"%char r2 =>
                  match parse_value fuel' r2 with
                  | Some (v, r3) =>
                      match skip_ws r3 with
                      | String ","%char r4 => parse_members fuel' (obj_set acc k v) r4
                      | String "}"%char r4 => Some (JObj (obj_set acc k v), r4)
                      | _ => None
                      end
                  | None => None
                  end
              | _ => None
              end
          | None => None
          end
      | EmptyString => None
      end
  end.

(** [JSON.parse(text)]; [None] is its [SyntaxError].  Every call of the
    parser consumes a character, so the length of the text bounds them:
    [JSON_parse_fuel] below shows that no text is refused for want of
    fuel. *)
Definition JSON_parse (text : string) : option json :=
  match parse_value (S (String.length text)) text with
  | Some (v, rest) =>
      match skip_ws rest with
      | EmptyString => Some v
      | _ => None
      end
  | None => None
  end.

(** *** [localStorage]

    A map from keys to strings; quota errors are not modelled. *)

Abbreviation Storage := (gmap string string).

Definition getItem (key : string) (st : Storage) : option string := st !! key.
Definition setItem (key text : string) (st : Storage) : Storage := <[key := text]> st.
Definition removeItem (key : string) (st : Storage) : Storage := delete key st.

(** *** [fetch]

    A response is taken with its body already read: [response.json()]
    parses [text]. *)

Record Request : Type := mkRequest {
  url : string;
  method : string;
  headers : list (string * string);
  body : option string
}.

Record Response : Type := mkResponse {
  status : N;
  text : string
}.

Inductive FetchOutcome : Type :=
| Responded (r : Response)
| Rejected.

Definition ok (r : Response) : bool :=
  (200 <=? status r)%N && (status r <=? 299)%N.

Definition response_json (r : Response) : completion json :=
  match JSON_parse (text r) with
  | Some data => Returns data
  | None => Throws SyntaxError
  end.

(** [headers[name] = v] on an object literal. *)
Fixpoint set_header (name v : string) (hs : list (string * string))
    : list (string * string) :=
  match hs with
  | [] => [(name, v)]
  | (name', v') :: rest =>
      if String.eqb name name' then (name', v) :: rest
      else (name', v') :: set_header name v rest
  end.

(** *** [async] functions

    An [async] function runs on the page state until it returns, throws,
    or awaits a [fetch]: then it is suspended with the request it has
    sent, and resumed later with the outcome and whatever the state has
    become.  Awaiting a value that is already there does not suspend. *)

Section Async.
Context {S : Type}.

Inductive step (A : Type) : Type :=
| Finished (r : completion A) (s : S)
| Awaiting (s : S) (req : Request) (k : FetchOutcome → S → step A).
Arguments Finished {A} r s.
Arguments Awaiting {A} s req k.

Definition async (A : Type) : Type := S → step A.

Definition ret {A} (a : A) : async A := fun s => Finished (Returns a) s.
Definition throw {A} (e : exn) : async A := fun s => Finished (Throws e) s.
Definition lift {A} (c : completion A) : async A := fun s => Finished c s.
Definition get : async S := fun s => Finished (Returns s) s.
Definition modify (f : S → S) : async unit := fun s => Finished (Returns tt) (f s).

Fixpoint bind_step {A B} (m : step A) (f : A → async B) : step B :=
  match m with
  | Finished (Returns a) s => f a s
  | Finished (Throws e) s => Finished (Throws e) s
  | Awaiting s req k => Awaiting s req (fun o s' => bind_step (k o s') f)
  end.

Definition bind {A B} (m : async A) (f : A → async B) : async B :=
  fun s => bind_step (m s) f.

(** [try { m } catch (e) { h e }] *)
Fixpoint catch_step {A} (m : step A) (h : exn → async A) : step A :=
  match m with
  | Finished (Returns a) s => Finished (Returns a) s
  | Finished (Throws e) s => h e s
  | Awaiting s req k => Awaiting s req (fun o s' => catch_step (k o s') h)
  end.

Definition try_catch {A} (m : async A) (h : exn → async A) : async A :=
  fun s => catch_step (m s) h.

(** [try { m } finally { f }], for a block [f] that only updates the state. *)
Fixpoint finally_step {A} (m : step A) (f : S → S) : step A :=
  match m with
  | Finished r s => Finished r (f s)
  | Awaiting s req k => Awaiting s req (fun o s' => finally_step (k o s') f)
  end.

Definition try_finally {A} (m : async A) (f : S → S) : async A :=
  fun s => finally_step (m s) f.

(** The completion of a block, for a [catch] that reads a variable the
    block has assigned. *)
Definition attempt {A} (m : async A) : async (completion A) :=
  try_catch (bind m (fun a => ret (Returns a))) (fun e => ret (Throws e)).

Definition fetch (req : Request) : async Response :=
  fun s => Awaiting s req (fun o s' =>
    match o with
    | Responded r => Finished (Returns r) s'
    | Rejected => Finished (Throws FetchFailed) s'
    end).

(** One exchange with the network, and the state the request left behind. *)
Record Exchange : Type := mkExchange {
  at_state : S;
  request : Request;
  outcome : FetchOutcome
}.

(** Running a call to its end when nothing else touches the state: every
    request is answered by [net] at once. *)
Fixpoint run {A} (net : Request → FetchOutcome) (m : step A)
    : completion A * S * list Exchange :=
  match m with
  | Finished r s => (r, s, [])
  | Awaiting s req k =>
      let '(r, s', log) := run net (k (net req) s) in
      (r, s', mkExchange s req (net req) :: log)
  end.

Definition exec {A} (net : Request → FetchOutcome) (m : async A) (s : S)
    : completion A * S * list Exchange :=
  run net (m s).

Definition result {A} (net : Request → FetchOutcome) (m : async A) (s : S)
    : completion A :=
  fst (fst (exec net m s)).
Definition final {A} (net : Request → FetchOutcome) (m : async A) (s : S) : S :=
  snd (fst (exec net m s)).
Definition exchanges {A} (net : Request → FetchOutcome) (m : async A) (s : S)
    : list Exchange :=
  snd (exec net m s).

(** The state in which a call stands, finished or suspended. *)
Definition state_of {A} (m : step A) : S :=
  match m with
  | Finished _ s => s
  | Awaiting s _ _ => s
  end.

Definition awaited {A} (m : step A) : option Request :=
  match m with
  | Finished _ _ => None
  | Awaiting _ req _ => Some req
  end.
End Async.

Arguments step : clear implicits.
Arguments async : clear implicits.
Arguments Exchange : clear implicits.
Arguments mkExchange {S} at_state request outcome.
Arguments Finished {S A} r s.
Arguments Awaiting {S A} s req k.

(** A call on a part [S] of a larger state [T]. *)
Fixpoint zoom_step {S T A} (proj : T → S) (upd : S → T → T)
    (m : step S A) (t : T) : step T A :=
  match m with
  | Finished r s => Finished r (upd s t)
  | Awaiting s req k =>
      Awaiting (upd s t) req (fun o t' => zoom_step proj upd (k o (proj t')) t')
  end.

Definition zoom {S T A} (proj : T → S) (upd : S → T → T)
    (m : async S A) : async T A :=
  fun t => zoom_step proj upd (m (proj t)) t.

Declare Scope async_scope.
Delimit Scope async_scope with async.
Notation "x <- m ;; k" := (bind m (fun x => k))
  (at level 100, m at next level, right associativity) : async_scope.
Notation "m ;; k" := (bind m (fun _ => k))
  (at level 100, right associativity) : async_scope.

End JS.

(** ** [api/auth.ts] *)

Module Auth.
Import JS.
#[local] Open Scope async_scope.

Inductive Status : Type :=
| logged_out
| pending
| logged_in.

Record AuthStatus : Type := mkAuthStatus {
  status : Status;
  is_logged_in : bool;
  user_info : value;
  tokenExpired : option bool
}.

#[export] Instance Status_eq_decision : EqDecision Status.
Proof. solve_decision. Defined.

#[export] Instance AuthStatus_eq_decision : EqDecision AuthStatus.
Proof. solve_decision. Defined.

Record UserInfo : Type := mkUserInfo {
  id : string;
  username : string;
  email : string;
  image_url : option string;
  provider : option string;
  created_at : option string;
  updated_at : option string;
  last_login : option string;
  role : option string
}.

Definition optional (key : string) (field : option string) : list (string * json) :=
  match field with
  | Some s => [(key, JStr s)]
  | None => []
  end.

(** A [UserInfo] as the object it is at run time; an optional field that
    is absent has no property. *)
Definition UserInfo_json (u : UserInfo) : json :=
  JObj ([("id", JStr (id u)); ("username", JStr (username u)); ("email", JStr (email u))]
        ++ optional "image_url" (image_url u)
        ++ optional "provider" (provider u)
        ++ optional "created_at" (created_at u)
        ++ optional "updated_at" (updated_at u)
        ++ optional "last_login" (last_login u)
        ++ optional "role" (role u)).

Record LogoutResult : Type := mkLogoutResult {
  logout_status : string;
  logout_message : string
}.

Record RequestInit : Type := mkRequestInit {
  init_method : string;
  init_headers : list (string * string);
  init_body : option string
}.

Definition ACCESS_TOKEN_KEY : string := "prism_access_token".
Definition USER_INFO_KEY : string := "prism_user_info".

Definition getAccessToken (st : Storage) : option string :=
  getItem ACCESS_TOKEN_KEY st.

Definition clearStoredAuthData (st : Storage) : Storage :=
  removeItem USER_INFO_KEY (removeItem ACCESS_TOKEN_KEY st).

Definition handleTokenExpiration : async Storage unit :=
  modify clearStoredAuthData.

(** [localStorage.setItem(key, v)] converts [v] to a string first. *)
Definition localStorage_setItem (key : string) (v : value) : async Storage unit :=
  text <- lift (ToString v) ;;
  modify (setItem key text).

Definition saveAuthData (token userInfo : value) : async Storage unit :=
  localStorage_setItem ACCESS_TOKEN_KEY token ;;
  localStorage_setItem USER_INFO_KEY (JSON_stringify_value userInfo).

(** [error instanceof Error && error.message === 'TOKEN_EXPIRED']: no
    message of the engine's own errors is that word. *)
Definition is_token_expired (error : exn) : bool :=
  match error with
  | Error message => String.eqb message "TOKEN_EXPIRED"
  | _ => false
  end.

Definition logged_out_status : AuthStatus :=
  {| status := logged_out; is_logged_in := false;
     user_info := undefined; tokenExpired := None |}.

Definition expired_status : AuthStatus :=
  {| status := logged_out; is_logged_in := false;
     user_info := undefined; tokenExpired := Some true |}.

Definition logged_in_status (info : value) : AuthStatus :=
  {| status := logged_in; is_logged_in := true;
     user_info := info; tokenExpired := None |}.

Section WithConstants.
(** [BASE_API_URL] of [constants.ts] and the translations of [i18n.ts]. *)
Context (BASE_API_URL : string) (i18n_t : string → string).

Definition getAuthEndpoint (path : string) : string :=
  BASE_API_URL +:+ "/api/auth" +:+ path.

Definition refreshToken (currentToken : string) : async Storage value :=
  response <- fetch {| url := getAuthEndpoint "/refresh";
                       method := "POST";
                       headers := [("Authorization", "Bearer " +:+ currentToken)];
                       body := None |} ;;
  if (JS.status response =? 200)%N then
    data <- lift (response_json response) ;;
    lift (get_property data "token")
  else if (JS.status response =? 401)%N then
    throw (Error "TOKEN_EXPIRED")
  else
    throw (Error ("NETWORK_ERROR: " +:+ pretty (JS.status response))).

(** The [catch] of the refresh block: [inl] returns from
    [getAuthStatus], [inr] goes on with [activeToken]. *)
Definition refresh_failed (error : exn) (activeToken : value)
    : async Storage (AuthStatus + value) :=
  if is_token_expired error then
    handleTokenExpiration ;;
    ret (inl expired_status)
  else
    ret (inr activeToken).

(** The cached identity is read first; a record that does not parse is
    dropped from the store. *)
Definition read_cached_user : async Storage value :=
  st <- get ;;
  match truthy_item (getItem USER_INFO_KEY st) with
  | Some userInfoRaw =>
      match JSON_parse userInfoRaw with
      | Some parsed => ret (Some parsed)
      | None =>
          modify (removeItem USER_INFO_KEY) ;;
          ret undefined
      end
  | None => ret undefined
  end.

(** The inner [try]: [activeToken] is assigned before the store is
    written, so a write that throws leaves it assigned. *)
Definition refresh_block (token : string) (cachedUser : value)
    : async Storage (AuthStatus + value) :=
  refreshed <- attempt (refreshToken token) ;;
  match refreshed with
  | Returns refreshedToken =>
      saved <- attempt
        (if truthy_value cachedUser
         then saveAuthData refreshedToken cachedUser
         else localStorage_setItem ACCESS_TOKEN_KEY refreshedToken) ;;
      match saved with
      | Returns _ => ret (inr refreshedToken)
      | Throws error => refresh_failed error refreshedToken
      end
  | Throws error => refresh_failed error (Some (JStr token))
  end.

Definition status_block (activeToken : value) : async Storage AuthStatus :=
  bearer <- lift (ToString activeToken) ;;
  response <- fetch {| url := getAuthEndpoint "/status";
                       method := "GET";
                       headers := [("Authorization", "Bearer " +:+ bearer)];
                       body := None |} ;;
  if (JS.status response =? 200)%N then
    data <- lift (response_json response) ;;
    info <- lift (get_property data "user_info") ;;
    saveAuthData activeToken info ;;
    ret (logged_in_status info)
  else if (JS.status response =? 401)%N then
    handleTokenExpiration ;;
    ret expired_status
  else
    throw (Error ("Unexpected status: " +:+ pretty (JS.status response))).

(** The outer [catch]. *)
Definition cached_fallback (cachedUser : value) (error : exn)
    : async Storage AuthStatus :=
  if truthy_value cachedUser then ret (logged_in_status cachedUser)
  else ret logged_out_status.

Definition getAuthStatus : async Storage AuthStatus :=
  st <- get ;;
  match truthy_item (getAccessToken st) with
  | None => ret logged_out_status
  | Some token =>
      cachedUser <- read_cached_user ;;
      try_catch
        (flow <- refresh_block token cachedUser ;;
         match flow with
         | inl early => ret early
         | inr activeToken => status_block activeToken
         end)
        (cached_fallback cachedUser)
  end.

Definition logout : async Storage LogoutResult :=
  st <- get ;;
  match truthy_item (getAccessToken st) with
  | Some token =>
      try_catch
        (fetch {| url := getAuthEndpoint "/logout";
                  method := "POST";
                  headers := [("Authorization", "Bearer " +:+ token)];
                  body := None |} ;;
         ret tt)
        (fun error => ret tt)
  | None => ret tt
  end ;;
  modify clearStoredAuthData ;;
  ret {| logout_status := "success";
         logout_message := i18n_t "common:auth.logoutSuccessMessage" |}.

Definition getUserProfile : async Storage json :=
  st <- get ;;
  match truthy_item (getItem USER_INFO_KEY st) with
  | None => throw (Error (i18n_t "common:auth.notLoggedIn"))
  | Some userInfo =>
      match JSON_parse userInfo with
      | Some parsed => ret parsed
      | None => throw SyntaxError
      end
  end.

Definition authenticatedFetch (url : string) (options : RequestInit)
    : async Storage Response :=
  st <- get ;;
  let headers :=
    fold_left (fun hs h => set_header (fst h) (snd h) hs)
      (init_headers options) [("Content-Type", "application/json")] in
  let headers :=
    match truthy_item (getAccessToken st) with
    | Some token => set_header "Authorization" ("Bearer " +:+ token) headers
    | None => headers
    end in
  fetch {| url := url; method := init_method options;
           headers := headers; body := init_body options |}.
(** [data.detail || fallback], as [new Error(...)] takes it for its
    message. *)
Definition detail_message (detail : value) (fallback : string) : completion string :=
  if truthy_value detail then ToString detail else Returns fallback.

(** The body is read before the status is looked at. *)
Definition register (username email password : string) : async Storage json :=
  response <- fetch {| url := getAuthEndpoint "/register";
                       method := "POST";
                       headers := [("Content-Type", "application/json")];
                       body := Some (JSON_stringify
                         (JObj [("username", JStr username);
                                ("email", JStr email);
                                ("password", JStr password)])) |} ;;
  data <- lift (response_json response) ;;
  if negb (ok response) then
    detail <- lift (get_property data "detail") ;;
    message <- lift (detail_message detail (i18n_t "common:auth.registerFailed")) ;;
    throw (Error message)
  else ret data.

Definition login (identifier password : string) : async Storage json :=
  response <- fetch {| url := getAuthEndpoint "/login";
                       method := "POST";
                       headers := [("Content-Type", "application/json")];
                       body := Some (JSON_stringify
                         (JObj [("identifier", JStr identifier);
                                ("password", JStr password)])) |} ;;
  data <- lift (response_json response) ;;
  if negb (ok response) then
    detail <- lift (get_property data "detail") ;;
    message <- lift (detail_message detail (i18n_t "common:auth.loginRequestFailed")) ;;
    throw (Error message)
  else ret data.

End WithConstants.

End Auth.

(** ** [hooks/use-auth.ts]

    The [mutationFn] of [useLogin] and of [useRegister]: the session the
    server answers with is written to the store. *)

Module UseAuth.
Import JS Auth.
#[local] Open Scope async_scope.

Section WithConstants.
Context (BASE_API_URL : string) (i18n_t : string → string).

Definition useLogin_mutationFn (identifier password : string) : async Storage json :=
  response <- login BASE_API_URL i18n_t identifier password ;;
  token <- lift (get_property response "token") ;;
  userInfo <- lift (get_property response "user_info") ;;
  saveAuthData token userInfo ;;
  ret response.

Definition useRegister_mutationFn (username email password : string)
    : async Storage json :=
  response <- register BASE_API_URL i18n_t username email password ;;
  token <- lift (get_property response "token") ;;
  userInfo <- lift (get_property response "user_info") ;;
  saveAuthData token userInfo ;;
  ret response.
End WithConstants.

End UseAuth.

(** ** [api/instagram.ts] and [components/canvas/InstagramConnectDialog.tsx] *)

Module InstagramConnectDialog.
Import JS Auth.
#[local] Open Scope async_scope.

(** [window.location]: the path, and the query as [URLSearchParams]
    reads it. *)
Record Location : Type := mkLocation {
  pathname : string;
  search : list (string * string)
}.

(** What the dialog reads of [new URL(text)]. *)
Record URL : Type := mkURL {
  href : string;
  URL_pathname : string
}.

Inductive Toast : Type :=
| toast_success (message : string)
| toast_error (message : string) (error : option exn).

(** The page as the dialog sees it: the globals, the component's state
    and its [processedRef]. *)
Record Page : Type := mkPage {
  localStorage : Storage;
  location : Location;
  navigation : option string;
  processedRef : bool;
  status : value;
  loading : bool;
  connecting : bool;
  toasts : list Toast
}.

Record Props : Type := mkProps {
  open : bool;
  isAuthLoading : bool;
  authStatus : AuthStatus
}.

Definition set_localStorage (st : Storage) (p : Page) : Page :=
  mkPage st (location p) (navigation p) (processedRef p) (status p)
    (loading p) (connecting p) (toasts p).
Definition set_location (l : Location) (p : Page) : Page :=
  mkPage (localStorage p) l (navigation p) (processedRef p) (status p)
    (loading p) (connecting p) (toasts p).
Definition set_navigation (target : string) (p : Page) : Page :=
  mkPage (localStorage p) (location p) (Some target) (processedRef p) (status p)
    (loading p) (connecting p) (toasts p).
Definition set_processedRef (b : bool) (p : Page) : Page :=
  mkPage (localStorage p) (location p) (navigation p) b (status p)
    (loading p) (connecting p) (toasts p).
Definition setStatus (v : json) (p : Page) : Page :=
  mkPage (localStorage p) (location p) (navigation p) (processedRef p) (Some v)
    (loading p) (connecting p) (toasts p).
Definition setLoading (b : bool) (p : Page) : Page :=
  mkPage (localStorage p) (location p) (navigation p) (processedRef p) (status p)
    b (connecting p) (toasts p).
Definition setConnecting (b : bool) (p : Page) : Page :=
  mkPage (localStorage p) (location p) (navigation p) (processedRef p) (status p)
    (loading p) b (toasts p).
Definition toast (t : Toast) (p : Page) : Page :=
  mkPage (localStorage p) (location p) (navigation p) (processedRef p) (status p)
    (loading p) (connecting p) (toasts p ++ [t]).

(** [new URLSearchParams(window.location.search).get(name)] *)
Fixpoint params_get (name : string) (params : list (string * string)) : option string :=
  match params with
  | [] => None
  | (k, v) :: rest => if String.eqb k name then Some v else params_get name rest
  end.

(** [window.history.replaceState({}, '', window.location.pathname)] *)
Definition replaceState_pathname (p : Page) : Page :=
  set_location {| pathname := pathname (location p); search := [] |} p.

Definition with_storage {A} (m : async Storage A) : async Page A :=
  zoom localStorage set_localStorage m.

Definition error_message (detail : value) (default : string) : completion string :=
  if truthy_value detail then ToString detail else Returns default.

Definition connectInstagram (access_token instagram_user_id instagram_username : string)
    : async Page json :=
  response <- with_storage
    (authenticatedFetch "/api/instagram/connect"
       {| init_method := "POST";
          init_headers := [("Content-Type", "application/json")];
          init_body := Some (JSON_stringify
            (JObj [("access_token", JStr access_token);
                   ("instagram_user_id", JStr instagram_user_id);
                   ("instagram_username", JStr instagram_username);
                   ("expires_in", JNum "5184000")])) |}) ;;
  if negb (ok response) then
    error <- lift (response_json response) ;;
    detail <- lift (get_property error "detail") ;;
    message <- lift (error_message detail "Failed to connect Instagram account") ;;
    throw (Error message)
  else
    lift (response_json response).

Definition getInstagramStatus : async Page json :=
  response <- with_storage
    (authenticatedFetch "/api/instagram/status"
       {| init_method := "GET"; init_headers := []; init_body := None |}) ;;
  if negb (ok response) then
    error <- lift (response_json response) ;;
    detail <- lift (get_property error "detail") ;;
    message <- lift (error_message detail "Failed to get Instagram status") ;;
    throw (Error message)
  else
    lift (response_json response).

Definition status_error : json :=
  JObj [("status", JStr "error"); ("connected", JBool false);
        ("valid", JBool false); ("username", JNull)].

Definition loadStatus : async Page unit :=
  try_finally
    (try_catch
       (modify (setLoading true) ;;
        statusData <- getInstagramStatus ;;
        modify (setStatus statusData))
       (fun error => modify (setStatus status_error)))
    (setLoading false).

Section WithURL.
(** [new URL(text)]; [None] is its [TypeError]. *)
Context (URL_new : string → option URL).

(** After the exchange: back to where the user started, or the marker
    stripped in place. *)
Definition restore_location : async Page unit :=
  page <- get ;;
  goes <-
    match truthy_item (getItem "instagram_return_url" (localStorage page)) with
    | Some returnUrl =>
        modify (fun p => set_localStorage
                  (removeItem "instagram_return_url" (localStorage p)) p) ;;
        match URL_new returnUrl with
        | None => throw TypeError
        | Some returnUrlObj =>
            if negb (String.eqb (URL_pathname returnUrlObj) (pathname (location page)))
            then modify (set_navigation (href returnUrlObj)) ;; ret true
            else ret false
        end
    | None => ret false
    end ;;
  if goes : bool then ret tt
  else modify replaceState_pathname.

Definition handleOAuthCallback (props : Props) : async Page unit :=
  if isAuthLoading props then ret tt
  else if negb (is_logged_in (authStatus props)) then ret tt
  else
    page <- get ;;
    let urlParams := search (location page) in
    let authResult := params_get "instagram_auth" urlParams in
    if bool_decide (authResult = Some "success") then
      if processedRef page then ret tt
      else
        match truthy_item (params_get "token" urlParams),
              truthy_item (params_get "user_id" urlParams),
              truthy_item (params_get "username" urlParams) with
        | Some token, Some userId, Some username =>
            modify (set_processedRef true) ;;
            modify (setConnecting true) ;;
            try_finally
              (try_catch
                 (connectInstagram token userId username ;;
                  modify (toast (toast_success "Instagram account connected successfully!")) ;;
                  loadStatus ;;
                  restore_location)
                 (fun error =>
                    modify (toast (toast_error "Failed to connect: " (Some error))) ;;
                    modify (set_processedRef false)))
              (setConnecting false)
        | _, _, _ => ret tt
        end
    else if bool_decide (authResult = Some "error") then
      let error := params_get "error" urlParams in
      modify (toast (toast_error
                ("Instagram connection failed: " +:+
                 match truthy_item error with
                 | Some text => text
                 | None => "Unknown error"
                 end) None)) ;;
      modify replaceState_pathname
    else ret tt.

(** The body of the effect: the calls are started one after the other,
    each running until it first suspends. *)
Definition effect (props : Props) (page : Page) : Page * list (step Page unit) :=
  if open props then
    let callback := handleOAuthCallback props page in
    if negb (isAuthLoading props) && is_logged_in (authStatus props) then
      let status_load := loadStatus (state_of callback) in
      (state_of status_load, [callback; status_load])
    else (state_of callback, [callback])
  else (page, []).

(** [useEffect(..., [open, isAuthLoading, authStatus])]: after a render
    the effect runs on mount and whenever a dependency has changed. *)
Definition deps (props : Props) : bool * bool * AuthStatus :=
  (open props, isAuthLoading props, authStatus props).

Definition commit (previous : option Props) (props : Props) (page : Page)
    : Page * list (step Page unit) :=
  match previous with
  | Some before =>
      if decide (deps before = deps props) then (page, [])
      else effect props page
  | None => effect props page
  end.
End WithURL.

Definition getInstagramAuthUrl : async Page json :=
  response <- with_storage
    (authenticatedFetch "/api/instagram/auth/url"
       {| init_method := "GET"; init_headers := []; init_body := None |}) ;;
  if negb (ok response) then
    error <- lift (response_json response) ;;
    detail <- lift (get_property error "detail") ;;
    message <- lift (error_message detail "Failed to get Instagram auth URL") ;;
    throw (Error message)
  else
    lift (response_json response).

Definition disconnectInstagram : async Page json :=
  response <- with_storage
    (authenticatedFetch "/api/instagram/disconnect"
       {| init_method := "POST"; init_headers := []; init_body := None |}) ;;
  if negb (ok response) then
    error <- lift (response_json response) ;;
    detail <- lift (get_property error "detail") ;;
    message <- lift (error_message detail "Failed to disconnect Instagram account") ;;
    throw (Error message)
  else
    lift (response_json response).

Definition handleDisconnect : async Page unit :=
  try_finally
    (try_catch
       (modify (setConnecting true) ;;
        disconnectInstagram ;;
        modify (toast (toast_success "Instagram account disconnected")) ;;
        loadStatus)
       (fun error => modify (toast (toast_error "Failed to disconnect: " (Some error)))))
    (setConnecting false).

Section WithLocation.
(** [window.location.href] as the browser writes the location of the
    page, and the assignment [window.location.href = v], which is the
    browser's to carry out. *)
Context (location_href : Location → string) (assign_href : value → async Page unit).

(** The spinner is left on when the page is about to be left. *)
Definition handleConnect : async Page unit :=
  try_catch
    (modify (setConnecting true) ;;
     page <- get ;;
     modify (fun p => set_localStorage
               (setItem "instagram_return_url" (location_href (location page))
                  (localStorage p)) p) ;;
     data <- getInstagramAuthUrl ;;
     auth_url <- lift (get_property data "auth_url") ;;
     assign_href auth_url)
    (fun error =>
       modify (toast (toast_error "Failed to start connection: " (Some error))) ;;
       modify (setConnecting false)).
End WithLocation.

End InstagramConnectDialog.

(** ** [contexts/AuthContext.tsx]

    The provider that asks for the session when it mounts, and hands
    [authStatus] and [isLoading] to the components below it. *)

Module AuthContext.
Import JS Auth.
#[local] Open Scope async_scope.

Record ErrorToast : Type := mkErrorToast {
  toast_message : string;
  toast_duration : N
}.

(** The provider's state, with the store [getAuthStatus] works on. *)
Record Provider : Type := mkProvider {
  localStorage : Storage;
  authStatus : AuthStatus;
  isLoading : bool;
  toasts : list ErrorToast
}.

Definition set_localStorage (st : Storage) (p : Provider) : Provider :=
  mkProvider st (authStatus p) (isLoading p) (toasts p).
Definition setAuthStatus (a : AuthStatus) (p : Provider) : Provider :=
  mkProvider (localStorage p) a (isLoading p) (toasts p).
Definition setIsLoading (b : bool) (p : Provider) : Provider :=
  mkProvider (localStorage p) (authStatus p) b (toasts p).
Definition toast_error (t : ErrorToast) (p : Provider) : Provider :=
  mkProvider (localStorage p) (authStatus p) (isLoading p) (toasts p ++ [t]).

(** The initial values of the two [useState]. *)
Definition mounted (st : Storage) : Provider :=
  {| localStorage := st; authStatus := logged_out_status; isLoading := true; toasts := [] |}.

Section WithTranslation.
Context (BASE_API_URL : string) (t : string → string).

Definition refreshAuth : async Provider unit :=
  try_finally
    (try_catch
       (modify (setIsLoading true) ;;
        status <- zoom localStorage set_localStorage (getAuthStatus BASE_API_URL) ;;
        (if bool_decide (tokenExpired status = Some true)
         then modify (toast_error {| toast_message := t "common.auth.authExpiredMessage";
                                     toast_duration := 5000 |})
         else ret tt) ;;
        modify (setAuthStatus status))
       (fun error => ret tt))
    (setIsLoading false).
End WithTranslation.

End AuthContext.

(** ** [components/TopMenu.tsx] and [routes/admin/index.tsx]

    What the pages make of the [authStatus] they are given. *)

Module Admin.
Import JS Auth.

(** [authStatus.user_info?.role] *)
Definition role_of (a : AuthStatus) : value :=
  match user_info a with
  | Some (JObj props) => assoc "role" props
  | _ => undefined
  end.

(** [TopMenu]: whether the link to the administration is shown. *)
Definition isAdmin (a : AuthStatus) : bool :=
  is_logged_in a && bool_decide (role_of a = Some (JStr "admin")).

(** The administration page: its toasts, and where it has sent the
    visitor. *)
Record View : Type := mkView {
  toasts : list string;
  navigation : option string
}.

Definition turn_away (message : string) (v : View) : View :=
  {| toasts := toasts v ++ [message]; navigation := Some "/" |}.

(** The effect that checks the session and the role. *)
Definition guard (a : AuthStatus) (v : View) : View :=
  match status a with
  | logged_out => turn_away "로그인이 필요합니다" v
  | logged_in =>
      if bool_decide (role_of a = Some (JStr "admin")) then v
      else turn_away "관리자 권한이 필요합니다" v
  | pending => v
  end.

End Admin.

(** * The terms of the specification

    What the statements below speak of: what the session manager finds in
    the store, the requests it sends, the outcomes the specification tells
    apart, and a page on which the callback is ready to run. *)

Import JS Auth InstagramConnectDialog.

(** ** Session manager *)

(** The session token, and the cached identity record, as the code finds
    them: [if (token)] and [if (userInfoRaw)] take an empty string for an
    absent item. *)
Definition stored_token (st : Storage) : option string :=
  truthy_item (getAccessToken st).

Definition cached_record (st : Storage) : option string :=
  truthy_item (getItem USER_INFO_KEY st).

(** What the record parses to, and the identity [if (cachedUser)] accepts. *)
Definition cached_user (st : Storage) : value :=
  match cached_record st with
  | Some raw => JSON_parse raw
  | None => None
  end.

Definition cached_identity (st : Storage) : value :=
  if truthy_value (cached_user st) then cached_user st else None.

(** The store as the read of the cached identity leaves it. *)
Definition after_read (st : Storage) : Storage :=
  match cached_record st with
  | Some raw =>
      match JSON_parse raw with
      | Some _ => st
      | None => removeItem USER_INFO_KEY st
      end
  | None => st
  end.

Definition refresh_request (base token : string) : Request :=
  {| url := getAuthEndpoint base "/refresh"; method := "POST";
     headers := [("Authorization", "Bearer " +:+ token)]; body := None |}.

Definition status_request (base bearer : string) : Request :=
  {| url := getAuthEndpoint base "/status"; method := "GET";
     headers := [("Authorization", "Bearer " +:+ bearer)]; body := None |}.

(** A request that fails without the server saying that the token has
    expired: no response at all, or a status that is neither 200 nor 401. *)
Definition unavailable (o : FetchOutcome) : Prop :=
  match o with
  | Rejected => True
  | Responded r => JS.status r ≠ 200%N ∧ JS.status r ≠ 401%N
  end.

(** What [refreshToken] makes of an outcome. *)
Definition refreshToken_completion (o : FetchOutcome) : completion value :=
  match o with
  | Rejected => Throws FetchFailed
  | Responded response =>
      if (JS.status response =? 200)%N then
        match response_json response with
        | Returns data => get_property data "token"
        | Throws e => Throws e
        end
      else if (JS.status response =? 401)%N then Throws (Error "TOKEN_EXPIRED")
      else Throws (Error ("NETWORK_ERROR: " +:+ pretty (JS.status response)))
  end.

(** What the outer [catch] of [getAuthStatus] answers. *)
Definition fallback_status (cachedUser : value) : AuthStatus :=
  if truthy_value cachedUser then logged_in_status cachedUser else logged_out_status.

Definition logout_succeeded (i18n_t : string → string) : LogoutResult :=
  {| logout_status := "success";
     logout_message := i18n_t "common:auth.logoutSuccessMessage" |}.

(** Reading a parsed record as the [UserInfo] it is typed as. *)
Definition string_field (key : string) (j : json) : option string :=
  match j with
  | JObj props =>
      match assoc key props with
      | Some (JStr s) => Some s
      | _ => None
      end
  | _ => None
  end.

Definition UserInfo_of_json (j : json) : option UserInfo :=
  match string_field "id" j, string_field "username" j, string_field "email" j with
  | Some i, Some n, Some e =>
      Some {| id := i; username := n; email := e;
              image_url := string_field "image_url" j;
              provider := string_field "provider" j;
              created_at := string_field "created_at" j;
              updated_at := string_field "updated_at" j;
              last_login := string_field "last_login" j;
              role := string_field "role" j |}
  | _, _, _ => None
  end.

(** ** [JSON.stringify] read back by [JSON.parse] *)

(** How the parser reads a character that [escape_char] has written. *)
Definition item_of (c : ascii) : item :=
  let n := N_of_ascii c in
  if (n <? 32)%N && negb ((n =? 8) || (n =? 9) || (n =? 10) || (n =? 12) || (n =? 13))%N
  then Unit16 n else Raw c.

Fixpoint items_of (s : string) : list item :=
  match s with
  | EmptyString => []
  | String c r => item_of c :: items_of r
  end.

(** An object all of whose properties are strings, and one of its members
    as [JSON.stringify] writes it. *)
Definition string_props (fields : list (string * string)) : list (string * json) :=
  map (fun kv => (fst kv, JStr (snd kv))) fields.

Definition member (kv : string * json) : string :=
  quote (fst kv) +:+ ":" +:+ JSON_stringify (snd kv).

Definition UserInfo_fields (u : UserInfo) : list (string * string) :=
  [("id", id u); ("username", username u); ("email", email u)]
  ++ from_option (fun s => [("image_url", s)]) [] (image_url u)
  ++ from_option (fun s => [("provider", s)]) [] (provider u)
  ++ from_option (fun s => [("created_at", s)]) [] (created_at u)
  ++ from_option (fun s => [("updated_at", s)]) [] (updated_at u)
  ++ from_option (fun s => [("last_login", s)]) [] (last_login u)
  ++ from_option (fun s => [("role", s)]) [] (role u).

(** ** OAuth callback *)

Definition authorization (st : Storage) : list (string * string) :=
  match stored_token st with
  | Some session => [("Authorization", "Bearer " +:+ session)]
  | None => []
  end.

(** The exchange request. *)
Definition connect_request (st : Storage) (token userId username : string) : Request :=
  {| url := "/api/instagram/connect";
     method := "POST";
     headers := ("Content-Type", "application/json") :: authorization st;
     body := Some (JSON_stringify
       (JObj [("access_token", JStr token);
              ("instagram_user_id", JStr userId);
              ("instagram_username", JStr username);
              ("expires_in", JNum "5184000")])) |}.

Definition instagram_status_request (st : Storage) : Request :=
  {| url := "/api/instagram/status";
     method := "GET";
     headers := ("Content-Type", "application/json") :: authorization st;
     body := None |}.

Definition is_connect (req : Request) : bool :=
  String.eqb (url req) "/api/instagram/connect".

(** The exchange fails: no response, or a response that is not [ok]. *)
Definition exchange_fails (o : FetchOutcome) : Prop :=
  match o with
  | Rejected => True
  | Responded r => ok r = false
  end.

(** The exchange succeeds: an [ok] response with a JSON body. *)
Definition exchange_succeeds (o : FetchOutcome) : Prop :=
  match o with
  | Rejected => False
  | Responded r => ok r = true ∧ is_Some (JSON_parse (text r))
  end.

(** What [connectInstagram] and [getInstagramStatus] make of an outcome. *)
Definition api_completion (default : string) (o : FetchOutcome) : completion json :=
  match o with
  | Rejected => Throws FetchFailed
  | Responded r =>
      if negb (ok r) then
        match response_json r with
        | Returns error =>
            match get_property error "detail" with
            | Returns detail =>
                match error_message detail default with
                | Returns message => Throws (Error message)
                | Throws e => Throws e
                end
            | Throws e => Throws e
            end
        | Throws e => Throws e
        end
      else response_json r
  end.

(** The session has settled as logged in, and the location carries the
    success marker with the three exchange parameters. *)
Record callback_ready (props : Props) (page : Page) (token userId username : string)
    : Prop := mk_callback_ready {
  ready_settled : isAuthLoading props = false;
  ready_logged_in : is_logged_in (authStatus props) = true;
  ready_marker : params_get "instagram_auth" (search (location page)) = Some "success";
  ready_token : truthy_item (params_get "token" (search (location page))) = Some token;
  ready_user_id : truthy_item (params_get "user_id" (search (location page))) = Some userId;
  ready_username : truthy_item (params_get "username" (search (location page))) = Some username
}.

(** A call taken up again in the state [s]. *)
Definition reset {S A} (m : step S A) (s : S) : step S A :=
  match m with
  | Finished r _ => Finished r s
  | Awaiting _ req k => Awaiting s req k
  end.

(** Two calls in immediate succession: the second starts where the first
    has suspended, and the responses arrive afterwards, in the order of
    the requests.  The final state and all the requests sent. *)
Definition in_succession {S A} (net : Request → FetchOutcome) (call : async S A) (s : S)
    : S * list Request :=
  let first := call s in
  let second := call (state_of first) in
  let '(_, s1, log1) := run net (reset first (state_of second)) in
  let '(_, s2, log2) := run net (reset second s1) in
  (s2, map request (log1 ++ log2)).

(** The state in which the callback suspends: guard set, spinner on. *)
Definition claimed (page : Page) : Page :=
  setConnecting true (set_processedRef true page).

(** The state the [catch] and [finally] of the callback leave. *)
Definition released (error : exn) (page : Page) : Page :=
  setConnecting false
    (set_processedRef false (toast (toast_error "Failed to connect: " (Some error)) page)).

(** The page after [loadStatus]. *)
Definition loaded (o : FetchOutcome) (page : Page) : Page :=
  setLoading false
    (setStatus
       match api_completion "Failed to get Instagram status" o with
       | Returns statusData => statusData
       | Throws _ => status_error
       end
       (setLoading true page)).

(** The return location as the callback finds it, and the page once it is
    consumed. *)
Definition return_location (page : Page) : option string :=
  truthy_item (getItem "instagram_return_url" (localStorage page)).

Definition consume_return_location (page : Page) : Page :=
  set_localStorage (removeItem "instagram_return_url" (localStorage page)) page.

(** [restore_location] as a function of the page. *)
Definition restored (URL_new : string → option URL) (page : Page)
    : completion unit * Page :=
  match return_location page with
  | Some returnUrl =>
      match URL_new returnUrl with
      | None => (Throws TypeError, consume_return_location page)
      | Some returnUrlObj =>
          if String.eqb (URL_pathname returnUrlObj) (pathname (location page))
          then (Returns tt, replaceState_pathname (consume_return_location page))
          else (Returns tt, set_navigation (href returnUrlObj) (consume_return_location page))
      end
  | None => (Returns tt, replaceState_pathname page)
  end.

(** The whole callback on a ready page, as a function of the outcomes. *)
Definition processed (URL_new : string → option URL) (net : Request → FetchOutcome)
    (token userId username : string) (page : Page) : Page :=
  let req := connect_request (localStorage page) token userId username in
  match api_completion "Failed to connect Instagram account" (net req) with
  | Throws error => released error (claimed page)
  | Returns _ =>
      let connected :=
        toast (toast_success "Instagram account connected successfully!") (claimed page) in
      let shown := loaded (net (instagram_status_request (localStorage page))) connected in
      match restored URL_new shown with
      | (Returns _, page') => setConnecting false page'
      | (Throws error, page') => released error page'
      end
  end.

(** ** The rest of the session manager *)

(** The text [saveAuthData] stores for an identity: [JSON.stringify] of
    [undefined] is [undefined], which [setItem] writes as that word. *)
Definition record_text (info : value) : string :=
  match info with
  | Some j => JSON_stringify j
  | None => "undefined"
  end.

(** The store the refresh block leaves when the refresh has answered
    with [refreshedToken]. *)
Definition refreshed_store (refreshedToken cachedUser : value) (st : Storage) : Storage :=
  match ToString refreshedToken with
  | Returns text =>
      if truthy_value cachedUser
      then setItem USER_INFO_KEY (record_text cachedUser) (setItem ACCESS_TOKEN_KEY text st)
      else setItem ACCESS_TOKEN_KEY text st
  | Throws _ => st
  end.

(** How [getAuthStatus] goes on after the refresh: it returns early, or
    asks for the status with a token. *)
Definition after_refresh (base : string) (net : Request → FetchOutcome)
    (token : string) (st : Storage) : (AuthStatus + value) * Storage :=
  match refreshToken_completion (net (refresh_request base token)) with
  | Returns refreshedToken =>
      (inr refreshedToken, refreshed_store refreshedToken (cached_user st) (after_read st))
  | Throws e =>
      if is_token_expired e then (inl expired_status, clearStoredAuthData (after_read st))
      else (inr (Some (JStr token)), after_read st)
  end.

(** What the status block makes of the answer to its request. *)
Definition status_answer (bearer : string) (o : FetchOutcome) (st : Storage)
    : completion AuthStatus * Storage :=
  match o with
  | Rejected => (Throws FetchFailed, st)
  | Responded r =>
      if (JS.status r =? 200)%N then
        match response_json r with
        | Returns data =>
            match get_property data "user_info" with
            | Returns info =>
                (Returns (logged_in_status info),
                 setItem USER_INFO_KEY (record_text info) (setItem ACCESS_TOKEN_KEY bearer st))
            | Throws e => (Throws e, st)
            end
        | Throws e => (Throws e, st)
        end
      else if (JS.status r =? 401)%N then (Returns expired_status, clearStoredAuthData st)
      else (Throws (Error ("Unexpected status: " +:+ pretty (JS.status r))), st)
  end.

Definition logout_request (base token : string) : Request :=
  {| url := getAuthEndpoint base "/logout"; method := "POST";
     headers := [("Authorization", "Bearer " +:+ token)]; body := None |}.

Definition login_request (base identifier password : string) : Request :=
  {| url := getAuthEndpoint base "/login"; method := "POST";
     headers := [("Content-Type", "application/json")];
     body := Some (JSON_stringify
       (JObj [("identifier", JStr identifier); ("password", JStr password)])) |}.

Definition register_request (base username email password : string) : Request :=
  {| url := getAuthEndpoint base "/register"; method := "POST";
     headers := [("Content-Type", "application/json")];
     body := Some (JSON_stringify
       (JObj [("username", JStr username); ("email", JStr email);
              ("password", JStr password)])) |}.

(** What [login] and [register] make of an outcome. *)
Definition credentials_completion (fallback : string) (o : FetchOutcome) : completion json :=
  match o with
  | Rejected => Throws FetchFailed
  | Responded r =>
      match response_json r with
      | Returns data =>
          if negb (ok r) then
            match get_property data "detail" with
            | Returns detail =>
                match detail_message detail fallback with
                | Returns message => Throws (Error message)
                | Throws e => Throws e
                end
            | Throws e => Throws e
            end
          else Returns data
      | Throws e => Throws e
      end
  end.

(** The header of a name, in the headers of a request. *)
Fixpoint header (name : string) (hs : list (string * string)) : option string :=
  match hs with
  | [] => None
  | (k, v) :: rest => if String.eqb name k then Some v else header name rest
  end.

(** ** The rest of the dialog *)

Definition auth_url_request (st : Storage) : Request :=
  {| url := "/api/instagram/auth/url";
     method := "GET";
     headers := ("Content-Type", "application/json") :: authorization st;
     body := None |}.

Definition disconnect_request (st : Storage) : Request :=
  {| url := "/api/instagram/disconnect";
     method := "POST";
     headers := ("Content-Type", "application/json") :: authorization st;
     body := None |}.

(** The reason an error redirect gives, as the toast words it. *)
Definition redirect_error (page : Page) : string :=
  match truthy_item (params_get "error" (search (location page))) with
  | Some text => text
  | None => "Unknown error"
  end.

(** The page when [handleConnect] has recorded where the user is. *)
Definition departing (location_href : Location → string) (page : Page) : Page :=
  set_localStorage
    (setItem "instagram_return_url" (location_href (location page)) (localStorage page))
    (setConnecting true page).

(** ** The provider and the pages *)

(** What [useAuth] hands to the dialog. *)
Definition provided (open : bool) (p : AuthContext.Provider) : Props :=
  {| open := open; isAuthLoading := AuthContext.isLoading p;
     authStatus := AuthContext.authStatus p |}.

(** The toast of an expired session. *)
Definition expired_toast (t : string → string) : AuthContext.ErrorToast :=
  {| AuthContext.toast_message := t "common.auth.authExpiredMessage";
     AuthContext.toast_duration := 5000 |}.

(** ** Examples *)

Definition example_api : string := "https://api.example.test".

Definition example_user : UserInfo :=
  {| id := "u-1"; username := "ann"; email := "ann@example.test";
     image_url := None; provider := Some "prism"; created_at := None;
     updated_at := None; last_login := None; role := Some "user" |}.

Definition example_store : Storage :=
  setItem USER_INFO_KEY (JSON_stringify (UserInfo_json example_user))
    (setItem ACCESS_TOKEN_KEY "t0" ∅).

(** The same store with a cached record that does not parse. *)
Definition corrupt_store : Storage :=
  setItem USER_INFO_KEY "{" (setItem ACCESS_TOKEN_KEY "t0" ∅).

(** A network that answers by endpoint. *)
Definition answers (refresh status : FetchOutcome) (req : Request) : FetchOutcome :=
  if String.eqb (url req) (getAuthEndpoint example_api "/refresh") then refresh
  else if String.eqb (url req) (getAuthEndpoint example_api "/status") then status
  else Rejected.

Definition instagram_answers (connect status : FetchOutcome) (req : Request)
    : FetchOutcome :=
  if String.eqb (url req) "/api/instagram/connect" then connect
  else if String.eqb (url req) "/api/instagram/status" then status
  else Rejected.

Definition example_props : Props :=
  {| open := true; isAuthLoading := false;
     authStatus := logged_in_status (Some (UserInfo_json example_user)) |}.

Definition loading_props : Props :=
  {| open := true; isAuthLoading := true; authStatus := logged_out_status |}.

Definition example_page : Page :=
  {| localStorage :=
       setItem "instagram_return_url" "https://app.example.test/canvas/42" example_store;
     location :=
       {| pathname := "/";
          search := [("instagram_auth", "success"); ("token", "ig-token");
                     ("user_id", "1789"); ("username", "ann.draws")] |};
     navigation := None;
     processedRef := false;
     InstagramConnectDialog.status := None;
     loading := false;
     connecting := false;
     toasts := [] |}.

(** [new URL] on the one address the examples store. *)
Definition example_URL_new (text : string) : option URL :=
  if String.eqb text "https://app.example.test/canvas/42"
  then Some {| href := text; URL_pathname := "/canvas/42" |}
  else None.

Definition connected_response : FetchOutcome :=
  Responded {| JS.status := 200; text := "{}" |}.

Definition token_response (token : string) : FetchOutcome :=
  Responded {| JS.status := 200;
               text := JSON_stringify (JObj [("token", JStr token)]) |}.

Definition expired_response : FetchOutcome :=
  Responded {| JS.status := 401; text := EmptyString |}.

Definition server_error : FetchOutcome :=
  Responded {| JS.status := 503; text := EmptyString |}.

(** The status endpoint answering with an identity. *)
Definition user_response (u : UserInfo) : FetchOutcome :=
  Responded {| JS.status := 200;
               text := JSON_stringify (JObj [("user_info", UserInfo_json u)]) |}.

(** A session as the login endpoint answers it. *)
Definition session_response (token : string) (u : UserInfo) : FetchOutcome :=
  Responded {| JS.status := 200;
               text := JSON_stringify
                 (JObj [("token", JStr token); ("user_info", UserInfo_json u)]) |}.

Definition refused_response (detail : string) : FetchOutcome :=
  Responded {| JS.status := 401;
               text := JSON_stringify (JObj [("detail", JStr detail)]) |}.

Definition example_admin : UserInfo :=
  {| id := "u-0"; username := "root"; email := "root@example.test";
     image_url := None; provider := None; created_at := None;
     updated_at := None; last_login := None; role := Some "admin" |}.

(** The page an error redirect comes back to. *)
Definition refused_page : Page :=
  {| localStorage := example_store;
     location :=
       {| pathname := "/";
          search := [("instagram_auth", "error"); ("error", "access_denied")] |};
     navigation := None;
     processedRef := false;
     InstagramConnectDialog.status := None;
     loading := false;
     connecting := false;
     toasts := [] |}.

(** The page the user starts the connection from. *)
Definition departure_page : Page :=
  {| localStorage := example_store;
     location := {| pathname := "/canvas/42"; search := [] |};
     navigation := None;
     processedRef := false;
     InstagramConnectDialog.status := None;
     loading := false;
     connecting := false;
     toasts := [] |}.

Definition example_location_href (l : Location) : string :=
  "https://app.example.test" +:+ pathname l.

Definition example_translation (key : string) : string := key.

(** * Running a call

    [run] of a block is the run of its parts, one after the other. *)

#[local] Arguments exec : simpl never.
#[local] Arguments getAccessToken : simpl never.
#[local] Arguments getItem : simpl never.
#[local] Arguments setItem : simpl never.
#[local] Arguments removeItem : simpl never.
#[local] Arguments clearStoredAuthData : simpl never.
#[local] Arguments JSON_parse : simpl never.
#[local] Arguments JSON_stringify : simpl never.
#[local] Arguments ToString : simpl never.
#[local] Arguments getAuthEndpoint : simpl never.
#[local] Arguments truthy_item : simpl never.
#[local] Arguments pretty.pretty : simpl never.

Section AsyncFacts.
Context {S : Type} (net : Request → FetchOutcome).
Implicit Types s : S.

Lemma run_bind_step {A B} (m : step S A) (f : A → async S B) :
  run net (bind_step m f) =
    match run net m with
    | (Returns a, s, log) =>
        let '(r, s', log') := run net (f a s) in (r, s', log ++ log')
    | (Throws e, s, log) => (Throws e, s, log)
    end.
Proof.
  induction m as [[a|e] s|s req k IH]; cbn.
  - by destruct (run net (f a s)) as [[r s'] log'].
  - done.
  - rewrite IH. destruct (run net (k (net req) s)) as [[[a|e] s'] log]; [|done].
    by destruct (run net (f a s')) as [[r s''] log'].
Qed.

Lemma run_catch_step {A} (m : step S A) (h : exn → async S A) :
  run net (catch_step m h) =
    match run net m with
    | (Returns a, s, log) => (Returns a, s, log)
    | (Throws e, s, log) =>
        let '(r, s', log') := run net (h e s) in (r, s', log ++ log')
    end.
Proof.
  induction m as [[a|e] s|s req k IH]; cbn.
  - done.
  - by destruct (run net (h e s)) as [[r s'] log'].
  - rewrite IH. destruct (run net (k (net req) s)) as [[[a|e] s'] log]; [done|].
    by destruct (run net (h e s')) as [[r s''] log'].
Qed.

Lemma run_finally_step {A} (m : step S A) (f : S → S) :
  run net (finally_step m f) =
    let '(r, s, log) := run net m in (r, f s, log).
Proof.
  induction m as [r s|s req k IH]; cbn; [done|].
  rewrite IH. by destruct (run net (k (net req) s)) as [[r s'] log].
Qed.

Lemma exec_ret {A} (a : A) s : exec net (ret a) s = (Returns a, s, []).
Proof. done. Qed.
Lemma exec_throw {A} e s : exec net (throw (A:=A) e) s = (Throws e, s, []).
Proof. done. Qed.
Lemma exec_lift {A} (c : completion A) s : exec net (lift c) s = (c, s, []).
Proof. done. Qed.
Lemma exec_get s : exec net get s = (Returns s, s, []).
Proof. done. Qed.
Lemma exec_modify f s : exec net (modify f) s = (Returns tt, f s, []).
Proof. done. Qed.
Lemma exec_fetch req s :
  exec net (fetch req) s =
    (match net req with
     | Responded r => Returns r
     | Rejected => Throws FetchFailed
     end, s, [mkExchange s req (net req)]).
Proof. unfold exec, fetch. cbn. by destruct (net req). Qed.

Lemma exec_bind {A B} (m : async S A) (f : A → async S B) s :
  exec net (bind m f) s =
    match exec net m s with
    | (Returns a, s', log) =>
        let '(r, s'', log') := exec net (f a) s' in (r, s'', log ++ log')
    | (Throws e, s', log) => (Throws e, s', log)
    end.
Proof. apply run_bind_step. Qed.

Lemma exec_try_catch {A} (m : async S A) (h : exn → async S A) s :
  exec net (try_catch m h) s =
    match exec net m s with
    | (Returns a, s', log) => (Returns a, s', log)
    | (Throws e, s', log) =>
        let '(r, s'', log') := exec net (h e) s' in (r, s'', log ++ log')
    end.
Proof. apply run_catch_step. Qed.

Lemma exec_try_finally {A} (m : async S A) (f : S → S) s :
  exec net (try_finally m f) s =
    let '(r, s', log) := exec net m s in (r, f s', log).
Proof. apply run_finally_step. Qed.

Lemma exec_attempt {A} (m : async S A) s :
  exec net (attempt m) s =
    let '(r, s', log) := exec net m s in (Returns r, s', log).
Proof.
  unfold attempt. rewrite exec_try_catch, exec_bind.
  destruct (exec net m s) as [[[a|e] s'] log]; cbv beta iota;
    rewrite exec_ret; cbv beta iota; by rewrite ?app_nil_r.
Qed.
End AsyncFacts.

(** * The fuel of [JSON.parse]

    The parser recurses on fuel.  A parse that succeeds on some fuel
    succeeds on the fuel [JSON_parse] gives it, so [None] always is a
    syntax error of the text. *)

Section ParserFuel.

Lemma skip_ws_length s : String.length (skip_ws s) ≤ String.length s.
Proof.
  induction s as [|c s IH]; simpl; [done|].
  destruct (is_ws c); simpl; lia.
Qed.

Lemma span_digits_length s d r :
  span_digits s = (d, r) → String.length s = String.length d + String.length r.
Proof.
  revert d r. induction s as [|c s IH]; intros d r; simpl.
  - by intros [= <- <-].
  - destruct (is_digit c).
    + destruct (span_digits s) as [d' r'] eqn:Hs. intros [= <- <-].
      simpl. by rewrite (IH d' r').
    + by intros [= <- <-].
Qed.

Lemma parse_string_items_length s items r :
  parse_string_items s = Some (items, r) → String.length r < String.length s.
Proof.
  remember (String.length s) as n eqn:Hn.
  revert s items r Hn. induction (lt_wf n) as [n _ IH].
  intros s items r -> Hparse.
  destruct s as [|c s]; [done|]. simpl in Hparse.
  destruct (N_of_ascii c =? 34)%N.
  { injection Hparse as _ <-. simpl. lia. }
  destruct (N_of_ascii c =? 92)%N.
  - destruct s as [|e s]; [done|].
    destruct (N_of_ascii e =? 117)%N.
    + destruct s as [|h1 [|h2 [|h3 [|h4 s]]]]; try done.
      destruct (hex4 h1 h2 h3 h4); [|done].
      destruct (parse_string_items s) as [[items' r']|] eqn:Hrec; [|done].
      injection Hparse as _ <-.
      pose proof (IH (String.length s) ltac:(simpl; lia) s items' r' eq_refl Hrec).
      simpl. lia.
    + destruct (simple_escape e); [|done].
      destruct (parse_string_items s) as [[items' r']|] eqn:Hrec; [|done].
      injection Hparse as _ <-.
      pose proof (IH (String.length s) ltac:(simpl; lia) s items' r' eq_refl Hrec).
      simpl. lia.
  - destruct (N_of_ascii c <? 32)%N; [done|].
    destruct (parse_string_items s) as [[items' r']|] eqn:Hrec; [|done].
    injection Hparse as _ <-.
    pose proof (IH (String.length s) ltac:(simpl; lia) s items' r' eq_refl Hrec).
    simpl. lia.
Qed.

Lemma parse_string_length s str r :
  parse_string s = Some (str, r) → String.length r < String.length s.
Proof.
  unfold parse_string.
  destruct (parse_string_items s) as [[items r']|] eqn:H; [|done].
  intros [= _ <-]. by eapply parse_string_items_length.
Qed.

Ltac split_char c := destruct c as [[] [] [] [] [] [] [] []].

Lemma substring_all s : String.substring 0 (String.length s) s = s.
Proof. induction s as [|c s IH]; simpl; [done|]. by rewrite IH. Qed.

Lemma starts_with_length p s rest :
  starts_with p s = Some rest →
  String.length s = String.length p + String.length rest.
Proof.
  unfold starts_with. revert s rest.
  induction p as [|a p IH]; intros s rest.
  - simpl. rewrite Nat.sub_0_r.
    destruct s; simpl; intros [= <-]; [done|]. by rewrite substring_all.
  - destruct s as [|b s]; simpl; [done|].
    destruct (Ascii.ascii_dec a b); [|done].
    intros H. by rewrite (IH s rest H).
Qed.

Lemma parse_number_length s lit r :
  parse_number s = Some (lit, r) → String.length r < String.length s.
Proof.
  unfold parse_number.
  set (signed := match s with String "-"%char r => ("-", r) | _ => (EmptyString, s) end).
  assert (String.length signed.2 ≤ String.length s) as Hsign.
  { subst signed. destruct s as [|c s]; [done|].
    split_char c; simpl; lia. }
  destruct signed as [sign s1]. simpl in Hsign.
  destruct (span_digits s1) as [int s2] eqn:Hint.
  apply span_digits_length in Hint.
  destruct int as [|d int]; [done|]. simpl in Hint.
  match goal with |- context [negb ?b] => destruct b end; [|done].
  cbn [negb].
  set (frac := match s2 with String "."%char _ => _ | _ => _ end).
  assert (∀ f s3, frac = Some (f, s3) → String.length s3 ≤ String.length s2)
    as Hfrac.
  { subst frac. intros f s3. destruct s2 as [|c s2]; [by intros [= _ <-]|].
    split_char c; try (intros [= _ <-]; simpl; lia).
    destruct (span_digits s2) as [ds r'] eqn:Hds.
    apply span_digits_length in Hds.
    destruct (truthy_string ds); [|done]. intros [= _ <-]. simpl. lia. }
  destruct frac as [[f s3]|]; [|done].
  specialize (Hfrac f s3 eq_refl).
  match goal with |- context [match ?e with Some _ => _ | None => None end] =>
    set (ex := e) end.
  assert (∀ x s4, ex = Some (x, s4) → String.length s4 ≤ String.length s3)
    as Hex.
  { subst ex. intros x s4. destruct s3 as [|c s3]; [by intros [= _ <-]|].
    assert (∀ e, (let '(esign, r1) :=
                match s3 with
                | String "-"%char r' => ("-", r')
                | String "+"%char r' => ("+", r')
                | _ => (EmptyString, s3)
                end in
              let '(ds, r2) := span_digits r1 in
              if truthy_string ds then Some (String e (esign +:+ ds), r2) else None)
              = Some (x, s4) → String.length s4 ≤ String.length s3) as Hexp.
    { intros e.
      set (signed := match s3 with String "-"%char _ => _ | _ => _ end).
      assert (String.length signed.2 ≤ String.length s3) as Hsigned.
      { subst signed. destruct s3 as [|c' s3]; [done|].
        split_char c'; simpl; lia. }
      destruct signed as [esign r1]. simpl in Hsigned.
      destruct (span_digits r1) as [ds r2] eqn:Hds.
      apply span_digits_length in Hds.
      destruct (truthy_string ds); [|done]. intros [= _ <-]. lia. }
    split_char c; try (intros [= _ <-]; simpl; lia);
      intros H; apply Hexp in H; simpl; lia. }
  destruct ex as [[x s4]|]; [|done].
  specialize (Hex x s4 eq_refl).
  intros [= _ <-]. lia.
Qed.

Lemma parse_literal_length s v r :
  parse_literal s = Some (v, r) → String.length r < String.length s.
Proof.
  unfold parse_literal.
  destruct (starts_with "true" s) as [r1|] eqn:H1.
  { intros [= _ <-]. apply starts_with_length in H1. simpl in H1. lia. }
  destruct (starts_with "false" s) as [r2|] eqn:H2.
  { intros [= _ <-]. apply starts_with_length in H2. simpl in H2. lia. }
  destruct (starts_with "null" s) as [r3|] eqn:H3.
  { intros [= _ <-]. apply starts_with_length in H3. simpl in H3. lia. }
  destruct (parse_number s) as [[lit r4]|] eqn:H4; [|done].
  intros [= _ <-]. by eapply parse_number_length.
Qed.

Lemma parse_value_S fuel s :
  parse_value (S fuel) s =
  match skip_ws s with
  | EmptyString => None
  | String c r =>
      if (N_of_ascii c =? 123)%N then
        match skip_ws r with
        | EmptyString => parse_members fuel [] EmptyString
        | String c' r' =>
            if Ascii.eqb c' "}" then Some (JObj [], r')
            else parse_members fuel [] (String c' r')
        end
      else if (N_of_ascii c =? 91)%N then
        match skip_ws r with
        | EmptyString => parse_elements fuel [] EmptyString
        | String c' r' =>
            if Ascii.eqb c' "]" then Some (JArr [], r')
            else parse_elements fuel [] (String c' r')
        end
      else if (N_of_ascii c =? 34)%N then
        match parse_string r with
        | Some (str, rest) => Some (JStr str, rest)
        | None => None
        end
      else parse_literal (String c r)
  end.
Proof.
  cbn [parse_value]. destruct (skip_ws s) as [|c r]; [done|]. cbv zeta.
  destruct (N_of_ascii c =? 123)%N.
  { destruct (skip_ws r) as [|c' r']; [done|]. by split_char c'. }
  destruct (N_of_ascii c =? 91)%N.
  { destruct (skip_ws r) as [|c' r']; [done|]. by split_char c'. }
  done.
Qed.

Lemma parse_elements_S fuel acc s :
  parse_elements (S fuel) acc s =
  match parse_value fuel s with
  | Some (v, r) =>
      match skip_ws r with
      | EmptyString => None
      | String c r' =>
          if Ascii.eqb c "," then parse_elements fuel (v :: acc) r'
          else if Ascii.eqb c "]" then Some (JArr (rev (v :: acc)), r')
          else None
      end
  | None => None
  end.
Proof.
  cbn [parse_elements]. destruct (parse_value fuel s) as [[v r]|]; [|done].
  destruct (skip_ws r) as [|c r']; [done|]. by split_char c.
Qed.

Lemma parse_members_S fuel acc s :
  parse_members (S fuel) acc s =
  match skip_ws s with
  | EmptyString => None
  | String c r =>
      if negb (N_of_ascii c =? 34)%N then None else
      match parse_string r with
      | Some (k, r1) =>
          match skip_ws r1 with
          | EmptyString => None
          | String c2 r2 =>
              if Ascii.eqb c2 ":" then
                match parse_value fuel r2 with
                | Some (v, r3) =>
                    match skip_ws r3 with
                    | EmptyString => None
                    | String c4 r4 =>
                        if Ascii.eqb c4 ","
                        then parse_members fuel (obj_set acc k v) r4
                        else if Ascii.eqb c4 "}"
                        then Some (JObj (obj_set acc k v), r4)
                        else None
                    end
                | None => None
                end
              else None
          end
      | None => None
      end
  end.
Proof.
  cbn [parse_members]. destruct (skip_ws s) as [|c r]; [done|].
  destruct (negb _); [done|].
  destruct (parse_string r) as [[k r1]|]; [|done].
  destruct (skip_ws r1) as [|c2 r2]; [done|].
  split_char c2; try done.
  change (":"%char =? ":")%char with true. cbv iota.
  destruct (parse_value fuel r2) as [[v r3]|]; [|done].
  destruct (skip_ws r3) as [|c4 r4]; [done|]. by split_char c4.
Qed.

Ltac skipped s :=
  let H := fresh "Hskip" in
  pose proof (skip_ws_length s) as H;
  match goal with E : skip_ws s = _ |- _ => rewrite E in H end;
  simpl in H.

(** A successful parse consumes at least one character, and succeeds
    again, with the same result, on any fuel that is at least the number
    of characters it consumed. *)
Lemma parse_fuel fuel :
  (∀ s v r, parse_value fuel s = Some (v, r) →
     String.length r < String.length s ∧
     ∀ fuel', String.length s - String.length r ≤ fuel' →
       parse_value fuel' s = Some (v, r)) ∧
  (∀ acc s v r, parse_elements fuel acc s = Some (v, r) →
     String.length r < String.length s ∧
     ∀ fuel', String.length s - String.length r ≤ fuel' →
       parse_elements fuel' acc s = Some (v, r)) ∧
  (∀ acc s v r, parse_members fuel acc s = Some (v, r) →
     String.length r < String.length s ∧
     ∀ fuel', String.length s - String.length r ≤ fuel' →
       parse_members fuel' acc s = Some (v, r)).
Proof.
  induction fuel as [|fuel (IHv & IHe & IHm)]; [by repeat split|].
  split; [|split].
  - intros s v r. rewrite parse_value_S.
    destruct (skip_ws s) as [|c s0] eqn:Es; [done|]. skipped s.
    destruct (N_of_ascii c =? 123)%N eqn:Hc1.
    { destruct (skip_ws s0) as [|c' r'] eqn:Es0.
      { intros H. destruct (IHm _ _ _ _ H) as [Hlen _]. simpl in Hlen. lia. }
      skipped s0.
      destruct (Ascii.eqb c' "}") eqn:Hc'.
      - intros [= <- <-]. split; [lia|]. intros [|fuel'] ?; [lia|].
        by rewrite parse_value_S, Es, Hc1, Es0, Hc'.
      - intros H. destruct (IHm _ _ _ _ H) as [Hlen Hfuel]. simpl in Hlen.
        split; [lia|]. intros [|fuel'] ?; [lia|].
        rewrite parse_value_S, Es, Hc1, Es0, Hc'. apply Hfuel. simpl. lia. }
    destruct (N_of_ascii c =? 91)%N eqn:Hc2.
    { destruct (skip_ws s0) as [|c' r'] eqn:Es0.
      { intros H. destruct (IHe _ _ _ _ H) as [Hlen _]. simpl in Hlen. lia. }
      skipped s0.
      destruct (Ascii.eqb c' "]") eqn:Hc'.
      - intros [= <- <-]. split; [lia|]. intros [|fuel'] ?; [lia|].
        by rewrite parse_value_S, Es, Hc1, Hc2, Es0, Hc'.
      - intros H. destruct (IHe _ _ _ _ H) as [Hlen Hfuel]. simpl in Hlen.
        split; [lia|]. intros [|fuel'] ?; [lia|].
        rewrite parse_value_S, Es, Hc1, Hc2, Es0, Hc'. apply Hfuel. simpl. lia. }
    destruct (N_of_ascii c =? 34)%N eqn:Hc3.
    { destruct (parse_string s0) as [[str rest]|] eqn:Hstr; [|done].
      intros [= <- <-]. apply parse_string_length in Hstr as Hlen.
      split; [lia|]. intros [|fuel'] ?; [lia|].
      by rewrite parse_value_S, Es, Hc1, Hc2, Hc3, Hstr. }
    intros H. apply parse_literal_length in H as Hlen. simpl in Hlen.
    split; [lia|]. intros [|fuel'] ?; [lia|].
    by rewrite parse_value_S, Es, Hc1, Hc2, Hc3.
  - intros acc s v r. rewrite parse_elements_S.
    destruct (parse_value fuel s) as [[v1 r1]|] eqn:Hv; [|done].
    destruct (IHv _ _ _ Hv) as [Hlen1 Hfuel1].
    destruct (skip_ws r1) as [|c r'] eqn:Er1; [done|]. skipped r1.
    destruct (Ascii.eqb c ",") eqn:Hc1.
    { intros H. destruct (IHe _ _ _ _ H) as [Hlen Hfuel].
      split; [lia|]. intros [|fuel'] ?; [lia|].
      rewrite parse_elements_S, Hfuel1 by lia. rewrite Er1, Hc1.
      apply Hfuel. lia. }
    destruct (Ascii.eqb c "]") eqn:Hc2; [|done].
    intros [= <- <-]. split; [lia|]. intros [|fuel'] ?; [lia|].
    rewrite parse_elements_S, Hfuel1 by lia. by rewrite Er1, Hc1, Hc2.
  - intros acc s v r. rewrite parse_members_S.
    destruct (skip_ws s) as [|c s0] eqn:Es; [done|]. skipped s.
    destruct (negb _) eqn:Hc; [done|].
    destruct (parse_string s0) as [[k r1]|] eqn:Hk; [|done].
    apply parse_string_length in Hk as Hlenk.
    destruct (skip_ws r1) as [|c2 r2] eqn:Er1; [done|]. skipped r1.
    destruct (Ascii.eqb c2 ":") eqn:Hc2; [|done].
    destruct (parse_value fuel r2) as [[v3 r3]|] eqn:Hv; [|done].
    destruct (IHv _ _ _ Hv) as [Hlen3 Hfuel3].
    destruct (skip_ws r3) as [|c4 r4] eqn:Er3; [done|]. skipped r3.
    destruct (Ascii.eqb c4 ",") eqn:Hc4.
    { intros H. destruct (IHm _ _ _ _ H) as [Hlen Hfuel].
      split; [lia|]. intros [|fuel'] ?; [lia|].
      rewrite parse_members_S, Es, Hc, Hk, Er1, Hc2, Hfuel3 by lia.
      rewrite Er3, Hc4. apply Hfuel. lia. }
    destruct (Ascii.eqb c4 "}") eqn:Hc5; [|done].
    intros [= <- <-]. split; [lia|]. intros [|fuel'] ?; [lia|].
    rewrite parse_members_S, Es, Hc, Hk, Er1, Hc2, Hfuel3 by lia.
    by rewrite Er3, Hc4, Hc5.
Qed.

Lemma parse_value_fuel fuel text v rest :
  parse_value fuel text = Some (v, rest) →
  parse_value (S (String.length text)) text = Some (v, rest).
Proof.
  intros H. destruct (parse_fuel fuel) as [Hv _].
  destruct (Hv _ _ _ H) as [_ Hfuel]. apply Hfuel. lia.
Qed.

(** Whatever the fuel a text parses with, [JSON_parse] parses it. *)
Lemma JSON_parse_fuel fuel text v rest :
  parse_value fuel text = Some (v, rest) → skip_ws rest = EmptyString →
  JSON_parse text = Some v.
Proof.
  intros H Hrest. unfold JSON_parse.
  by rewrite (parse_value_fuel _ _ _ _ H), Hrest.
Qed.
End ParserFuel.

(** The parser on some texts: white space, nesting and numbers; a key
    written twice keeps its place and takes the later value; a text that
    stops early, goes on after its value or writes a number with a leading
    zero is refused. *)

Example JSON_parse_nested :
  JSON_parse (" { " +:+ quote "a" +:+ " : [1, true, null, -2.5e3] } ") =
    Some (JObj [("a", JArr [JNum "1"; JBool true; JNull; JNum "-2.5e3"])]).
Proof. reflexivity. Qed.

Example JSON_parse_duplicate_key :
  JSON_parse ("{" +:+ quote "a" +:+ ":1," +:+ quote "b" +:+ ":2,"
              +:+ quote "a" +:+ ":3}") =
    Some (JObj [("a", JNum "3"); ("b", JNum "2")]).
Proof. reflexivity. Qed.

Example JSON_parse_truncated :
  JSON_parse ("{" +:+ quote "id" +:+ ":") = None.
Proof. reflexivity. Qed.

Example JSON_parse_trailing : JSON_parse "null x" = None.
Proof. reflexivity. Qed.

Example JSON_parse_leading_zero : JSON_parse "01" = None.
Proof. reflexivity. Qed.

Example JSON_parse_escape :
  JSON_parse (quote ("a" +:+ String dquote "b")) =
    Some (JStr ("a" +:+ String dquote "b")).
Proof. reflexivity. Qed.

(** * [JSON.parse] after [JSON.stringify]

    On objects whose properties are strings, which is what a [UserInfo]
    is, parsing gives back what was written. *)

Section JSONFacts.
#[local] Arguments String.append !s1 s2 / : simpl nomatch.

Lemma append_assoc (a b c : string) : (a +:+ b) +:+ c = a +:+ (b +:+ c).
Proof. induction a as [|x a IH]; simpl; [done|by f_equal]. Qed.

Lemma length_append (a b : string) :
  String.length (a +:+ b) = String.length a + String.length b.
Proof. induction a as [|x a IH]; simpl; [done|by f_equal]. Qed.

Lemma parse_string_items_escape c rest :
  parse_string_items (escape_char c +:+ rest) =
    match parse_string_items rest with
    | Some (items, r) => Some (item_of c :: items, r)
    | None => None
    end.
Proof.
  destruct c as [[] [] [] [] [] [] [] []]; reflexivity.
Qed.

Lemma parse_string_items_quote s rest :
  parse_string_items (quote_body s +:+ String dquote rest) = Some (items_of s, rest).
Proof.
  induction s as [|c s IH]; simpl; [done|].
  by rewrite append_assoc, parse_string_items_escape, IH.
Qed.

Lemma decode_items_of s : decode_items (items_of s) = s.
Proof.
  induction s as [|c s IH]; [done|].
  change (items_of (String c s)) with (item_of c :: items_of s).
  assert (decode_items (item_of c :: items_of s) = String c (decode_items (items_of s)))
    as ->; [|by rewrite IH].
  generalize (items_of s). intros rest.
  destruct c as [[] [] [] [] [] [] [] []]; try reflexivity.
  all: destruct rest as [|[c'|lo] rest']; reflexivity.
Qed.

Lemma parse_string_quote s rest :
  parse_string (quote_body s +:+ String dquote rest) = Some (s, rest).
Proof.
  unfold parse_string. by rewrite parse_string_items_quote, decode_items_of.
Qed.

Lemma parse_value_quote fuel v rest :
  parse_value (S fuel) (quote v +:+ rest) = Some (JStr v, rest).
Proof.
  unfold quote. simpl. rewrite append_assoc. simpl. by rewrite parse_string_quote.
Qed.

Lemma parse_members_strings fields : ∀ fuel acc rest,
  fields ≠ [] →
  length fields < fuel →
  parse_members fuel acc
    (String.concat "," (map member (string_props fields)) +:+ String "}" rest) =
  Some (JObj (fold_left (fun a kv => obj_set a (fst kv) (snd kv)) (string_props fields) acc),
        rest).
Proof.
  induction fields as [|[k v] fields IH]; intros fuel acc rest Hne Hfuel; [done|].
  destruct fuel as [|[|fuel]]; [simpl in Hfuel; lia..|].
  assert (∀ tail, parse_members (S (S fuel)) acc (member (k, JStr v) +:+ tail) =
    match parse_value (S fuel) (quote v +:+ tail) with
    | Some (val, r3) =>
        match skip_ws r3 with
        | String ","%char r4 => parse_members (S fuel) (obj_set acc k val) r4
        | String "}"%char r4 => Some (JObj (obj_set acc k val), r4)
        | _ => None
        end
    | None => None
    end) as Hstep.
  { intros tail. unfold member, quote. cbn [fst snd JSON_stringify].
    unfold quote. simpl.
    rewrite !append_assoc. simpl. rewrite parse_string_quote. simpl.
    by rewrite !append_assoc. }
  destruct fields as [|kv' fields].
  - cbn [string_props map String.concat fold_left fst snd].
    rewrite Hstep, parse_value_quote. done.
  - change (String.concat "," (map member (string_props ((k, v) :: kv' :: fields))))
      with (member (k, JStr v) +:+ "," +:+
            String.concat "," (map member (string_props (kv' :: fields)))).
    rewrite !append_assoc, Hstep, parse_value_quote.
    change (skip_ws ("," +:+ ?x)) with (String ","%char x).
    cbv beta iota.
    rewrite IH; [done|done|]. simpl in Hfuel |- *. lia.
Qed.

Lemma member_starts k v : ∃ tl, member (k, v) = String dquote tl.
Proof. unfold member, quote. simpl. by eexists. Qed.

Lemma members_start fields :
  fields ≠ [] →
  ∃ tl, String.concat "," (map member (string_props fields)) = String dquote tl.
Proof.
  destruct fields as [|[k v] [|kv' fields]]; [done|..]; intros _.
  - apply member_starts.
  - change (String.concat "," (map member (string_props ((k, v) :: kv' :: fields))))
      with (member (k, JStr v) +:+ "," +:+
            String.concat "," (map member (string_props (kv' :: fields)))).
    destruct (member_starts k (JStr v)) as [tl ->]. simpl. by eexists.
Qed.

Lemma members_length fields :
  length fields ≤ String.length (String.concat "," (map member (string_props fields))).
Proof.
  induction fields as [|[k v] [|kv' fields] IH]; [simpl; lia|..].
  - cbn [string_props map String.concat fst snd].
    destruct (member_starts k (JStr v)) as [tl ->]. simpl. lia.
  - change (String.concat "," (map member (string_props ((k, v) :: kv' :: fields))))
      with (member (k, JStr v) +:+ "," +:+
            String.concat "," (map member (string_props (kv' :: fields)))).
    rewrite !length_append. destruct (member_starts k (JStr v)) as [tl ->].
    simpl in IH |- *. lia.
Qed.

Lemma JSON_parse_stringify_strings fields :
  fields ≠ [] →
  JSON_parse (JSON_stringify (JObj (string_props fields))) =
    Some (JObj (fold_left (fun a kv => obj_set a (fst kv) (snd kv)) (string_props fields) [])).
Proof.
  intros Hne.
  change (JSON_stringify (JObj (string_props fields)))
    with ("{" +:+ String.concat "," (map member (string_props fields)) +:+ "}").
  unfold JSON_parse.
  pose proof (members_length fields) as Hlen.
  destruct (members_start fields Hne) as [tl Htl].
  pose proof (parse_members_strings fields
    (String.length ("{" +:+ String.concat "," (map member (string_props fields)) +:+ "}"))
    [] EmptyString Hne) as Hparse.
  rewrite Htl in *.
  simpl in Hparse |- *. rewrite length_append in *. simpl in *.
  rewrite Hparse by lia. done.
Qed.

Lemma UserInfo_json_fields u : UserInfo_json u = JObj (string_props (UserInfo_fields u)).
Proof. destruct u as [? ? ? [] [] [] [] [] []]; reflexivity. Qed.

Lemma UserInfo_props_stable u :
  fold_left (fun a kv => obj_set a (fst kv) (snd kv)) (string_props (UserInfo_fields u)) []
  = string_props (UserInfo_fields u).
Proof. destruct u as [? ? ? [] [] [] [] [] []]; reflexivity. Qed.

Lemma JSON_roundtrip_UserInfo u :
  JSON_parse (JSON_stringify (UserInfo_json u)) = Some (UserInfo_json u).
Proof.
  rewrite UserInfo_json_fields, JSON_parse_stringify_strings by done.
  by rewrite UserInfo_props_stable.
Qed.

Lemma UserInfo_of_json_json u : UserInfo_of_json (UserInfo_json u) = Some u.
Proof. destruct u as [? ? ? [] [] [] [] [] []]; reflexivity. Qed.

Lemma JSON_stringify_UserInfo_truthy u :
  truthy_string (JSON_stringify (UserInfo_json u)) = true.
Proof. done. Qed.
End JSONFacts.

(** * Session manager *)

Section SessionManager.
Context (BASE_API_URL : string) (net : Request → FetchOutcome).

#[local] Abbreviation getAuthStatus := (Auth.getAuthStatus BASE_API_URL).
#[local] Abbreviation refresh_req := (refresh_request BASE_API_URL).
#[local] Abbreviation status_req := (status_request BASE_API_URL).

Lemma clear_token st : getAccessToken (clearStoredAuthData st) = None.
Proof.
  unfold getAccessToken, clearStoredAuthData, getItem, removeItem.
  rewrite lookup_delete_ne by done. apply lookup_delete_eq.
Qed.

Lemma clear_user st : getItem USER_INFO_KEY (clearStoredAuthData st) = None.
Proof. unfold clearStoredAuthData, getItem, removeItem. apply lookup_delete_eq. Qed.

Lemma stored_token_get st token : stored_token st = Some token → getAccessToken st = Some token.
Proof.
  unfold stored_token, truthy_item. destruct (getAccessToken st) as [t|]; [|done].
  destruct (truthy_string t); naive_solver.
Qed.

Lemma endpoints_differ :
  getAuthEndpoint BASE_API_URL "/refresh" ≠ getAuthEndpoint BASE_API_URL "/status".
Proof. unfold getAuthEndpoint. intros H. by apply String.app_inj in H. Qed.

(** ** The blocks of [getAuthStatus] *)

Lemma exec_read_cached_user st :
  exec net read_cached_user st = (Returns (cached_user st), after_read st, []).
Proof.
  unfold read_cached_user, cached_user, after_read, cached_record.
  rewrite exec_bind, exec_get.
  destruct (truthy_item (getItem USER_INFO_KEY st)) as [raw|]; [|done].
  by destruct (JSON_parse raw).
Qed.

Lemma exec_refreshToken token st :
  exec net (refreshToken BASE_API_URL token) st =
    (refreshToken_completion (net (refresh_req token)), st,
     [mkExchange st (refresh_req token) (net (refresh_req token))]).
Proof.
  unfold refreshToken. rewrite exec_bind, exec_fetch.
  fold (refresh_req token). unfold refreshToken_completion.
  destruct (net (refresh_req token)) as [r|]; [|done].
  destruct (JS.status r =? 200)%N.
  - rewrite exec_bind, exec_lift. destruct (response_json r); [|done].
    rewrite exec_lift. done.
  - destruct (JS.status r =? 401)%N; by rewrite exec_throw.
Qed.

Lemma expired_refresh r :
  JS.status r = 401%N →
  refreshToken_completion (Responded r) = Throws (Error "TOKEN_EXPIRED").
Proof. intros H. unfold refreshToken_completion. by rewrite H. Qed.

Lemma unavailable_refresh o :
  unavailable o → ∃ e, refreshToken_completion o = Throws e ∧ is_token_expired e = false.
Proof.
  destruct o as [r|]; cbn; [|eauto].
  intros [H1 H2]. apply N.eqb_neq in H1, H2. rewrite H1, H2. eauto.
Qed.

Lemma exec_refresh_block_throws token cachedUser st e :
  refreshToken_completion (net (refresh_req token)) = Throws e →
  exec net (refresh_block BASE_API_URL token cachedUser) st =
    (if is_token_expired e
     then (Returns (inl expired_status), clearStoredAuthData st)
     else (Returns (inr (Some (JStr token))), st),
     [mkExchange st (refresh_req token) (net (refresh_req token))]).
Proof.
  intros He. unfold refresh_block.
  rewrite exec_bind, exec_attempt, exec_refreshToken, He. cbv beta iota.
  unfold refresh_failed. destruct (is_token_expired e).
  - unfold handleTokenExpiration. by rewrite exec_bind, exec_modify, exec_ret.
  - by rewrite exec_ret.
Qed.

Lemma exec_refresh_block_returns token cachedUser st refreshedToken :
  refreshToken_completion (net (refresh_req token)) = Returns refreshedToken →
  ∃ st',
    exec net (refresh_block BASE_API_URL token cachedUser) st =
      (Returns (inr refreshedToken), st',
       [mkExchange st (refresh_req token) (net (refresh_req token))]) ∧
    (∀ key, is_Some (st !! key) → is_Some (st' !! key)) ∧
    (truthy_value cachedUser = false →
       getItem USER_INFO_KEY st' = getItem USER_INFO_KEY st).
Proof.
  intros He. unfold refresh_block.
  rewrite exec_bind, exec_attempt, exec_refreshToken, He. cbv beta iota.
  rewrite exec_bind, exec_attempt.
  unfold saveAuthData, localStorage_setItem.
  destruct (ToString refreshedToken) as [text|e] eqn:Htext.
  - destruct (truthy_value cachedUser) eqn:Hcu.
    + destruct cachedUser as [j|]; [|done].
      rewrite !exec_bind, exec_lift, exec_modify. cbv beta iota.
      rewrite exec_bind, exec_lift. cbn [JSON_stringify_value]. 
      change (ToString (Some (JStr ?s))) with (Returns (A:=string) s). cbv beta iota.
      rewrite exec_modify, exec_ret. cbv beta iota.
      eexists; split; [done|]. split; [|done].
      intros key Hkey. unfold setItem.
      rewrite !lookup_insert_is_Some. destruct (decide (USER_INFO_KEY = key)); [by left|].
      right. split; [done|]. destruct (decide (ACCESS_TOKEN_KEY = key)); [by left|by right].
    + rewrite exec_bind, exec_lift, exec_modify, exec_ret. cbv beta iota.
      eexists; split; [done|]. split.
      * intros key Hkey. unfold setItem. rewrite lookup_insert_is_Some.
        destruct (decide (ACCESS_TOKEN_KEY = key)); [by left|by right].
      * intros _. unfold getItem, setItem. by rewrite lookup_insert_ne.
  - exists st.
    assert (Hne : is_token_expired e = false).
    { unfold ToString in Htext. destruct refreshedToken as [j|]; [|done].
      destruct (ToString_json j); naive_solver. }
    destruct (truthy_value cachedUser).
    + rewrite !exec_bind, exec_lift. cbv beta iota. unfold refresh_failed.
      rewrite Hne, exec_ret. done.
    + rewrite exec_bind, exec_lift. cbv beta iota. unfold refresh_failed.
      rewrite Hne, exec_ret. done.
Qed.

(** The refresh block always sends the refresh request, and only that;
    unless the token has expired it clears nothing. *)
Lemma exec_refresh_block_shape token cachedUser st :
  ∃ flow st',
    exec net (refresh_block BASE_API_URL token cachedUser) st =
      (Returns flow, st',
       [mkExchange st (refresh_req token) (net (refresh_req token))]) ∧
    (flow = inl expired_status ∨
     (∃ activeToken, flow = inr activeToken) ∧
     (∀ key, is_Some (st !! key) → is_Some (st' !! key)) ∧
     (truthy_value cachedUser = false →
        getItem USER_INFO_KEY st' = getItem USER_INFO_KEY st)).
Proof.
  destruct (refreshToken_completion (net (refresh_req token))) as [v|e] eqn:He.
  - destruct (exec_refresh_block_returns token cachedUser st v He) as (st' & -> & ? & ?).
    exists (inr v), st'. naive_solver.
  - rewrite (exec_refresh_block_throws token cachedUser st e He).
    destruct (is_token_expired e); eexists _, _; split; try done; naive_solver.
Qed.

Lemma exec_status_block_unavailable activeToken bearer st :
  ToString activeToken = Returns bearer →
  unavailable (net (status_req bearer)) →
  ∃ e, exec net (status_block BASE_API_URL activeToken) st =
         (Throws e, st, [mkExchange st (status_req bearer) (net (status_req bearer))]).
Proof.
  intros Hb Hu. unfold status_block.
  rewrite exec_bind, exec_lift, Hb, exec_bind, exec_fetch.
  fold (status_req bearer).
  destruct (net (status_req bearer)) as [r|]; cbn in Hu |- *; [|eauto].
  destruct Hu as [H1 H2]. apply N.eqb_neq in H1, H2. rewrite H1, H2.
  rewrite exec_throw. eauto.
Qed.

(** The status block sends the status request, unless the token has no
    string form. *)
Lemma exchanges_status_block activeToken st :
  exchanges net (status_block BASE_API_URL activeToken) st =
    match ToString activeToken with
    | Returns bearer => [mkExchange st (status_req bearer) (net (status_req bearer))]
    | Throws _ => []
    end.
Proof.
  unfold exchanges, status_block. rewrite exec_bind, exec_lift.
  destruct (ToString activeToken) as [bearer|e] eqn:Hb; [|done].
  rewrite exec_bind, exec_fetch. fold (status_req bearer).
  destruct (net (status_req bearer)) as [r|]; [|done].
  destruct (JS.status r =? 200)%N.
  - rewrite exec_bind, exec_lift.
    destruct (response_json r) as [data|]; [|done].
    rewrite exec_bind, exec_lift.
    destruct (get_property data "user_info") as [info|]; [|done].
    unfold saveAuthData, localStorage_setItem.
    rewrite !exec_bind, exec_lift, Hb, exec_modify. cbv beta iota.
    rewrite exec_bind, exec_lift.
    destruct (ToString (JSON_stringify_value info)); [|done].
    by rewrite exec_modify, exec_ret.
  - destruct (JS.status r =? 401)%N.
    + unfold handleTokenExpiration. by rewrite exec_bind, exec_modify, exec_ret.
    + by rewrite exec_throw.
Qed.

(** ** The whole call *)

Lemma exec_getAuthStatus_no_token st :
  stored_token st = None →
  exec net getAuthStatus st = (Returns logged_out_status, st, []).
Proof.
  intros H. unfold Auth.getAuthStatus. rewrite exec_bind, exec_get.
  unfold stored_token in H. by rewrite H, exec_ret.
Qed.

(** With a token in the store, the call is the refresh block and then the
    status block, on the store as the read step has left it. *)
Lemma exec_getAuthStatus st token :
  stored_token st = Some token →
  exec net getAuthStatus st =
    match exec net (refresh_block BASE_API_URL token (cached_user st)) (after_read st) with
    | (Returns (inl early), st', log) => (Returns early, st', log)
    | (Returns (inr activeToken), st', log) =>
        match exec net (status_block BASE_API_URL activeToken) st' with
        | (Returns a, st'', log') => (Returns a, st'', log ++ log')
        | (Throws e, st'', log') =>
            (Returns (fallback_status (cached_user st)), st'', log ++ log')
        end
    | (Throws e, st', log) => (Returns (fallback_status (cached_user st)), st', log)
    end.
Proof.
  intros H. unfold Auth.getAuthStatus. rewrite exec_bind, exec_get.
  unfold stored_token in H. rewrite H.
  rewrite exec_bind, exec_read_cached_user, exec_try_catch, exec_bind.
  unfold fallback_status, cached_fallback.
  destruct (exec net (refresh_block _ _ _) _) as [[[[early|activeToken]|e] st'] log];
    cbv beta iota.
  - rewrite exec_ret. by rewrite ?app_nil_l, ?app_nil_r.
  - destruct (exec net (status_block _ _) _) as [[[a|e] st''] log']; cbv beta iota.
    + by rewrite ?app_nil_l, ?app_nil_r.
    + destruct (truthy_value (cached_user st)); rewrite exec_ret;
        by rewrite ?app_nil_l, ?app_nil_r.
  - destruct (truthy_value (cached_user st)); rewrite exec_ret;
      by rewrite ?app_nil_l, ?app_nil_r.
Qed.

(** A run whose status request finds the service unavailable ends in the
    fallback, on the store as it was when that request went out, and
    nothing that the read step had left in the store is gone. *)
Lemma status_unavailable_run st ex :
  ex ∈ exchanges net getAuthStatus st →
  url (request ex) = getAuthEndpoint BASE_API_URL "/status" →
  unavailable (outcome ex) →
  result net getAuthStatus st = Returns (fallback_status (cached_user st)) ∧
  final net getAuthStatus st = at_state ex ∧
  (∀ key, is_Some (after_read st !! key) → is_Some (at_state ex !! key)) ∧
  (truthy_value (cached_user st) = false →
     getItem USER_INFO_KEY (at_state ex) = getItem USER_INFO_KEY (after_read st)).
Proof.
  unfold exchanges, result, final.
  destruct (stored_token st) as [token|] eqn:Htok.
  2: { rewrite exec_getAuthStatus_no_token by done. cbn. by intros ?%elem_of_nil. }
  rewrite (exec_getAuthStatus st token Htok).
  destruct (exec_refresh_block_shape token (cached_user st) (after_read st))
    as (flow & st' & -> & Hflow).
  destruct Hflow as [->|([activeToken ->] & Hdom & Huser)].
  { cbn. intros ->%list_elem_of_singleton Hurl. cbn in Hurl.
    by apply endpoints_differ in Hurl. }
  pose proof (exchanges_status_block activeToken st') as Hs.
  unfold exchanges in Hs.
  destruct (ToString activeToken) as [bearer|] eqn:Hb.
  - destruct (exec net (status_block _ _) _) as [[r st''] log'] eqn:Hexec.
    cbn in Hs. subst log'. intros Hin Hurl Hun.
    assert (ex = mkExchange st' (status_req bearer) (net (status_req bearer))) as ->.
    { assert (ex ∈ [mkExchange (after_read st) (refresh_req token) (net (refresh_req token));
                    mkExchange st' (status_req bearer) (net (status_req bearer))])
        as Hin' by (destruct r; exact Hin).
      apply elem_of_cons in Hin' as [->|Hin'%list_elem_of_singleton]; [|done].
      cbn in Hurl. by apply endpoints_differ in Hurl. }
    cbn in Hun.
    destruct (exec_status_block_unavailable activeToken bearer st' Hb Hun) as [e He].
    rewrite He in Hexec. simplify_eq. cbn. done.
  - destruct (exec net (status_block _ _) _) as [[r st''] log'] eqn:Hexec.
    cbn in Hs. subst log'.
    intros Hin Hurl. exfalso.
    assert (ex ∈ [mkExchange (after_read st) (refresh_req token) (net (refresh_req token))])
      as ->%list_elem_of_singleton by (destruct r; exact Hin).
    cbn in Hurl. by apply endpoints_differ in Hurl.
Qed.

Lemma cached_identity_Some st identity :
  cached_identity st = Some identity →
  cached_user st = Some identity ∧ truthy_value (cached_user st) = true ∧
  after_read st = st.
Proof.
  unfold cached_identity, after_read, cached_user.
  destruct (cached_record st) as [raw|]; [|done].
  destruct (JSON_parse raw) as [v|]; [|done]. cbn.
  destruct (truthy v) eqn:Hv; [|done].
  by intros [= <-].
Qed.

Lemma cached_identity_None st :
  cached_identity st = None → truthy_value (cached_user st) = false.
Proof.
  unfold cached_identity. destruct (truthy_value (cached_user st)) eqn:Hv; [|done].
  intros Hnone. rewrite Hnone in Hv. done.
Qed.

Lemma stored_token_removeItem st :
  stored_token (removeItem USER_INFO_KEY st) = stored_token st.
Proof.
  unfold stored_token, getAccessToken, getItem, removeItem.
  by rewrite lookup_delete_ne.
Qed.

Lemma cached_record_removeItem st :
  cached_record (removeItem USER_INFO_KEY st) = None.
Proof.
  unfold cached_record, getItem, removeItem. by rewrite lookup_delete_eq.
Qed.

(** ** The claims *)

(** C1.  Whenever [getAuthStatus] is called with a token in the store and
    the refresh request is answered with HTTP 401 (the [TOKEN_EXPIRED]
    signal of [refreshToken]), the call returns
    [{status: logged_out, is_logged_in: false, tokenExpired: true}], and
    the store then holds neither the session token nor the cached
    identity. *)
Theorem getAuthStatus_refresh_expired st token r :
  stored_token st = Some token →
  net (refresh_req token) = Responded r →
  JS.status r = 401%N →
  result net getAuthStatus st = Returns expired_status ∧
  getAccessToken (final net getAuthStatus st) = None ∧
  getItem USER_INFO_KEY (final net getAuthStatus st) = None.
Proof.
  intros Htok Hnet Hst. unfold result, final.
  rewrite (exec_getAuthStatus st token Htok).
  rewrite exec_refresh_block_throws with (e := Error "TOKEN_EXPIRED")
    by (rewrite Hnet; by apply expired_refresh).
  cbn. split; [done|]. split; [apply clear_token|apply clear_user].
Qed.

(** C6.  Whenever the refresh request of a [getAuthStatus] call fails with
    a signal other than [TOKEN_EXPIRED] (no response, or a status other
    than 200 and 401), the call goes on to the status request, which
    carries the original token; the store is the same when that request
    goes out as when the refresh request went out, and it still holds the
    token: the failed refresh has cleared nothing. *)
Theorem getAuthStatus_refresh_unavailable st token :
  stored_token st = Some token →
  unavailable (net (refresh_req token)) →
  exchanges net getAuthStatus st =
    [mkExchange (after_read st) (refresh_req token) (net (refresh_req token));
     mkExchange (after_read st) (status_req token) (net (status_req token))] ∧
  getAccessToken (after_read st) = Some token.
Proof.
  intros Htok Hun. split.
  - unfold exchanges. rewrite (exec_getAuthStatus st token Htok).
    destruct (unavailable_refresh _ Hun) as (e & He & Hne).
    rewrite exec_refresh_block_throws with (e := e) by done. rewrite Hne.
    pose proof (exchanges_status_block (Some (JStr token)) (after_read st)) as Hs.
    unfold exchanges in Hs.
    destruct (exec net (status_block _ _) _) as [[[a|e'] st''] log']; cbn in Hs |- *;
      by rewrite Hs.
  - apply stored_token_get in Htok. unfold after_read.
    destruct (cached_record st) as [raw|]; [|done].
    destruct (JSON_parse raw); [done|].
    unfold getAccessToken, getItem, removeItem in *. by rewrite lookup_delete_ne.
Qed.

(** C3.  Whenever the status request of a [getAuthStatus] call yields
    neither 200 nor 401 (another status, or no response): if a cached
    identity exists, the call returns [{status: logged_in, is_logged_in:
    true}] with that identity, the store is left as it was when the
    request went out, and no item of the store the call started with is
    gone; if none exists, the call returns [{status: logged_out,
    is_logged_in: false}] with [tokenExpired] unset. *)
Theorem getAuthStatus_status_unavailable st ex :
  ex ∈ exchanges net getAuthStatus st →
  url (request ex) = getAuthEndpoint BASE_API_URL "/status" →
  unavailable (outcome ex) →
  match cached_identity st with
  | Some identity =>
      result net getAuthStatus st = Returns (logged_in_status (Some identity)) ∧
      final net getAuthStatus st = at_state ex ∧
      ∀ key, is_Some (st !! key) → is_Some (final net getAuthStatus st !! key)
  | None =>
      result net getAuthStatus st = Returns logged_out_status
  end.
Proof.
  intros Hin Hurl Hun.
  destruct (status_unavailable_run st ex Hin Hurl Hun) as (Hres & Hfin & Hdom & _).
  rewrite Hres, Hfin. unfold fallback_status.
  destruct (cached_identity st) as [identity|] eqn:Hid.
  - apply cached_identity_Some in Hid as (Hcu & Htr & Hread).
    rewrite Htr, Hcu. rewrite Hread in Hdom. done.
  - apply cached_identity_None in Hid. by rewrite Hid.
Qed.

(** C10.  When [getAuthStatus] finds a cached identity record that does
    not parse, it removes the record and goes on exactly as if there had
    been none: the run is the run on the store without the record, the
    record is gone before the first request is sent, and a status request
    that then finds the service unavailable yields [logged_out], with the
    cache key deleted. *)
Theorem getAuthStatus_corrupt_cache st token raw :
  stored_token st = Some token →
  cached_record st = Some raw →
  JSON_parse raw = None →
  exec net getAuthStatus st = exec net getAuthStatus (removeItem USER_INFO_KEY st) ∧
  (∃ rest, exchanges net getAuthStatus st =
     mkExchange (removeItem USER_INFO_KEY st) (refresh_req token) (net (refresh_req token))
       :: rest) ∧
  (∀ ex, ex ∈ exchanges net getAuthStatus st →
     url (request ex) = getAuthEndpoint BASE_API_URL "/status" →
     unavailable (outcome ex) →
     result net getAuthStatus st = Returns logged_out_status ∧
     getItem USER_INFO_KEY (final net getAuthStatus st) = None).
Proof.
  intros Htok Hrec Hparse.
  assert (cached_user st = None) as Hcu by (unfold cached_user; by rewrite Hrec).
  assert (after_read st = removeItem USER_INFO_KEY st) as Hread
    by (unfold after_read; by rewrite Hrec, Hparse).
  split; [|split].
  - rewrite (exec_getAuthStatus st token Htok).
    rewrite (exec_getAuthStatus (removeItem USER_INFO_KEY st) token)
      by (by rewrite stored_token_removeItem).
    assert (cached_user (removeItem USER_INFO_KEY st) = None) as ->
      by (unfold cached_user; by rewrite cached_record_removeItem).
    assert (after_read (removeItem USER_INFO_KEY st) = removeItem USER_INFO_KEY st) as ->
      by (unfold after_read; by rewrite cached_record_removeItem).
    by rewrite Hcu, Hread.
  - unfold exchanges. rewrite (exec_getAuthStatus st token Htok), Hread.
    destruct (exec_refresh_block_shape token (cached_user st)
                (removeItem USER_INFO_KEY st)) as (flow & st' & -> & _).
    destruct flow as [early|activeToken]; [by eexists|].
    destruct (exec net (status_block _ _) _) as [[[a|e] st''] log']; by eexists.
  - intros ex Hin Hurl Hun.
    destruct (status_unavailable_run st ex Hin Hurl Hun) as (Hres & Hfin & _ & Huser).
    rewrite Hres, Hfin, Hcu. split; [done|].
    rewrite Huser by (by rewrite Hcu). rewrite Hread.
    unfold getItem, removeItem. apply lookup_delete_eq.
Qed.
End SessionManager.

(** Refresh answered with 401 on the example store. *)
Lemma getAuthStatus_refresh_expired_witness :
  result (answers expired_response Rejected)
    (getAuthStatus example_api) example_store = Returns expired_status ∧
  getAccessToken
    (final (answers expired_response Rejected)
       (getAuthStatus example_api) example_store) = None ∧
  getItem USER_INFO_KEY
    (final (answers expired_response Rejected)
       (getAuthStatus example_api) example_store) = None.
Proof.
  apply (getAuthStatus_refresh_expired example_api
           (answers expired_response Rejected)
           example_store "t0" {| JS.status := 401; text := EmptyString |});
    reflexivity.
Defined.

(** Refresh answered with 503: the status request carries the stored token. *)
Lemma getAuthStatus_refresh_unavailable_witness :
  exchanges (answers server_error Rejected) (getAuthStatus example_api) example_store =
    [mkExchange example_store (refresh_request example_api "t0") server_error;
     mkExchange example_store (status_request example_api "t0") Rejected] ∧
  getAccessToken example_store = Some "t0".
Proof.
  apply (getAuthStatus_refresh_unavailable example_api (answers server_error Rejected)
           example_store "t0").
  - reflexivity.
  - vm_compute. split; discriminate.
Defined.

(** The token is refreshed, then the status request finds the service
    down: the cached identity answers, and the store keeps both items. *)
Lemma getAuthStatus_status_unavailable_witness :
  result (answers (token_response "t1")
            server_error)
    (getAuthStatus example_api) example_store
  = Returns (logged_in_status (Some (UserInfo_json example_user))) ∧
  final (answers (token_response "t1")
           server_error)
    (getAuthStatus example_api) example_store
  = setItem ACCESS_TOKEN_KEY "t1" example_store ∧
  ∀ key, is_Some (example_store !! key) →
    is_Some (final (answers (token_response "t1")
                      server_error)
               (getAuthStatus example_api) example_store !! key).
Proof.
  apply (getAuthStatus_status_unavailable example_api
           (answers (token_response "t1")
              server_error)
           example_store
           (mkExchange (setItem ACCESS_TOKEN_KEY "t1" example_store)
              (status_request example_api "t1") server_error)).
  - vm_compute. apply list_elem_of_further, list_elem_of_here.
  - reflexivity.
  - vm_compute. split; discriminate.
Defined.

(** A record that does not parse, a refreshed token, and the service down. *)
Lemma getAuthStatus_corrupt_cache_witness :
  exec (answers (token_response "t1") server_error) (getAuthStatus example_api) corrupt_store
  = exec (answers (token_response "t1") server_error) (getAuthStatus example_api)
      (removeItem USER_INFO_KEY corrupt_store) ∧
  (∃ rest,
     exchanges (answers (token_response "t1") server_error) (getAuthStatus example_api)
       corrupt_store =
     mkExchange (removeItem USER_INFO_KEY corrupt_store)
       (refresh_request example_api "t0")
       (answers (token_response "t1") server_error (refresh_request example_api "t0"))
     :: rest) ∧
  (∀ ex,
     ex ∈ exchanges (answers (token_response "t1") server_error) (getAuthStatus example_api)
            corrupt_store →
     url (request ex) = getAuthEndpoint example_api "/status" →
     unavailable (outcome ex) →
     result (answers (token_response "t1") server_error) (getAuthStatus example_api)
       corrupt_store = Returns logged_out_status ∧
     getItem USER_INFO_KEY
       (final (answers (token_response "t1") server_error) (getAuthStatus example_api)
          corrupt_store) = None).
Proof.
  apply (getAuthStatus_corrupt_cache example_api
           (answers (token_response "t1") server_error) corrupt_store "t0" "{");
    reflexivity.
Defined.

Section Profile.
Context (BASE_API_URL : string) (i18n_t : string → string).
Context (net : Request → FetchOutcome).

(** C4.  Every [logout] call resolves with the success result and leaves
    the store without session token and without cached identity, whatever
    the network does with the request to the logout endpoint: a rejected
    [fetch] is caught and not passed on. *)
Theorem logout_clears_store st :
  result net (logout BASE_API_URL i18n_t) st = Returns (logout_succeeded i18n_t) ∧
  getAccessToken (final net (logout BASE_API_URL i18n_t) st) = None ∧
  getItem USER_INFO_KEY (final net (logout BASE_API_URL i18n_t) st) = None.
Proof.
  unfold result, final, logout. rewrite exec_bind, exec_get, exec_bind.
  assert (∃ log, exec net
    match truthy_item (getAccessToken st) with
    | Some token =>
        try_catch ((fetch {| url := getAuthEndpoint BASE_API_URL "/logout";
                            method := "POST";
                            headers := [("Authorization", "Bearer " +:+ token)];
                            body := None |} ;; ret tt)%async) (λ _ : exn, ret tt)
    | None => ret tt
    end st = (Returns tt, st, log)) as [log ->].
  { destruct (truthy_item (getAccessToken st)) as [token|]; [|by eexists].
    rewrite exec_try_catch, exec_bind, exec_fetch.
    destruct (net _); cbv beta iota; rewrite exec_ret; by eexists. }
  cbv beta iota. rewrite exec_bind, exec_modify. cbv beta iota. rewrite exec_ret.
  cbn. split; [done|]. split; [apply clear_token|apply clear_user].
Qed.

(** C9.  For every token string [t] and user record [u],
    [saveAuthData(t, u)] followed by a read of both keys gives back
    exactly [t] and [u]: [getAccessToken] returns [t], and
    [getUserProfile] returns what [u] is at run time, which read as a
    [UserInfo] is [u] again. *)
Theorem saveAuthData_roundtrip (t : string) (u : UserInfo) (st : Storage) :
  ∃ st',
    saveAuthData (Some (JStr t)) (Some (UserInfo_json u)) st = Finished (Returns tt) st' ∧
    getAccessToken st' = Some t ∧
    getUserProfile i18n_t st' = Finished (Returns (UserInfo_json u)) st' ∧
    UserInfo_of_json (UserInfo_json u) = Some u.
Proof.
  eexists. split; [reflexivity|]. split; [|split].
  - unfold getAccessToken, getItem, setItem.
    rewrite lookup_insert_ne by done. apply lookup_insert_eq.
  - unfold getUserProfile, bind, get. cbn [bind_step].
    unfold getItem at 1, setItem at 1. rewrite lookup_insert_eq.
    unfold truthy_item. rewrite JSON_stringify_UserInfo_truthy.
    by rewrite JSON_roundtrip_UserInfo.
  - apply UserInfo_of_json_json.
Qed.
End Profile.

(** * OAuth callback *)

Section Callback.
Context (URL_new : string → option URL) (net : Request → FetchOutcome).

#[local] Abbreviation handleOAuthCallback := (InstagramConnectDialog.handleOAuthCallback URL_new).

Lemma set_localStorage_id page : set_localStorage (localStorage page) page = page.
Proof. by destruct page. Qed.

(** ** The requests *)

Lemma exec_authenticatedFetch url options page :
  exec net (with_storage (authenticatedFetch url options)) page =
    let req :=
      {| url := url; method := init_method options;
         headers :=
           (let hs := fold_left (fun hs h => set_header (fst h) (snd h) hs)
                        (init_headers options) [("Content-Type", "application/json")] in
            match stored_token (localStorage page) with
            | Some token => set_header "Authorization" ("Bearer " +:+ token) hs
            | None => hs
            end);
         body := init_body options |} in
    (match net req with
     | Responded r => Returns r
     | Rejected => Throws FetchFailed
     end, page, [mkExchange page req (net req)]).
Proof.
  unfold with_storage, zoom, authenticatedFetch, exec, bind, get, fetch, stored_token. cbn.
  rewrite !set_localStorage_id.
  destruct (truthy_item (getAccessToken (localStorage page))); cbn;
  match goal with |- context [net ?r] => destruct (net r) end;
    cbn; by rewrite ?set_localStorage_id.
Qed.

Lemma authenticated_headers (st : Storage) (extra : list (string * string)) :
  extra = [] ∨ extra = [("Content-Type", "application/json")] →
  (let hs := fold_left (fun hs h => set_header (fst h) (snd h) hs) extra
               [("Content-Type", "application/json")] in
   match stored_token st with
   | Some token => set_header "Authorization" ("Bearer " +:+ token) hs
   | None => hs
   end) =
  ("Content-Type", "application/json") :: authorization st.
Proof. unfold authorization. intros [-> | ->]; by destruct (stored_token st). Qed.

Lemma exec_api_response {S} default (r : Response) (s : S) log :
  (let '(c, s', log') :=
     exec net
       (if negb (ok r)
        then (error <- lift (response_json r) ;;
              detail <- lift (get_property error "detail") ;;
              message <- lift (error_message detail default) ;;
              throw (Error message))%async
        else lift (response_json r)) s in
   (c, s', log ++ log')) =
  (api_completion default (Responded r), s, log).
Proof.
  unfold api_completion. destruct (negb (ok r)); cbv iota.
  - rewrite exec_bind, exec_lift. destruct (response_json r) as [error|]; cbv beta iota;
      [|by rewrite app_nil_r].
    rewrite exec_bind, exec_lift. destruct (get_property error "detail") as [detail|];
      cbv beta iota; [|by rewrite app_nil_r].
    rewrite exec_bind, exec_lift. destruct (error_message detail default); cbv beta iota;
      by rewrite ?exec_throw, ?app_nil_r.
  - rewrite exec_lift. by rewrite app_nil_r.
Qed.

Lemma exec_connectInstagram token userId username page :
  exec net (connectInstagram token userId username) page =
    let req := connect_request (localStorage page) token userId username in
    (api_completion "Failed to connect Instagram account" (net req), page,
     [mkExchange page req (net req)]).
Proof.
  unfold connectInstagram. rewrite exec_bind, exec_authenticatedFetch.
  cbn [init_method init_headers init_body].
  rewrite authenticated_headers by (by right).
  fold (connect_request (localStorage page) token userId username). cbv zeta.
  destruct (net (connect_request (localStorage page) token userId username)) as [r|];
    [|done].
  apply exec_api_response.
Qed.

Lemma exec_getInstagramStatus page :
  exec net getInstagramStatus page =
    let req := instagram_status_request (localStorage page) in
    (api_completion "Failed to get Instagram status" (net req), page,
     [mkExchange page req (net req)]).
Proof.
  unfold getInstagramStatus. rewrite exec_bind, exec_authenticatedFetch.
  cbn [init_method init_headers init_body].
  rewrite authenticated_headers by (by left).
  fold (instagram_status_request (localStorage page)). cbv zeta.
  destruct (net (instagram_status_request (localStorage page))) as [r|]; [|done].
  apply exec_api_response.
Qed.

Lemma exchange_fails_throws default o :
  exchange_fails o → ∃ e, api_completion default o = Throws e.
Proof.
  destruct o as [r|]; cbn; [|by eexists]. intros ->. cbn.
  destruct (response_json r) as [error|]; [|by eexists].
  destruct (get_property error "detail") as [detail|]; [|by eexists].
  destruct (error_message detail default); by eexists.
Qed.

Lemma exchange_succeeds_returns default o :
  exchange_succeeds o → ∃ data, api_completion default o = Returns data.
Proof.
  destruct o as [r|]; cbn; [|done]. intros [-> [data Hdata]]. cbn.
  unfold response_json. rewrite Hdata. by eexists.
Qed.

(** ** The blocks of the callback *)

(** [loadStatus] never throws; it touches only [status] and [loading]. *)
Lemma exec_loadStatus page :
  exec net loadStatus page =
    let req := instagram_status_request (localStorage page) in
    (Returns tt, loaded (net req) page,
     [mkExchange (setLoading true page) req (net req)]).
Proof.
  unfold loadStatus, loaded.
  rewrite exec_try_finally, exec_try_catch, exec_bind, exec_modify. cbv beta iota.
  rewrite exec_bind, exec_getInstagramStatus.
  cbn [localStorage setLoading]. cbv zeta.
  destruct (api_completion _ _) as [statusData|e]; cbv beta iota; by rewrite exec_modify.
Qed.

Lemma exec_restore_location page :
  exec net (restore_location URL_new) page = (restored URL_new page, []).
Proof.
  unfold restore_location, restored, return_location, consume_return_location.
  rewrite exec_bind, exec_get. cbv beta iota. rewrite exec_bind.
  destruct (truthy_item _) as [returnUrl|].
  - rewrite exec_bind, exec_modify. cbv beta iota.
    destruct (URL_new returnUrl) as [u|]; [|by rewrite exec_throw].
    destruct (String.eqb _ _); cbn [negb].
    + rewrite exec_ret. cbv beta iota. by rewrite exec_modify.
    + rewrite exec_bind, exec_modify. cbv beta iota. rewrite exec_ret.
      cbv beta iota. by rewrite exec_ret.
  - rewrite exec_ret. cbv beta iota. by rewrite exec_modify.
Qed.

(** On a ready page with the guard unset the callback sends the exchange
    request, then, if the exchange has succeeded, the status request. *)
Lemma exec_handleOAuthCallback props page token userId username :
  callback_ready props page token userId username →
  processedRef page = false →
  exec net (handleOAuthCallback props) page =
    let req := connect_request (localStorage page) token userId username in
    (Returns tt, processed URL_new net token userId username page,
     mkExchange (claimed page) req (net req) ::
     match api_completion "Failed to connect Instagram account" (net req) with
     | Returns _ =>
         [mkExchange
            (setLoading true
               (toast (toast_success "Instagram account connected successfully!")
                  (claimed page)))
            (instagram_status_request (localStorage page))
            (net (instagram_status_request (localStorage page)))]
     | Throws _ => []
     end).
Proof.
  intros [Hset Hlog Hmark Htok Hid Hname] Hguard.
  unfold InstagramConnectDialog.handleOAuthCallback, processed.
  rewrite Hset, Hlog. cbn [negb].
  rewrite exec_bind, exec_get. cbv beta iota. rewrite Hmark, Htok, Hid, Hname, Hguard.
  rewrite bool_decide_eq_true_2 by done.
  rewrite exec_bind, exec_modify. cbv beta iota. rewrite exec_bind, exec_modify.
  cbv beta iota. fold (claimed page).
  rewrite exec_try_finally, exec_try_catch, exec_bind, exec_connectInstagram.
  change (localStorage (claimed page)) with (localStorage page). cbv zeta.
  destruct (api_completion _ _) as [data|error]; cbv beta iota.
  - rewrite exec_bind, exec_modify. cbv beta iota. rewrite exec_bind, exec_loadStatus.
    cbv beta iota zeta. rewrite exec_restore_location.
    change (localStorage (toast _ (claimed page))) with (localStorage page).
    destruct (restored _ _) as [[[]|error] page']; cbv beta iota zeta.
    + done.
    + rewrite exec_bind, exec_modify. cbv beta iota zeta. rewrite exec_modify. done.
  - rewrite exec_bind, exec_modify. cbv beta iota zeta.
    rewrite exec_modify. done.
Qed.

(** Up to its first [await] the callback sets the guard and sends the
    exchange request. *)
Lemma handleOAuthCallback_suspends props page token userId username :
  callback_ready props page token userId username →
  processedRef page = false →
  ∃ k, handleOAuthCallback props page =
         Awaiting (claimed page)
           (connect_request (localStorage page) token userId username) k.
Proof.
  intros [Hset Hlog Hmark Htok Hid Hname] Hguard.
  unfold InstagramConnectDialog.handleOAuthCallback. rewrite Hset, Hlog. cbn [negb].
  unfold bind at 1. unfold get at 1. cbn [bind_step].
  rewrite Hmark, Htok, Hid, Hname, Hguard.
  rewrite bool_decide_eq_true_2 by done.
  unfold connectInstagram, with_storage, zoom, authenticatedFetch.
  cbn -[JSON_stringify stored_token].
  replace (set_localStorage (localStorage page)
             (setConnecting true (set_processedRef true page)))
    with (claimed page) by (by destruct page).
  unfold connect_request, authorization, stored_token.
  destruct (truthy_item (getAccessToken (localStorage page))); by eexists.
Qed.

(** With the guard set the callback returns at once. *)
Lemma handleOAuthCallback_guarded props page :
  params_get "instagram_auth" (search (location page)) = Some "success" →
  processedRef page = true →
  handleOAuthCallback props page = Finished (Returns tt) page.
Proof.
  intros Hmark Hguard. unfold InstagramConnectDialog.handleOAuthCallback.
  destruct (isAuthLoading props); [done|].
  destruct (is_logged_in (authStatus props)); [|done]. cbn [negb].
  unfold bind, get. cbn [bind_step]. rewrite Hmark, Hguard.
  by rewrite bool_decide_eq_true_2.
Qed.

(** ** The claims *)

(** C2.  Within one page load, on a success redirect that carries the
    three exchange parameters, two invocations of the callback logic in
    immediate succession send exactly one exchange request: the first
    sets the guard before it suspends on the exchange, so the second,
    which starts in that state, returns at once. *)
Theorem callback_exchanges_once props page token userId username :
  callback_ready props page token userId username →
  processedRef page = false →
  let first := handleOAuthCallback props page in
  let second := handleOAuthCallback props (state_of first) in
  processedRef (state_of first) = true ∧
  second = Finished (Returns tt) (state_of first) ∧
  filter is_connect (snd (in_succession net (handleOAuthCallback props) page)) =
    [connect_request (localStorage page) token userId username].
Proof.
  intros Hready Hguard first second.
  destruct (handleOAuthCallback_suspends _ _ _ _ _ Hready Hguard) as [k Hfirst].
  assert (handleOAuthCallback props (claimed page)
          = Finished (Returns tt) (claimed page)) as Hsecond.
  { apply handleOAuthCallback_guarded; [|done]. by destruct Hready. }
  assert (state_of first = claimed page) as Hstate by (subst first; by rewrite Hfirst).
  subst second. rewrite Hstate. split; [done|]. split; [done|].
  unfold in_succession. fold first. rewrite Hstate, Hsecond. cbn [state_of].
  replace (reset first (claimed page)) with first
    by (subst first; by rewrite Hfirst).
  change (run net first) with (exec net (handleOAuthCallback props) page).
  rewrite (exec_handleOAuthCallback _ _ _ _ _ Hready Hguard). cbv zeta.
  cbn [run reset]. rewrite app_nil_r. cbn [map request snd].
  destruct (api_completion _ _); reflexivity.
Qed.


(** C7.  While the session is still loading, or has settled as not logged
    in, the callback logic returns without touching the page (the guard
    stays unset) and without sending anything.  Once the session has
    settled as logged in, the dependencies of the effect have changed, so
    the effect of the open dialog runs again, and its callback, on the
    page the deferred call has left, sends the exchange request. *)
Theorem callback_deferred_until_logged_in props page :
  isAuthLoading props = true ∨ is_logged_in (authStatus props) = false →
  handleOAuthCallback props page = Finished (Returns tt) page ∧
  ∀ later token userId username,
    open later = true →
    callback_ready later page token userId username →
    processedRef page = false →
    commit URL_new (Some props) later page = effect URL_new later page ∧
    head (snd (effect URL_new later page)) = Some (handleOAuthCallback later page) ∧
    awaited (handleOAuthCallback later page) =
      Some (connect_request (localStorage page) token userId username).
Proof.
  intros Hdeferred. split.
  - unfold InstagramConnectDialog.handleOAuthCallback.
    destruct Hdeferred as [-> | Hout]; [done|].
    rewrite Hout. by destruct (isAuthLoading props).
  - intros later token userId username Hopen Hready Hguard.
    split; [|split].
    + unfold commit. destruct (decide (deps props = deps later)) as [Heq|]; [|done].
      exfalso. unfold deps in Heq. destruct Hready as [Hset Hlog _ _ _ _].
      injection Heq as _ Hloading Hauth.
      destruct Hdeferred as [Hl | Hout]; [congruence|].
      rewrite Hauth in Hout. congruence.
    + unfold effect. rewrite Hopen.
      destruct Hready as [-> -> _ _ _ _]. done.
    + destruct (handleOAuthCallback_suspends _ _ _ _ _ Hready Hguard) as [k ->]. done.
Qed.

End Callback.


(** Two invocations on the example page, both answered with success. *)
Lemma callback_exchanges_once_witness :
  let net := instagram_answers connected_response connected_response in
  let first := handleOAuthCallback example_URL_new example_props example_page in
  let second := handleOAuthCallback example_URL_new example_props (state_of first) in
  processedRef (state_of first) = true ∧
  second = Finished (Returns tt) (state_of first) ∧
  filter is_connect
    (snd (in_succession net (handleOAuthCallback example_URL_new example_props)
            example_page)) =
    [connect_request (localStorage example_page) "ig-token" "1789" "ann.draws"].
Proof.
  apply (callback_exchanges_once example_URL_new
           (instagram_answers connected_response connected_response)
           example_props example_page "ig-token" "1789" "ann.draws").
  - constructor; reflexivity.
  - reflexivity.
Defined.


(** The session still loading, then settled as logged in. *)
Lemma callback_deferred_until_logged_in_witness :
  handleOAuthCallback example_URL_new loading_props example_page
  = Finished (Returns tt) example_page ∧
  commit example_URL_new (Some loading_props) example_props example_page
  = effect example_URL_new example_props example_page ∧
  head (snd (effect example_URL_new example_props example_page))
  = Some (handleOAuthCallback example_URL_new example_props example_page) ∧
  awaited (handleOAuthCallback example_URL_new example_props example_page)
  = Some (connect_request (localStorage example_page) "ig-token" "1789" "ann.draws").
Proof.
  destruct (callback_deferred_until_logged_in example_URL_new loading_props example_page)
    as [Hdeferred Hlater].
  - left. reflexivity.
  - split; [exact Hdeferred|].
    apply (Hlater example_props "ig-token" "1789" "ann.draws").
    + reflexivity.
    + constructor; reflexivity.
    + reflexivity.
Defined.


(** * More of the session manager

    [getAuthStatus] on every path: the store before and after, and what is
    sent. *)

Section SessionRuns.
Context (BASE_API_URL : string) (net : Request → FetchOutcome).

#[local] Abbreviation getAuthStatus := (Auth.getAuthStatus BASE_API_URL).
#[local] Abbreviation refresh_req := (refresh_request BASE_API_URL).
#[local] Abbreviation status_req := (status_request BASE_API_URL).
#[local] Abbreviation refresh_flow := (after_refresh BASE_API_URL net).

Lemma exec_saveAuthData token info text (st : Storage) :
  ToString token = Returns text →
  exec net (saveAuthData token info) st =
    (Returns tt,
     setItem USER_INFO_KEY (record_text info) (setItem ACCESS_TOKEN_KEY text st), []).
Proof.
  intros Ht. unfold saveAuthData, localStorage_setItem.
  rewrite !exec_bind, exec_lift, Ht, exec_modify. cbv beta iota.
  rewrite exec_bind, exec_lift.
  by destruct info.
Qed.

Lemma exec_saveAuthData_throws token info e (st : Storage) :
  ToString token = Throws e →
  exec net (saveAuthData token info) st = (Throws e, st, []).
Proof.
  intros Ht. unfold saveAuthData, localStorage_setItem.
  by rewrite !exec_bind, exec_lift, Ht.
Qed.

Lemma ToString_not_expired v e : ToString v = Throws e → is_token_expired e = false.
Proof.
  unfold ToString. destruct v as [j|]; [|done].
  destruct (ToString_json j); naive_solver.
Qed.

Lemma exec_refresh_block_refreshed token cachedUser st refreshedToken :
  refreshToken_completion (net (refresh_req token)) = Returns refreshedToken →
  exec net (refresh_block BASE_API_URL token cachedUser) st =
    (Returns (inr refreshedToken), refreshed_store refreshedToken cachedUser st,
     [mkExchange st (refresh_req token) (net (refresh_req token))]).
Proof.
  intros He. unfold refresh_block, refreshed_store.
  rewrite exec_bind, exec_attempt, (exec_refreshToken BASE_API_URL net), He. cbv beta iota.
  rewrite exec_bind, exec_attempt.
  destruct (ToString refreshedToken) as [text|e] eqn:Htext.
  - destruct (truthy_value cachedUser) eqn:Hcu.
    + rewrite (exec_saveAuthData _ _ text) by done. cbv beta iota. by rewrite exec_ret.
    + unfold localStorage_setItem.
      rewrite exec_bind, exec_lift, Htext, exec_modify. cbv beta iota.
      by rewrite exec_ret.
  - pose proof (ToString_not_expired _ _ Htext) as Hne.
    destruct (truthy_value cachedUser).
    + rewrite (exec_saveAuthData_throws _ _ e) by done. cbv beta iota.
      unfold refresh_failed. by rewrite Hne, exec_ret.
    + unfold localStorage_setItem. rewrite exec_bind, exec_lift, Htext. cbv beta iota.
      unfold refresh_failed. by rewrite Hne, exec_ret.
Qed.

Lemma exec_status_block activeToken bearer st :
  ToString activeToken = Returns bearer →
  exec net (status_block BASE_API_URL activeToken) st =
    (status_answer bearer (net (status_req bearer)) st,
     [mkExchange st (status_req bearer) (net (status_req bearer))]).
Proof.
  intros Hb. unfold status_block, status_answer.
  rewrite exec_bind, exec_lift, Hb, exec_bind, exec_fetch.
  fold (status_req bearer).
  destruct (net (status_req bearer)) as [r|]; [|done].
  destruct (JS.status r =? 200)%N.
  - rewrite exec_bind, exec_lift.
    destruct (response_json r) as [data|]; [|done].
    rewrite exec_bind, exec_lift.
    destruct (get_property data "user_info") as [info|]; [|done].
    rewrite exec_bind, (exec_saveAuthData _ _ bearer) by done.
    by rewrite exec_ret.
  - destruct (JS.status r =? 401)%N.
    + unfold handleTokenExpiration. by rewrite exec_bind, exec_modify, exec_ret.
    + by rewrite exec_throw.
Qed.

Lemma exec_status_block_no_text activeToken e st :
  ToString activeToken = Throws e →
  exec net (status_block BASE_API_URL activeToken) st = (Throws e, st, []).
Proof.
  intros Hb. unfold status_block. by rewrite exec_bind, exec_lift, Hb.
Qed.

(** The whole run with a token in the store, by the outcome of the
    refresh and the answer to the status request. *)
Lemma exec_getAuthStatus_run st token :
  stored_token st = Some token →
  exec net getAuthStatus st =
    let refresh_ex :=
      mkExchange (after_read st) (refresh_req token) (net (refresh_req token)) in
    match refresh_flow token st with
    | (inl early, st1) => (Returns early, st1, [refresh_ex])
    | (inr activeToken, st1) =>
        match ToString activeToken with
        | Returns bearer =>
            let o := net (status_req bearer) in
            (match status_answer bearer o st1 with
             | (Returns a, st2) => (Returns a, st2)
             | (Throws _, st2) => (Returns (fallback_status (cached_user st)), st2)
             end,
             [refresh_ex; mkExchange st1 (status_req bearer) o])
        | Throws _ => (Returns (fallback_status (cached_user st)), st1, [refresh_ex])
        end
    end.
Proof.
  intros Htok. rewrite (exec_getAuthStatus BASE_API_URL net st token Htok).
  unfold after_refresh.
  destruct (refreshToken_completion (net (refresh_req token))) as [v|e] eqn:He.
  - rewrite (exec_refresh_block_refreshed _ _ _ _ He). cbv beta iota zeta.
    destruct (ToString v) as [bearer|e] eqn:Hb.
    + rewrite (exec_status_block _ _ _ Hb).
      by destruct (status_answer _ _ _) as [[a|e] st2].
    + by rewrite (exec_status_block_no_text _ _ _ Hb).
  - rewrite (exec_refresh_block_throws BASE_API_URL net _ _ _ _ He).
    destruct (is_token_expired e); [done|]. cbv beta iota zeta.
    change (ToString (Some (JStr token))) with (Returns (A:=string) token). cbv beta iota.
    rewrite (exec_status_block _ token) by done.
    by destruct (status_answer _ _ _) as [[a|e'] st2].
Qed.

(** The exchange with the status endpoint, when there is one. *)
Lemma status_exchange st ex :
  ex ∈ exchanges net getAuthStatus st →
  url (request ex) = getAuthEndpoint BASE_API_URL "/status" →
  ∃ token activeToken bearer st1,
    stored_token st = Some token ∧
    refresh_flow token st = (inr activeToken, st1) ∧
    ToString activeToken = Returns bearer ∧
    ex = mkExchange st1 (status_req bearer) (net (status_req bearer)) ∧
    (result net getAuthStatus st, final net getAuthStatus st) =
      match status_answer bearer (net (status_req bearer)) st1 with
      | (Returns a, st2) => (Returns a, st2)
      | (Throws _, st2) => (Returns (fallback_status (cached_user st)), st2)
      end.
Proof.
  unfold exchanges, result, final.
  destruct (stored_token st) as [token|] eqn:Htok.
  2: { rewrite (exec_getAuthStatus_no_token BASE_API_URL net) by done.
       cbn. by intros ?%elem_of_nil. }
  rewrite (exec_getAuthStatus_run st token Htok). cbv zeta.
  destruct (refresh_flow token st) as [[early|activeToken] st1] eqn:Hflow.
  { cbn. intros ->%list_elem_of_singleton Hurl. cbn in Hurl.
    by apply endpoints_differ in Hurl. }
  destruct (ToString activeToken) as [bearer|e] eqn:Hb.
  2: { cbn. intros ->%list_elem_of_singleton Hurl. cbn in Hurl.
       by apply endpoints_differ in Hurl. }
  cbn [snd fst]. intros Hin Hurl.
  apply elem_of_cons in Hin as [->|Hin%list_elem_of_singleton].
  { cbn in Hurl. by apply endpoints_differ in Hurl. }
  exists token, activeToken, bearer, st1. repeat split; try done.
  by destruct (status_answer _ _ _) as [[a|e] st2].
Qed.

(** The call never rejects, and there are three shapes of answer. *)
Lemma result_getAuthStatus st :
  ∃ a, result net getAuthStatus st = Returns a ∧
       (a = logged_out_status ∨ a = expired_status ∨ ∃ info, a = logged_in_status info).
Proof.
  unfold result.
  destruct (stored_token st) as [token|] eqn:Htok.
  2: { rewrite (exec_getAuthStatus_no_token BASE_API_URL net) by done. cbn. eauto. }
  rewrite (exec_getAuthStatus_run st token Htok). cbv zeta.
  assert (∃ a, fallback_status (cached_user st) = a ∧
            (a = logged_out_status ∨ a = expired_status ∨ ∃ info, a = logged_in_status info))
    as (fallback & -> & Hshape).
  { unfold fallback_status. destruct (truthy_value (cached_user st)); eauto 6. }
  destruct (refresh_flow token st) as [[early|activeToken] st1] eqn:Hflow.
  { unfold after_refresh in Hflow.
    destruct (refreshToken_completion _) as [v|e]; [done|].
    destruct (is_token_expired e); [|done]. injection Hflow as <- _. cbn. eauto. }
  destruct (ToString activeToken) as [bearer|e] eqn:Hb; [|cbn; eauto].
  cbn [fst snd]. unfold status_answer.
  destruct (net (status_req bearer)) as [r|]; [|cbn; eauto].
  destruct (JS.status r =? 200)%N.
  - destruct (response_json r) as [data|]; [|cbn; eauto].
    destruct (get_property data "user_info") as [info|]; cbn; eauto 6.
  - destruct (JS.status r =? 401)%N; cbn; eauto.
Qed.

(** The run when nothing answers as it should: the cached identity stands
    in, and the store stays. *)
Lemma exec_getAuthStatus_unavailable st token identity :
  stored_token st = Some token →
  cached_identity st = Some identity →
  (∀ req, unavailable (net req)) →
  exec net getAuthStatus st =
    (Returns (logged_in_status (Some identity)), st,
     [mkExchange st (refresh_req token) (net (refresh_req token));
      mkExchange st (status_req token) (net (status_req token))]).
Proof.
  intros Htok Hid Hnet.
  apply cached_identity_Some in Hid as (Huser & Htruthy & Hread).
  rewrite (exec_getAuthStatus_run st token Htok). cbv zeta.
  unfold after_refresh.
  destruct (unavailable_refresh _ (Hnet (refresh_req token))) as (e & -> & ->).
  change (ToString (Some (JStr token))) with (Returns (A:=string) token). cbv beta iota.
  rewrite Hread.
  assert (∃ e', status_answer token (net (status_req token)) st = (Throws e', st))
    as [e' ->].
  { pose proof (Hnet (status_req token)) as Hu. unfold status_answer.
    destruct (net (status_req token)) as [r|]; cbn in Hu; [|eauto].
    destruct Hu as [H1 H2]. apply N.eqb_neq in H1, H2. rewrite H1, H2. eauto. }
  unfold fallback_status. by rewrite Htruthy, Huser.
Qed.

(** X1.  [getAuthStatus] never rejects: whatever the store holds and
    whatever the network does, it resolves, and with one of three answers:
    logged out, logged out because the token has expired, or logged in
    with an identity.  It never answers [pending]. *)
Theorem getAuthStatus_always_resolves st :
  ∃ a, result net getAuthStatus st = Returns a ∧
       (a = logged_out_status ∨ a = expired_status ∨ ∃ info, a = logged_in_status info).
Proof. apply result_getAuthStatus. Qed.

(** X2.  Whenever [getAuthStatus] answers with [tokenExpired] set, the
    answer is the logged-out one and the store holds neither the token nor
    the cached identity any more. *)
Theorem getAuthStatus_expired_clears st a :
  result net getAuthStatus st = Returns a →
  tokenExpired a = Some true →
  a = expired_status ∧
  getAccessToken (final net getAuthStatus st) = None ∧
  getItem USER_INFO_KEY (final net getAuthStatus st) = None.
Proof.
  unfold result, final.
  destruct (stored_token st) as [token|] eqn:Htok.
  2: { rewrite (exec_getAuthStatus_no_token BASE_API_URL net) by done. cbn.
       by intros [= <-]. }
  rewrite (exec_getAuthStatus_run st token Htok). cbv zeta.
  assert (tokenExpired (fallback_status (cached_user st)) ≠ Some true) as Hfallback.
  { unfold fallback_status. by destruct (truthy_value (cached_user st)). }
  destruct (refresh_flow token st) as [[early|activeToken] st1] eqn:Hflow.
  { unfold after_refresh in Hflow.
    destruct (refreshToken_completion _) as [v|e]; [done|].
    destruct (is_token_expired e); [|done]. injection Hflow as <- <-. cbn.
    intros [= <-] _. split; [done|]. split; [apply clear_token|apply clear_user]. }
  destruct (ToString activeToken) as [bearer|e] eqn:Hb.
  2: { cbn. by intros [= <-]. }
  cbn [fst snd]. unfold status_answer.
  destruct (net (status_req bearer)) as [r|].
  2: { cbn. by intros [= <-]. }
  destruct (JS.status r =? 200)%N.
  - destruct (response_json r) as [data|].
    2: { cbn. by intros [= <-]. }
    destruct (get_property data "user_info") as [info|]; cbn; by intros [= <-].
  - destruct (JS.status r =? 401)%N; cbn.
    + intros [= <-] _. split; [done|]. split; [apply clear_token|apply clear_user].
    + by intros [= <-].
Qed.

(** X3.  Without a session token, or with an empty one, [getAuthStatus]
    answers logged out at once: nothing is sent, and the store is left as
    it is, cached identity included. *)
Theorem getAuthStatus_without_token st :
  getAccessToken st = None ∨ getAccessToken st = Some EmptyString →
  exec net getAuthStatus st = (Returns logged_out_status, st, []).
Proof.
  intros H. apply exec_getAuthStatus_no_token.
  unfold stored_token. by destruct H as [->| ->].
Qed.

(** X4.  With a token in the store [getAuthStatus] sends the refresh
    request with that token first, and then at most one request more, the
    status request: never more than two, and to no other endpoint. *)
Theorem getAuthStatus_requests st token :
  stored_token st = Some token →
  ∃ rest,
    map request (exchanges net getAuthStatus st) = refresh_req token :: rest ∧
    (rest = [] ∨ ∃ bearer, rest = [status_req bearer]).
Proof.
  intros Htok. unfold exchanges.
  rewrite (exec_getAuthStatus_run st token Htok). cbv zeta.
  destruct (refresh_flow token st) as [[early|activeToken] st1]; [cbn; eauto|].
  destruct (ToString activeToken) as [bearer|e]; cbn; eauto.
Qed.


(** X6.  When the status request is answered with 401, [getAuthStatus]
    answers logged out with [tokenExpired] set, and the store holds
    neither the token nor the cached identity afterwards. *)
Theorem getAuthStatus_status_expired st ex r :
  ex ∈ exchanges net getAuthStatus st →
  url (request ex) = getAuthEndpoint BASE_API_URL "/status" →
  outcome ex = Responded r →
  JS.status r = 401%N →
  result net getAuthStatus st = Returns expired_status ∧
  getAccessToken (final net getAuthStatus st) = None ∧
  getItem USER_INFO_KEY (final net getAuthStatus st) = None.
Proof.
  intros Hin Hurl Hout Hst.
  destruct (status_exchange st ex Hin Hurl)
    as (token & activeToken & bearer & st1 & Htok & Hflow & Hb & -> & Hrun).
  cbn in Hout. unfold status_answer in Hrun. rewrite Hout, Hst in Hrun.
  cbn [N.eqb Pos.eqb] in Hrun. injection Hrun as -> ->.
  split; [done|]. split; [apply clear_token|apply clear_user].
Qed.


(** X8.  When the refresh is answered with 200 and an object that has no
    [token] property, the session token in the store is overwritten with
    the word [undefined], and the status request is sent with that word
    for a token. *)
Theorem getAuthStatus_refresh_without_token st token r props :
  stored_token st = Some token →
  net (refresh_req token) = Responded r →
  JS.status r = 200%N →
  JSON_parse (JS.text r) = Some (JObj props) →
  assoc "token" props = None →
  ∃ st1,
    exchanges net getAuthStatus st =
      [mkExchange (after_read st) (refresh_req token) (Responded r);
       mkExchange st1 (status_req "undefined") (net (status_req "undefined"))] ∧
    getAccessToken st1 = Some "undefined".
Proof.
  intros Htok Hnet Hst Hdata Hprop. unfold exchanges.
  rewrite (exec_getAuthStatus_run st token Htok). cbv zeta.
  unfold after_refresh, refreshToken_completion, response_json.
  rewrite Hnet, Hst. cbn [N.eqb Pos.eqb]. rewrite Hdata. cbn [get_property].
  rewrite Hprop.
  change (ToString None) with (Returns (A:=string) "undefined").
  cbn [fst snd]. eexists. split; [reflexivity|].
  unfold refreshed_store.
  change (ToString None) with (Returns (A:=string) "undefined"). cbv beta iota.
  unfold getAccessToken, getItem, setItem.
  destruct (truthy_value (cached_user st)).
  - rewrite lookup_insert_ne by done. by rewrite lookup_insert_eq.
  - by rewrite lookup_insert_eq.
Qed.

(** X9.  A session that [saveAuthData] has written survives a network
    that does not answer: with a non-empty token, and every request
    rejected or answered with a status other than 200 and 401,
    [getAuthStatus] answers logged in with the identity that was saved,
    and leaves the store as it is. *)
Theorem getAuthStatus_offline (t : string) (u : UserInfo) (st0 : Storage) :
  t ≠ EmptyString →
  (∀ req, unavailable (net req)) →
  let st := final net (saveAuthData (Some (JStr t)) (Some (UserInfo_json u))) st0 in
  result net getAuthStatus st = Returns (logged_in_status (Some (UserInfo_json u))) ∧
  final net getAuthStatus st = st ∧
  map request (exchanges net getAuthStatus st) = [refresh_req t; status_req t].
Proof.
  intros Ht Hnet.
  unfold final at 1. rewrite (exec_saveAuthData _ _ t) by done. cbn [fst snd record_text].
  set (st := setItem USER_INFO_KEY _ _). cbv zeta.
  assert (stored_token st = Some t) as Htok.
  { unfold stored_token, getAccessToken, getItem, st, setItem.
    rewrite lookup_insert_ne by done. rewrite lookup_insert_eq.
    by destruct t. }
  assert (cached_identity st = Some (UserInfo_json u)) as Hid.
  { unfold cached_identity, cached_user, cached_record, getItem, st, setItem.
    rewrite lookup_insert_eq.
    change (truthy_item (Some ?s)) with (if truthy_string s then Some s else None).
    by rewrite JSON_stringify_UserInfo_truthy, JSON_roundtrip_UserInfo. }
  unfold result, final, exchanges.
  by rewrite (exec_getAuthStatus_unavailable st t _ Htok Hid Hnet).
Qed.
End SessionRuns.

(** The examples: a refresh answered with 401; an empty token; the token
    of the example store; a status answered with an identity, and one
    answered with 401; a token rotated from [t0] to [t1]; a refresh
    answered with an empty object; a network that does not answer. *)

Lemma getAuthStatus_expired_clears_witness :
  expired_status = expired_status ∧
  getAccessToken
    (final (answers expired_response Rejected) (getAuthStatus example_api) example_store)
  = None ∧
  getItem USER_INFO_KEY
    (final (answers expired_response Rejected) (getAuthStatus example_api) example_store)
  = None.
Proof.
  apply (getAuthStatus_expired_clears example_api (answers expired_response Rejected)
           example_store expired_status); reflexivity.
Defined.

Lemma getAuthStatus_without_token_witness :
  exec (answers Rejected Rejected) (getAuthStatus example_api)
    (setItem ACCESS_TOKEN_KEY EmptyString example_store)
  = (Returns logged_out_status, setItem ACCESS_TOKEN_KEY EmptyString example_store, []).
Proof.
  apply (getAuthStatus_without_token example_api (answers Rejected Rejected)
           (setItem ACCESS_TOKEN_KEY EmptyString example_store)).
  right. reflexivity.
Defined.

Lemma getAuthStatus_requests_witness :
  ∃ rest,
    map request
      (exchanges (answers server_error Rejected) (getAuthStatus example_api) example_store)
    = refresh_request example_api "t0" :: rest ∧
    (rest = [] ∨ ∃ bearer, rest = [status_request example_api bearer]).
Proof.
  apply (getAuthStatus_requests example_api (answers server_error Rejected)
           example_store "t0").
  reflexivity.
Defined.


Lemma getAuthStatus_status_expired_witness :
  result (answers (token_response "t1") expired_response)
    (getAuthStatus example_api) example_store = Returns expired_status ∧
  getAccessToken
    (final (answers (token_response "t1") expired_response)
       (getAuthStatus example_api) example_store) = None ∧
  getItem USER_INFO_KEY
    (final (answers (token_response "t1") expired_response)
       (getAuthStatus example_api) example_store) = None.
Proof.
  apply (getAuthStatus_status_expired example_api
           (answers (token_response "t1") expired_response)
           example_store
           (mkExchange (setItem ACCESS_TOKEN_KEY "t1" example_store)
              (status_request example_api "t1") expired_response)
           {| JS.status := 401; text := EmptyString |}).
  - apply (list_elem_of_lookup_2 _ 1). vm_compute. reflexivity.
  - reflexivity.
  - reflexivity.
  - reflexivity.
Defined.


Lemma getAuthStatus_refresh_without_token_witness :
  ∃ st1,
    exchanges (answers connected_response server_error)
      (getAuthStatus example_api) example_store =
      [mkExchange (after_read example_store) (refresh_request example_api "t0")
         connected_response;
       mkExchange st1 (status_request example_api "undefined")
         (answers connected_response server_error
            (status_request example_api "undefined"))] ∧
    getAccessToken st1 = Some "undefined".
Proof.
  apply (getAuthStatus_refresh_without_token example_api
           (answers connected_response server_error) example_store "t0"
           {| JS.status := 200; text := "{}" |} []).
  - reflexivity.
  - reflexivity.
  - reflexivity.
  - vm_compute. reflexivity.
  - reflexivity.
Defined.

Lemma getAuthStatus_offline_witness :
  result (fun _ => Rejected) (getAuthStatus example_api) example_store
  = Returns (logged_in_status (Some (UserInfo_json example_user))) ∧
  final (fun _ => Rejected) (getAuthStatus example_api) example_store = example_store ∧
  map request (exchanges (fun _ => Rejected) (getAuthStatus example_api) example_store)
  = [refresh_request example_api "t0"; status_request example_api "t0"].
Proof.
  apply (getAuthStatus_offline example_api (fun _ => Rejected) "t0" example_user ∅).
  - discriminate.
  - intros req. exact I.
Defined.

(** * Requests with the session token *)

Section Headers.

Lemma header_set_header name v hs : header name (set_header name v hs) = Some v.
Proof.
  induction hs as [|[k w] hs IH]; cbn.
  - by rewrite String.eqb_refl.
  - destruct (String.eqb name k) eqn:Hk; cbn; by rewrite Hk.
Qed.

Lemma header_set_header_ne name name' v hs :
  name ≠ name' → header name (set_header name' v hs) = header name hs.
Proof.
  intros Hne. apply String.eqb_neq in Hne.
  induction hs as [|[k w] hs IH]; cbn.
  - by rewrite Hne.
  - destruct (String.eqb name' k) eqn:Hk; cbn.
    + apply String.eqb_eq in Hk as <-. by rewrite Hne.
    + by rewrite IH.
Qed.

Lemma header_not_in name hs : name ∉ map fst hs → header name hs = None.
Proof.
  induction hs as [|[k w] hs IH]; cbn; [done|].
  intros Hnot. apply not_elem_of_cons in Hnot as [Hne Hnot].
  apply String.eqb_neq in Hne. rewrite Hne. by apply IH.
Qed.

(** An object spread over another: the properties of the spread object
    take the place of those of the same name. *)
Lemma header_spread name extra base :
  NoDup (map fst extra) →
  header name (fold_left (fun hs h => set_header (fst h) (snd h) hs) extra base) =
    match header name extra with
    | Some v => Some v
    | None => header name base
    end.
Proof.
  revert base. induction extra as [|[k w] extra IH]; intros base Hnd; cbn; [done|].
  apply NoDup_cons in Hnd as [Hk Hnd]. rewrite IH by done.
  destruct (String.eqb name k) eqn:Hname.
  - apply String.eqb_eq in Hname as ->.
    by rewrite (header_not_in k extra Hk), header_set_header.
  - apply String.eqb_neq in Hname.
    by rewrite header_set_header_ne.
Qed.

(** X10.  [authenticatedFetch] sends one request, to the address and with
    the method and body it is given.  With a session token in the store
    the [Authorization] header is that token's, whatever the caller has
    passed under that name; every other header is the caller's, and
    [Content-Type] is [application/json] unless the caller says
    otherwise.  The headers of the caller are an object: no name occurs
    twice. *)
Theorem authenticatedFetch_headers (target : string) (options : RequestInit) (st : Storage) :
  NoDup (map fst (init_headers options)) →
  ∃ req k,
    authenticatedFetch target options st = Awaiting st req k ∧
    url req = target ∧ method req = init_method options ∧
    body req = init_body options ∧
    (∀ token, getAccessToken st = Some token → token ≠ EmptyString →
       header "Authorization" (headers req) = Some ("Bearer " +:+ token)) ∧
    (∀ name, name ≠ "Authorization" ∨ getAccessToken st = None
               ∨ getAccessToken st = Some EmptyString →
       header name (headers req) =
         match header name (init_headers options) with
         | Some v => Some v
         | None => if String.eqb name "Content-Type" then Some "application/json" else None
         end).
Proof.
  intros Hnd. unfold authenticatedFetch, bind, get, fetch. cbn [bind_step].
  eexists _, _. split; [reflexivity|]. cbn [url method body headers].
  repeat split.
  - intros token Htok Hne. unfold truthy_item. rewrite Htok.
    destruct token; [done|]. cbn [truthy_string]. apply header_set_header.
  - intros name Hname.
    assert (header name (fold_left (fun hs h => set_header (fst h) (snd h) hs)
              (init_headers options) [("Content-Type", "application/json")]) =
            match header name (init_headers options) with
            | Some v => Some v
            | None => if String.eqb name "Content-Type" then Some "application/json" else None
            end) as Hspread.
    { rewrite header_spread by done. done. }
    destruct Hname as [Hname | [Hnone | Hempty]].
    + destruct (truthy_item (getAccessToken st)); [|done].
      by rewrite header_set_header_ne.
    + by rewrite Hnone.
    + by rewrite Hempty.
Qed.
End Headers.

(** A caller that passes an [Authorization] of its own. *)
Lemma authenticatedFetch_headers_witness :
  ∃ req k,
    authenticatedFetch "/api/instagram/upload"
      {| init_method := "POST";
         init_headers := [("Authorization", "Basic abc"); ("Accept", "text/plain")];
         init_body := None |} example_store = Awaiting example_store req k ∧
    header "Authorization" (headers req) = Some "Bearer t0" ∧
    header "Accept" (headers req) = Some "text/plain" ∧
    header "Content-Type" (headers req) = Some "application/json".
Proof.
  destruct (authenticatedFetch_headers "/api/instagram/upload"
              {| init_method := "POST";
                 init_headers := [("Authorization", "Basic abc"); ("Accept", "text/plain")];
                 init_body := None |} example_store)
    as (req & k & Hcall & _ & _ & _ & Hauth & Hrest).
  - apply (bool_decide_unpack _). vm_compute. exact I.
  - exists req, k. split; [exact Hcall|]. split; [|split].
    + apply (Hauth "t0"); [reflexivity|discriminate].
    + apply (Hrest "Accept"). left. discriminate.
    + apply (Hrest "Content-Type"). left. discriminate.
Defined.

(** * Logging out, and what follows *)

Section SessionLifecycle.
Context (BASE_API_URL : string) (i18n_t : string → string) (net : Request → FetchOutcome).

#[local] Abbreviation getAuthStatus := (Auth.getAuthStatus BASE_API_URL).
#[local] Abbreviation logout := (Auth.logout BASE_API_URL i18n_t).
#[local] Abbreviation logout_req := (logout_request BASE_API_URL).

Lemma exec_logout st :
  exec net logout st =
    (Returns (logout_succeeded i18n_t), clearStoredAuthData st,
     match stored_token st with
     | Some token => [mkExchange st (logout_req token) (net (logout_req token))]
     | None => []
     end).
Proof.
  unfold Auth.logout, stored_token. rewrite exec_bind, exec_get, exec_bind.
  destruct (truthy_item (getAccessToken st)) as [token|].
  - rewrite exec_try_catch, exec_bind, exec_fetch. fold (logout_req token).
    destruct (net (logout_req token)); cbv beta iota; rewrite exec_ret; cbv beta iota;
      rewrite exec_bind, exec_modify; cbv beta iota; by rewrite exec_ret.
  - rewrite exec_ret. cbv beta iota.
    rewrite exec_bind, exec_modify. cbv beta iota. by rewrite exec_ret.
Qed.

(** X11.  [logout] tells the server before it clears anything: with a
    non-empty token in the store it sends one request, to the logout
    endpoint and with that token, while the store is still whole; with no
    token, or an empty one, it sends nothing. *)
Theorem logout_notifies_before_clearing st :
  match getAccessToken st with
  | Some (String c token) =>
      exchanges net logout st =
        [mkExchange st (logout_req (String c token)) (net (logout_req (String c token)))]
  | Some EmptyString | None => exchanges net logout st = []
  end.
Proof.
  unfold exchanges. rewrite exec_logout. unfold stored_token, truthy_item.
  by destruct (getAccessToken st) as [[|c token]|].
Qed.

(** X12.  After [logout], whatever the network did to it, the session is
    gone for the rest of the module: [getAuthStatus] answers logged out
    without sending anything, [getUserProfile] rejects with the
    not-logged-in message, and [authenticatedFetch] sends no
    [Authorization] header. *)
Theorem logged_out_after_logout st (later : Request → FetchOutcome) :
  let st' := final net logout st in
  exec later getAuthStatus st' = (Returns logged_out_status, st', []) ∧
  result later (getUserProfile i18n_t) st' =
    Throws (Error (i18n_t "common:auth.notLoggedIn")) ∧
  ∀ target method body,
    awaited (authenticatedFetch target
               {| init_method := method; init_headers := []; init_body := body |} st') =
      Some {| url := target; method := method;
              headers := [("Content-Type", "application/json")]; body := body |}.
Proof.
  unfold final. rewrite exec_logout. cbn [fst snd].
  pose proof (clear_token st) as Htok. pose proof (clear_user st) as Huser.
  split; [|split].
  - apply exec_getAuthStatus_no_token. unfold stored_token. by rewrite Htok.
  - unfold result, getUserProfile. rewrite exec_bind, exec_get, Huser. done.
  - intros target method body. unfold authenticatedFetch, bind, get, fetch.
    cbn [bind_step awaited]. by rewrite Htok.
Qed.
End SessionLifecycle.

(** * Logging in and registering *)

Section Credentials.
Context (BASE_API_URL : string) (i18n_t : string → string) (net : Request → FetchOutcome).

#[local] Abbreviation login := (Auth.login BASE_API_URL i18n_t).
#[local] Abbreviation register := (Auth.register BASE_API_URL i18n_t).
#[local] Abbreviation login_req := (login_request BASE_API_URL).
#[local] Abbreviation register_req := (register_request BASE_API_URL).
#[local] Abbreviation useLogin_mutationFn := (UseAuth.useLogin_mutationFn BASE_API_URL i18n_t).
#[local] Abbreviation useRegister_mutationFn :=
  (UseAuth.useRegister_mutationFn BASE_API_URL i18n_t).

Lemma exec_login identifier password (st : Storage) :
  exec net (login identifier password) st =
    (credentials_completion (i18n_t "common:auth.loginRequestFailed")
       (net (login_req identifier password)), st,
     [mkExchange st (login_req identifier password) (net (login_req identifier password))]).
Proof.
  unfold Auth.login. rewrite exec_bind, exec_fetch.
  fold (login_req identifier password). unfold credentials_completion.
  destruct (net (login_req identifier password)) as [r|]; [|done].
  rewrite exec_bind, exec_lift.
  destruct (response_json r) as [data|]; [|done].
  destruct (negb (ok r)); [|by rewrite exec_ret].
  rewrite exec_bind, exec_lift.
  destruct (get_property data "detail") as [detail|]; [|done].
  rewrite exec_bind, exec_lift.
  destruct (detail_message detail _); [|done].
  by rewrite exec_throw.
Qed.

Lemma exec_register username email password (st : Storage) :
  exec net (register username email password) st =
    (credentials_completion (i18n_t "common:auth.registerFailed")
       (net (register_req username email password)), st,
     [mkExchange st (register_req username email password)
        (net (register_req username email password))]).
Proof.
  unfold Auth.register. rewrite exec_bind, exec_fetch.
  fold (register_req username email password). unfold credentials_completion.
  destruct (net (register_req username email password)) as [r|]; [|done].
  rewrite exec_bind, exec_lift.
  destruct (response_json r) as [data|]; [|done].
  destruct (negb (ok r)); [|by rewrite exec_ret].
  rewrite exec_bind, exec_lift.
  destruct (get_property data "detail") as [detail|]; [|done].
  rewrite exec_bind, exec_lift.
  destruct (detail_message detail _); [|done].
  by rewrite exec_throw.
Qed.

(** What the mutation does once the request has been answered. *)
Lemma exec_save_response (response : json) (st : Storage) log :
  (let '(r, s', log') :=
     exec net (token <- lift (get_property response "token") ;;
               userInfo <- lift (get_property response "user_info") ;;
               saveAuthData token userInfo ;;
               ret response)%async st in
   (r, s', log ++ log')) =
  match get_property response "token", get_property response "user_info" with
  | Returns token, Returns userInfo =>
      match ToString token with
      | Returns text =>
          (Returns response,
           setItem USER_INFO_KEY (record_text userInfo) (setItem ACCESS_TOKEN_KEY text st),
           log)
      | Throws e => (Throws e, st, log)
      end
  | Throws e, _ => (Throws e, st, log)
  | _, Throws e => (Throws e, st, log)
  end.
Proof.
  rewrite exec_bind, exec_lift.
  destruct (get_property response "token") as [token|e]; cbv beta iota.
  2: { by rewrite app_nil_r. }
  rewrite exec_bind, exec_lift.
  destruct (get_property response "user_info") as [userInfo|e]; cbv beta iota.
  2: { by rewrite app_nil_r. }
  rewrite exec_bind.
  destruct (ToString token) as [text|e] eqn:Ht.
  - rewrite (exec_saveAuthData net _ _ text) by done. cbv beta iota.
    rewrite exec_ret. by rewrite !app_nil_r.
  - rewrite (exec_saveAuthData_throws net _ _ e) by done. by rewrite app_nil_r.
Qed.

(** X13.  [login] sends one request, to the login endpoint, and its body
    read back as JSON holds the identifier and the password exactly as
    they were given, whatever characters they are made of.  The store is
    not touched. *)
Theorem login_sends_credentials identifier password (st : Storage) :
  ∃ req,
    map request (exchanges net (login identifier password) st) = [req] ∧
    url req = getAuthEndpoint BASE_API_URL "/login" ∧
    (∃ text, body req = Some text ∧
       JSON_parse text =
         Some (JObj [("identifier", JStr identifier); ("password", JStr password)])) ∧
    final net (login identifier password) st = st.
Proof.
  unfold exchanges, final. rewrite exec_login. cbn [fst snd map request].
  eexists. split; [reflexivity|]. split; [done|]. split; [|done].
  eexists. split; [reflexivity|].
  exact (JSON_parse_stringify_strings [("identifier", identifier); ("password", password)]
           ltac:(done)).
Qed.

(** X14.  [login] resolves exactly when the answer has a status in the
    200s and a body that is JSON, and then with that body parsed: it
    never resolves on a refusal, on a body that is no JSON, or when the
    request is rejected. *)
Theorem login_resolves_only_when_ok identifier password (st : Storage) data :
  result net (login identifier password) st = Returns data ↔
  ∃ r, net (login_req identifier password) = Responded r ∧
       ok r = true ∧ JSON_parse (text r) = Some data.
Proof.
  unfold result. rewrite exec_login. cbn [fst]. unfold credentials_completion.
  split.
  - destruct (net _) as [r|]; [|done].
    unfold response_json. destruct (JSON_parse (text r)) as [d|] eqn:Hd; [|done].
    destruct (ok r) eqn:Hok; cbn [negb].
    + intros [= <-]. eauto.
    + destruct (get_property d "detail") as [detail|]; [|done].
      by destruct (detail_message detail _).
  - intros (r & -> & Hok & Hdata). unfold response_json. by rewrite Hdata, Hok.
Qed.

(** X15.  When the login is refused with a JSON object, [login] rejects
    with the [detail] of that object for a message when it is a non-empty
    string, and with the translated default when there is no [detail], or
    an empty or null one. *)
Theorem login_failure_message identifier password (st : Storage) r props :
  net (login_req identifier password) = Responded r →
  ok r = false →
  JSON_parse (text r) = Some (JObj props) →
  (∀ detail, assoc "detail" props = Some (JStr detail) → detail ≠ EmptyString →
     result net (login identifier password) st = Throws (Error detail)) ∧
  (assoc "detail" props = None ∨ assoc "detail" props = Some (JStr EmptyString) ∨
   assoc "detail" props = Some JNull →
     result net (login identifier password) st =
       Throws (Error (i18n_t "common:auth.loginRequestFailed"))).
Proof.
  intros Hnet Hok Hdata. unfold result. rewrite exec_login. cbn [fst].
  unfold credentials_completion, response_json. rewrite Hnet, Hdata, Hok.
  cbn [negb get_property]. unfold detail_message. split.
  - intros detail -> Hne. by destruct detail.
  - by intros [-> | [-> | ->]].
Qed.

(** X16.  A login or a registration that fails, at whatever step, leaves
    the store exactly as it was. *)
Theorem failed_mutation_keeps_store (st : Storage) :
  (∀ identifier password e,
     result net (useLogin_mutationFn identifier password) st = Throws e →
     final net (useLogin_mutationFn identifier password) st = st) ∧
  (∀ username email password e,
     result net (useRegister_mutationFn username email password) st = Throws e →
     final net (useRegister_mutationFn username email password) st = st).
Proof.
  split.
  - intros identifier password e. unfold result, final, UseAuth.useLogin_mutationFn.
    rewrite exec_bind, exec_login.
    destruct (credentials_completion _ _) as [response|e']; [|done].
    cbv beta iota. rewrite exec_save_response.
    destruct (get_property response "token") as [token|]; [|done].
    destruct (get_property response "user_info") as [userInfo|]; [|done].
    by destruct (ToString token).
  - intros username email password e. unfold result, final, UseAuth.useRegister_mutationFn.
    rewrite exec_bind, exec_register.
    destruct (credentials_completion _ _) as [response|e']; [|done].
    cbv beta iota. rewrite exec_save_response.
    destruct (get_property response "token") as [token|]; [|done].
    destruct (get_property response "user_info") as [userInfo|]; [|done].
    by destruct (ToString token).
Qed.

End Credentials.

(** The examples: a login answered with a session, and one refused. *)

Lemma login_resolves_only_when_ok_witness :
  ∃ r, session_response "t1" example_user = Responded r ∧
       ok r = true ∧
       JSON_parse (text r) =
         Some (JObj [("token", JStr "t1"); ("user_info", UserInfo_json example_user)]).
Proof.
  destruct (login_resolves_only_when_ok example_api example_translation
              (fun _ => session_response "t1" example_user) "ann" "secret" ∅
              (JObj [("token", JStr "t1"); ("user_info", UserInfo_json example_user)]))
    as [Hresolved _].
  apply Hresolved. vm_compute. reflexivity.
Defined.

Lemma login_failure_message_witness :
  result (fun _ => refused_response "Invalid credentials")
    (login example_api example_translation "ann" "guess") ∅
  = Throws (Error "Invalid credentials").
Proof.
  destruct (login_failure_message example_api example_translation
              (fun _ => refused_response "Invalid credentials") "ann" "guess" ∅
              {| JS.status := 401;
                 text := JSON_stringify (JObj [("detail", JStr "Invalid credentials")]) |}
              [("detail", JStr "Invalid credentials")]) as [Hdetail _].
  - reflexivity.
  - reflexivity.
  - vm_compute. reflexivity.
  - apply (Hdetail "Invalid credentials"); [reflexivity|discriminate].
Defined.

Lemma failed_mutation_keeps_store_witness :
  final (fun _ => refused_response "Invalid credentials")
    (UseAuth.useLogin_mutationFn example_api example_translation "ann" "guess") example_store
  = example_store.
Proof.
  destruct (failed_mutation_keeps_store example_api example_translation
              (fun _ => refused_response "Invalid credentials") example_store)
    as [Hlogin _].
  apply (Hlogin "ann" "guess" (Error "Invalid credentials")).
  vm_compute. reflexivity.
Defined.


(** * More of the dialog *)

Section Dialog.
Context (URL_new : string → option URL) (net : Request → FetchOutcome).

#[local] Abbreviation handleOAuthCallback := (InstagramConnectDialog.handleOAuthCallback URL_new).

Lemma exec_getInstagramAuthUrl page :
  exec net getInstagramAuthUrl page =
    let req := auth_url_request (localStorage page) in
    (api_completion "Failed to get Instagram auth URL" (net req), page,
     [mkExchange page req (net req)]).
Proof.
  unfold getInstagramAuthUrl. rewrite exec_bind, exec_authenticatedFetch.
  cbn [init_method init_headers init_body].
  rewrite authenticated_headers by (by left).
  fold (auth_url_request (localStorage page)). cbv zeta.
  destruct (net (auth_url_request (localStorage page))) as [r|]; [|done].
  apply exec_api_response.
Qed.

Lemma exec_disconnectInstagram page :
  exec net disconnectInstagram page =
    let req := disconnect_request (localStorage page) in
    (api_completion "Failed to disconnect Instagram account" (net req), page,
     [mkExchange page req (net req)]).
Proof.
  unfold disconnectInstagram. rewrite exec_bind, exec_authenticatedFetch.
  cbn [init_method init_headers init_body].
  rewrite authenticated_headers by (by left).
  fold (disconnect_request (localStorage page)). cbv zeta.
  destruct (net (disconnect_request (localStorage page))) as [r|]; [|done].
  apply exec_api_response.
Qed.

(** X18.  An error redirect is reported once.  With the session settled
    as logged in and the marker saying [error], the callback sends
    nothing: it shows one error toast, with the reason of the redirect or
    [Unknown error], and strips the query from the address; the guard and
    the store are left alone.  Run again on the page it has left, it does
    nothing at all. *)
Theorem error_redirect_reported_once props page :
  isAuthLoading props = false →
  is_logged_in (authStatus props) = true →
  params_get "instagram_auth" (search (location page)) = Some "error" →
  ∃ page',
    handleOAuthCallback props page = Finished (Returns tt) page' ∧
    toasts page' =
      toasts page ++ [toast_error ("Instagram connection failed: " +:+ redirect_error page) None] ∧
    location page' = {| pathname := pathname (location page); search := [] |} ∧
    processedRef page' = processedRef page ∧
    localStorage page' = localStorage page ∧
    handleOAuthCallback props page' = Finished (Returns tt) page'.
Proof.
  intros Hset Hlog Hmark. unfold InstagramConnectDialog.handleOAuthCallback.
  rewrite Hset, Hlog. cbn [negb]. unfold bind at 1, get at 1. cbn [bind_step].
  rewrite Hmark. rewrite bool_decide_eq_false_2 by done.
  rewrite bool_decide_eq_true_2 by done.
  eexists. split; [reflexivity|]. by repeat split.
Qed.

(** Either the page is ready and unguarded, or the callback ends at once. *)
Lemma handleOAuthCallback_cases props page :
  (processedRef page = false ∧
   ∃ token userId username, callback_ready props page token userId username) ∨
  (∃ page', handleOAuthCallback props page = Finished (Returns tt) page').
Proof.
  unfold InstagramConnectDialog.handleOAuthCallback.
  destruct (isAuthLoading props) eqn:Hset; [eauto|].
  destruct (is_logged_in (authStatus props)) eqn:Hlog; [|eauto]. cbn [negb].
  unfold bind at 1, get at 1. cbn [bind_step].
  destruct (decide (params_get "instagram_auth" (search (location page)) = Some "success"))
    as [Hmark|Hmark].
  - rewrite bool_decide_eq_true_2 by done.
    destruct (processedRef page) eqn:Hguard; [eauto|].
    destruct (truthy_item (params_get "token" _)) as [token|] eqn:Htok; [|eauto].
    destruct (truthy_item (params_get "user_id" _)) as [userId|] eqn:Hid; [|eauto].
    destruct (truthy_item (params_get "username" _)) as [username|] eqn:Hname; [|eauto].
    left. split; [done|]. by exists token, userId, username.
  - rewrite bool_decide_eq_false_2 by done.
    destruct (bool_decide _); eauto.
Qed.

(** X19.  The callback sends a request exactly when everything is in
    place.  It suspends on a request if and only if the guard is not set,
    the session has settled as logged in, and the address carries the
    success marker and the three exchange parameters; the request is then
    the connect request for them.  In every other case it ends without
    sending anything. *)
Theorem callback_sends_only_when_ready props page req :
  awaited (handleOAuthCallback props page) = Some req ↔
  processedRef page = false ∧
  ∃ token userId username,
    callback_ready props page token userId username ∧
    req = connect_request (localStorage page) token userId username.
Proof.
  split.
  - destruct (handleOAuthCallback_cases props page)
      as [(Hguard & token & userId & username & Hready)|[page' ->]]; [|done].
    destruct (handleOAuthCallback_suspends URL_new _ _ _ _ _ Hready Hguard) as [k ->].
    intros [= <-]. split; [done|]. by exists token, userId, username.
  - intros (Hguard & token & userId & username & Hready & ->).
    by destruct (handleOAuthCallback_suspends URL_new _ _ _ _ _ Hready Hguard) as [k ->].
Qed.

(** X20.  The callback never rejects, whatever the page, the session and
    the network.  A connect request is sent with the spinner on and the
    guard set, and when the callback is over the spinner is off again. *)
Theorem callback_never_rejects props page :
  result net (handleOAuthCallback props) page = Returns tt ∧
  (∀ ex, ex ∈ exchanges net (handleOAuthCallback props) page →
     is_connect (request ex) = true →
     connecting (at_state ex) = true ∧ processedRef (at_state ex) = true ∧
     connecting (final net (handleOAuthCallback props) page) = false).
Proof.
  destruct (handleOAuthCallback_cases props page)
    as [(Hguard & token & userId & username & Hready)|[page' Hcall]].
  - unfold result, exchanges, final.
    rewrite (exec_handleOAuthCallback URL_new net _ _ _ _ _ Hready Hguard). cbv zeta.
    cbn [fst snd]. split; [done|].
    intros ex Hin Hconnect.
    assert (ex = mkExchange (claimed page)
                   (connect_request (localStorage page) token userId username)
                   (net (connect_request (localStorage page) token userId username))) as ->.
    { apply elem_of_cons in Hin as [->|Hin]; [done|].
      destruct (api_completion _ _); [|by apply elem_of_nil in Hin].
      apply list_elem_of_singleton in Hin as ->. done. }
    split; [done|]. split; [done|].
    unfold processed. destruct (api_completion _ _); [|done].
    by destruct (restored _ _) as [[[]|e] page'].
  - unfold result, exchanges, final, exec. rewrite Hcall. cbn.
    split; [done|]. by intros ex ?%elem_of_nil.
Qed.

(** X21.  A return location that is no address undoes a successful
    exchange.  When the exchange has succeeded but [new URL] throws on the
    stored return location, the callback shows the success toast and then
    a failure toast, releases the guard, and leaves the address with its
    marker; the return location is gone from the store.  Run again, it
    sends the connect request a second time. *)
Theorem callback_invalid_return_location props page token userId username returnUrl :
  callback_ready props page token userId username →
  processedRef page = false →
  exchange_succeeds (net (connect_request (localStorage page) token userId username)) →
  return_location page = Some returnUrl →
  URL_new returnUrl = None →
  let page' := final net (handleOAuthCallback props) page in
  processedRef page' = false ∧
  location page' = location page ∧
  getItem "instagram_return_url" (localStorage page') = None ∧
  toasts page' =
    toasts page ++ [toast_success "Instagram account connected successfully!";
                    toast_error "Failed to connect: " (Some TypeError)] ∧
  awaited (handleOAuthCallback props page') =
    Some (connect_request (localStorage page') token userId username).
Proof.
  intros Hready Hguard Hok Hreturn Hurl page'. subst page'. unfold final.
  rewrite (exec_handleOAuthCallback URL_new net _ _ _ _ _ Hready Hguard). cbv zeta.
  cbn [fst snd]. unfold processed.
  destruct (exchange_succeeds_returns "Failed to connect Instagram account" _ Hok)
    as [data ->].
  unfold restored.
  change (return_location (loaded _ _)) with (return_location page).
  rewrite Hreturn, Hurl.
  split; [done|]. split; [done|]. split.
  { cbn. unfold getItem, removeItem. apply lookup_delete_eq. }
  split.
  { cbn. by rewrite <- app_assoc. }
  set (page' := released _ _).
  assert (callback_ready props page' token userId username) as Hready'
    by (by destruct Hready).
  destruct (handleOAuthCallback_suspends URL_new _ _ _ _ _ Hready' eq_refl) as [k ->].
  done.
Qed.

(** X22.  After a successful exchange, with no return location or one
    that is an address, the callback does nothing when it runs again on
    the page it has left: no second connect request is sent. *)
Theorem callback_not_repeated props page token userId username :
  callback_ready props page token userId username →
  processedRef page = false →
  exchange_succeeds (net (connect_request (localStorage page) token userId username)) →
  match return_location page with
  | Some returnUrl => is_Some (URL_new returnUrl)
  | None => True
  end →
  let page' := final net (handleOAuthCallback props) page in
  handleOAuthCallback props page' = Finished (Returns tt) page'.
Proof.
  intros Hready Hguard Hok Hurl page'. subst page'. unfold final.
  rewrite (exec_handleOAuthCallback URL_new net _ _ _ _ _ Hready Hguard). cbv zeta.
  cbn [fst snd]. unfold processed.
  destruct (exchange_succeeds_returns "Failed to connect Instagram account" _ Hok)
    as [data ->].
  unfold restored.
  change (return_location (loaded _ _)) with (return_location page).
  change (pathname (location (loaded _ _))) with (pathname (location page)).
  destruct Hready as [Hset Hlog Hmark Htok Hid Hname].
  assert (∀ p, search (location p) = [] →
            handleOAuthCallback props p = Finished (Returns tt) p) as Hstripped.
  { intros p Hp. unfold InstagramConnectDialog.handleOAuthCallback.
    rewrite Hset, Hlog. cbn [negb]. unfold bind at 1, get at 1. cbn [bind_step].
    by rewrite Hp. }
  destruct (return_location page) as [returnUrl|].
  - destruct Hurl as [returnUrlObj ->].
    destruct (String.eqb _ _).
    + by apply Hstripped.
    + by apply handleOAuthCallback_guarded.
  - by apply Hstripped.
Qed.

(** X23.  [loadStatus] never rejects and sends one request, the status
    request.  When it is over [loading] is off; the status shown is the
    body of an answer in the 200s, and the error record, not connected,
    when the request is rejected or refused. *)
Theorem loadStatus_never_rejects page :
  let req := instagram_status_request (localStorage page) in
  let page' := final net loadStatus page in
  result net loadStatus page = Returns tt ∧
  map request (exchanges net loadStatus page) = [req] ∧
  loading page' = false ∧
  (∀ r data, net req = Responded r → ok r = true → JSON_parse (text r) = Some data →
     status page' = Some data) ∧
  (exchange_fails (net req) → status page' = Some status_error).
Proof.
  unfold result, exchanges, final. rewrite (exec_loadStatus net). cbv zeta. cbn [fst snd map request].
  split; [done|]. split; [done|]. split; [done|]. unfold loaded. split.
  - intros r data -> Hok Hdata. cbn. unfold response_json. by rewrite Hok, Hdata.
  - intros Hfails.
    by destruct (exchange_fails_throws "Failed to get Instagram status" _ Hfails) as [e ->].
Qed.

Lemma exec_handleDisconnect page :
  exec net handleDisconnect page =
    let req := disconnect_request (localStorage page) in
    match api_completion "Failed to disconnect Instagram account" (net req) with
    | Returns _ =>
        let shown := toast (toast_success "Instagram account disconnected")
                       (setConnecting true page) in
        (Returns tt,
         setConnecting false
           (loaded (net (instagram_status_request (localStorage page))) shown),
         [mkExchange (setConnecting true page) req (net req);
          mkExchange (setLoading true shown) (instagram_status_request (localStorage page))
            (net (instagram_status_request (localStorage page)))])
    | Throws error =>
        (Returns tt,
         setConnecting false
           (toast (toast_error "Failed to disconnect: " (Some error)) (setConnecting true page)),
         [mkExchange (setConnecting true page) req (net req)])
    end.
Proof.
  unfold handleDisconnect.
  rewrite exec_try_finally, exec_try_catch, exec_bind, exec_modify. cbv beta iota.
  rewrite exec_bind, exec_disconnectInstagram.
  change (localStorage (setConnecting true page)) with (localStorage page). cbv zeta.
  destruct (api_completion _ _) as [data|error]; cbv beta iota.
  - rewrite exec_bind, exec_modify. cbv beta iota. rewrite (exec_loadStatus net).
    cbv zeta. done.
  - by rewrite exec_modify.
Qed.

(** X24.  [handleDisconnect] never rejects and always ends with the
    spinner off.  A disconnection that the server refuses, or that does
    not reach it, is reported and changes nothing else: only the
    disconnect request is sent, one error toast is added, and the status
    shown stays.  A disconnection that succeeds is followed by a reload
    of the status: the status request is sent next, after the success
    toast, and [loading] is off at the end. *)
Theorem handleDisconnect_settles page :
  let req := disconnect_request (localStorage page) in
  let page' := final net handleDisconnect page in
  result net handleDisconnect page = Returns tt ∧
  connecting page' = false ∧
  (exchange_fails (net req) →
     map request (exchanges net handleDisconnect page) = [req] ∧
     status page' = status page ∧
     ∃ error, toasts page' = toasts page ++ [toast_error "Failed to disconnect: " (Some error)]) ∧
  (exchange_succeeds (net req) →
     map request (exchanges net handleDisconnect page) =
       [req; instagram_status_request (localStorage page)] ∧
     loading page' = false ∧
     toasts page' = toasts page ++ [toast_success "Instagram account disconnected"] ∧
     is_Some (status page')).
Proof.
  unfold result, exchanges, final. rewrite exec_handleDisconnect. cbv zeta.
  split; [by destruct (api_completion _ _)|].
  split; [by destruct (api_completion _ _)|]. split.
  - intros Hfails.
    destruct (exchange_fails_throws "Failed to disconnect Instagram account" _ Hfails)
      as [e ->].
    cbn. eauto.
  - intros Hok.
    destruct (exchange_succeeds_returns "Failed to disconnect Instagram account" _ Hok)
      as [data ->].
    cbn. repeat split; eauto.
Qed.

Section Departure.
Context (location_href : Location → string) (assign_href : value → async Page unit).

#[local] Abbreviation handleConnect :=
  (InstagramConnectDialog.handleConnect location_href assign_href).

Lemma handleConnect_suspends page :
  ∃ k, handleConnect page =
         Awaiting (departing location_href page)
           (auth_url_request (localStorage page)) k.
Proof.
  unfold handleConnect, InstagramConnectDialog.handleConnect, getInstagramAuthUrl, with_storage, zoom,
    authenticatedFetch.
  cbn -[setItem stored_token].
  replace (set_localStorage _ (set_localStorage _ (setConnecting true page)))
    with (departing location_href page) by (by destruct page).
  unfold auth_url_request, authorization, stored_token, getAccessToken, getItem, setItem.
  rewrite lookup_insert_ne by done.
  destruct (truthy_item (localStorage page !! ACCESS_TOKEN_KEY)); by eexists.
Qed.

Lemma authorization_departing page :
  authorization (localStorage (departing location_href page)) =
  authorization (localStorage page).
Proof.
  unfold authorization, stored_token, getAccessToken, getItem, departing, setItem. cbn.
  by rewrite lookup_insert_ne.
Qed.

Lemma exec_handleConnect_fails page error :
  api_completion "Failed to get Instagram auth URL"
    (net (auth_url_request (localStorage page))) = Throws error →
  exec net handleConnect page =
    (Returns tt,
     setConnecting false
       (toast (toast_error "Failed to start connection: " (Some error))
          (departing location_href page)),
     [mkExchange (departing location_href page) (auth_url_request (localStorage page))
        (net (auth_url_request (localStorage page)))]).
Proof.
  intros Herr. unfold handleConnect, InstagramConnectDialog.handleConnect.
  rewrite exec_try_catch, exec_bind, exec_modify. cbv beta iota.
  rewrite exec_bind, exec_get. cbv beta iota.
  rewrite exec_bind, exec_modify. cbv beta iota.
  replace (set_localStorage _ (setConnecting true page))
    with (departing location_href page) by (by destruct page).
  rewrite exec_bind, exec_getInstagramAuthUrl. cbv zeta.
  assert (auth_url_request (localStorage (departing location_href page)) =
          auth_url_request (localStorage page)) as ->.
  { unfold auth_url_request. by rewrite authorization_departing. }
  rewrite Herr. cbv beta iota.
  rewrite exec_bind, exec_modify. cbv beta iota. by rewrite exec_modify.
Qed.

(** X25.  [handleConnect] records where the user is before it asks for
    anything: when the request for the authorization address goes out,
    the store already holds the address of the page as the return
    location, and the spinner is on.  When that address cannot be had,
    [handleConnect] does not reject and does not leave the page: it shows
    one error toast and turns the spinner off, and the return location it
    has recorded stays in the store. *)
Theorem handleConnect_records_return_location page :
  let req := auth_url_request (localStorage page) in
  (∃ k, handleConnect page = Awaiting (departing location_href page) req k) ∧
  getItem "instagram_return_url" (localStorage (departing location_href page)) =
    Some (location_href (location page)) ∧
  connecting (departing location_href page) = true ∧
  (exchange_fails (net req) →
     let page' := final net handleConnect page in
     result net handleConnect page = Returns tt ∧
     connecting page' = false ∧
     navigation page' = navigation page ∧
     getItem "instagram_return_url" (localStorage page') =
       Some (location_href (location page)) ∧
     ∃ error, toasts page' =
                toasts page ++ [toast_error "Failed to start connection: " (Some error)]).
Proof.
  cbv zeta. split; [apply handleConnect_suspends|].
  assert (getItem "instagram_return_url" (localStorage (departing location_href page)) =
          Some (location_href (location page))) as Hstored.
  { unfold departing, getItem, setItem. cbn. by rewrite lookup_insert_eq. }
  split; [done|]. split; [done|].
  intros Hfails.
  destruct (exchange_fails_throws "Failed to get Instagram auth URL" _ Hfails) as [e He].
  unfold result, final. rewrite (exec_handleConnect_fails page e He). cbn.
  split; [done|]. split; [done|]. split; [done|]. split; [|eauto].
  unfold getItem, setItem. by rewrite lookup_insert_eq.
Qed.

(** X26.  The return location makes the round trip.  On a page whose
    store is the one [handleConnect] left behind on the page of
    departure, a successful exchange sends the user back to the address of
    that page, when it parses as an address and its path is not the
    current one, and takes the return location out of the store. *)
Theorem return_location_round_trip departure props page
    token userId username returnUrlObj :
  localStorage page = localStorage (state_of (handleConnect departure)) →
  location_href (location departure) ≠ EmptyString →
  URL_new (location_href (location departure)) = Some returnUrlObj →
  URL_pathname returnUrlObj ≠ pathname (location page) →
  callback_ready props page token userId username →
  processedRef page = false →
  exchange_succeeds (net (connect_request (localStorage page) token userId username)) →
  let page' := final net (handleOAuthCallback props) page in
  navigation page' = Some (href returnUrlObj) ∧
  getItem "instagram_return_url" (localStorage page') = None.
Proof.
  intros Hstore Hne Hurl Hpath Hready Hguard Hok page'. subst page'.
  destruct (handleConnect_suspends departure) as [k Hk]. rewrite Hk in Hstore.
  cbn [state_of] in Hstore.
  assert (return_location page = Some (location_href (location departure))) as Hreturn.
  { unfold return_location. rewrite Hstore. unfold departing, getItem, setItem. cbn.
    rewrite lookup_insert_eq. by destruct (location_href (location departure)). }
  unfold final.
  rewrite (exec_handleOAuthCallback URL_new net _ _ _ _ _ Hready Hguard). cbv zeta.
  cbn [fst snd]. unfold processed.
  destruct (exchange_succeeds_returns "Failed to connect Instagram account" _ Hok)
    as [data ->].
  unfold restored.
  change (return_location (loaded _ _)) with (return_location page).
  change (pathname (location (loaded _ _))) with (pathname (location page)).
  rewrite Hreturn, Hurl.
  apply String.eqb_neq in Hpath. rewrite Hpath. cbn. split; [done|].
  unfold getItem, removeItem. apply lookup_delete_eq.
Qed.
End Departure.
End Dialog.

(** The examples: an error redirect; the example page, ready for the
    exchange; a return location that no address can be made of; a
    network that is down, and one that accepts everything; the page of
    departure, and the page the user comes back to. *)

Lemma error_redirect_reported_once_witness :
  ∃ page',
    handleOAuthCallback example_URL_new example_props refused_page
    = Finished (Returns tt) page' ∧
    toasts page' =
      toasts refused_page ++
      [toast_error ("Instagram connection failed: " +:+ redirect_error refused_page) None] ∧
    location page' = {| pathname := pathname (location refused_page); search := [] |} ∧
    processedRef page' = processedRef refused_page ∧
    localStorage page' = localStorage refused_page ∧
    handleOAuthCallback example_URL_new example_props page' = Finished (Returns tt) page'.
Proof.
  apply (error_redirect_reported_once example_URL_new example_props refused_page);
    reflexivity.
Defined.

Lemma callback_sends_only_when_ready_witness :
  processedRef example_page = false ∧
  ∃ token userId username,
    callback_ready example_props example_page token userId username ∧
    connect_request (localStorage example_page) "ig-token" "1789" "ann.draws" =
      connect_request (localStorage example_page) token userId username.
Proof.
  destruct (callback_sends_only_when_ready example_URL_new example_props example_page
              (connect_request (localStorage example_page) "ig-token" "1789" "ann.draws"))
    as [Hready _].
  apply Hready. vm_compute. reflexivity.
Defined.

Lemma callback_invalid_return_location_witness :
  let net := instagram_answers connected_response connected_response in
  let page' :=
    final net (handleOAuthCallback (fun _ => None) example_props) example_page in
  processedRef page' = false ∧
  location page' = location example_page ∧
  getItem "instagram_return_url" (localStorage page') = None ∧
  toasts page' =
    toasts example_page ++
    [toast_success "Instagram account connected successfully!";
     toast_error "Failed to connect: " (Some TypeError)] ∧
  awaited (handleOAuthCallback (fun _ => None) example_props page') =
    Some (connect_request (localStorage page') "ig-token" "1789" "ann.draws").
Proof.
  apply (callback_invalid_return_location (fun _ => None)
           (instagram_answers connected_response connected_response)
           example_props example_page "ig-token" "1789" "ann.draws"
           "https://app.example.test/canvas/42").
  - constructor; reflexivity.
  - reflexivity.
  - split; [reflexivity|by eexists].
  - reflexivity.
  - reflexivity.
Defined.

Lemma callback_not_repeated_witness :
  let net := instagram_answers connected_response connected_response in
  let page' :=
    final net (handleOAuthCallback example_URL_new example_props) example_page in
  handleOAuthCallback example_URL_new example_props page' = Finished (Returns tt) page'.
Proof.
  apply (callback_not_repeated example_URL_new
           (instagram_answers connected_response connected_response)
           example_props example_page "ig-token" "1789" "ann.draws").
  - constructor; reflexivity.
  - reflexivity.
  - split; [reflexivity|by eexists].
  - vm_compute. by eexists.
Defined.

Lemma handleDisconnect_settles_witness :
  let net := fun _ : Request => Rejected in
  let page' := final net handleDisconnect example_page in
  result net handleDisconnect example_page = Returns tt ∧
  connecting page' = false ∧
  map request (exchanges net handleDisconnect example_page) =
    [disconnect_request (localStorage example_page)] ∧
  InstagramConnectDialog.status page' = InstagramConnectDialog.status example_page.
Proof.
  destruct (handleDisconnect_settles (fun _ => Rejected) example_page)
    as (Hresult & Hspinner & Hfails & _).
  destruct (Hfails I) as (Hsent & Hstatus & _).
  split; [exact Hresult|]. split; [exact Hspinner|]. split; [exact Hsent|exact Hstatus].
Defined.

Lemma handleConnect_records_return_location_witness :
  let net := fun _ : Request => Rejected in
  let call := handleConnect example_location_href (fun _ => ret tt) in
  let page' := final net call departure_page in
  result net call departure_page = Returns tt ∧
  connecting page' = false ∧
  getItem "instagram_return_url" (localStorage page') =
    Some "https://app.example.test/canvas/42".
Proof.
  destruct (handleConnect_records_return_location (fun _ => Rejected)
              example_location_href (fun _ => ret tt) departure_page)
    as (_ & _ & _ & Hfails).
  destruct (Hfails I) as (Hresult & Hspinner & _ & Hstored & _).
  split; [exact Hresult|]. split; [exact Hspinner|exact Hstored].
Defined.

Lemma return_location_round_trip_witness :
  let net := instagram_answers connected_response connected_response in
  let page' :=
    final net (handleOAuthCallback example_URL_new example_props) example_page in
  navigation page' = Some "https://app.example.test/canvas/42" ∧
  getItem "instagram_return_url" (localStorage page') = None.
Proof.
  apply (return_location_round_trip example_URL_new
           (instagram_answers connected_response connected_response)
           example_location_href (fun _ => ret tt)
           departure_page example_props example_page "ig-token" "1789" "ann.draws"
           {| href := "https://app.example.test/canvas/42"; URL_pathname := "/canvas/42" |}).
  - vm_compute. reflexivity.
  - vm_compute. discriminate.
  - reflexivity.
  - discriminate.
  - constructor; reflexivity.
  - reflexivity.
  - split; [reflexivity|by eexists].
Defined.

(** * The provider, and the pages that read it *)

Section ZoomFacts.
Context {S T : Type} (proj : T → S) (upd : S → T → T) (net : Request → FetchOutcome).
Hypothesis proj_upd : ∀ s t, proj (upd s t) = s.
Hypothesis upd_upd : ∀ s s' t, upd s' (upd s t) = upd s' t.

(** A call on a part of the state runs as it does on the part alone. *)
Lemma run_zoom_step {A} (m : step S A) t :
  run net (zoom_step proj upd m t) =
    let '(r, s, log) := run net m in
    (r, upd s t,
     map (fun ex => mkExchange (upd (at_state ex) t) (request ex) (outcome ex)) log).
Proof.
  revert t. induction m as [r s|s req k IH]; intros t; cbn; [done|].
  rewrite proj_upd, IH.
  destruct (run net (k (net req) s)) as [[r s'] log]. cbn.
  rewrite upd_upd. f_equal. f_equal.
  apply map_ext. intros ex. by rewrite upd_upd.
Qed.

Lemma exec_zoom {A} (m : async S A) t :
  exec net (zoom proj upd m) t =
    let '(r, s, log) := exec net m (proj t) in
    (r, upd s t,
     map (fun ex => mkExchange (upd (at_state ex) t) (request ex) (outcome ex)) log).
Proof. apply run_zoom_step. Qed.
End ZoomFacts.

Section Provider.
Context (BASE_API_URL : string) (t : string → string).
Context (URL_new : string → option URL) (net : Request → FetchOutcome).

#[local] Abbreviation getAuthStatus := (Auth.getAuthStatus BASE_API_URL).
#[local] Abbreviation refreshAuth := (AuthContext.refreshAuth BASE_API_URL t).
#[local] Abbreviation handleOAuthCallback := (InstagramConnectDialog.handleOAuthCallback URL_new).

Lemma exec_refreshAuth p a :
  result net getAuthStatus (AuthContext.localStorage p) = Returns a →
  exec net refreshAuth p =
    (Returns tt,
     {| AuthContext.localStorage := final net getAuthStatus (AuthContext.localStorage p);
        AuthContext.authStatus := a;
        AuthContext.isLoading := false;
        AuthContext.toasts :=
          AuthContext.toasts p ++
          if bool_decide (tokenExpired a = Some true) then [expired_toast t] else [] |},
     map (fun ex =>
            mkExchange
              (AuthContext.set_localStorage (at_state ex) (AuthContext.setIsLoading true p))
              (request ex) (outcome ex))
       (exchanges net getAuthStatus (AuthContext.localStorage p))).
Proof.
  unfold result, final, exchanges. intros Ha.
  unfold AuthContext.refreshAuth.
  rewrite exec_try_finally, exec_try_catch, exec_bind, exec_modify. cbv beta iota.
  rewrite exec_bind, (exec_zoom _ _ net) by done.
  change (AuthContext.localStorage (AuthContext.setIsLoading true p))
    with (AuthContext.localStorage p).
  destruct (exec net getAuthStatus (AuthContext.localStorage p)) as [[r st] log].
  cbn in Ha. subst r. cbv beta iota.
  rewrite exec_bind.
  destruct (bool_decide (tokenExpired a = Some true)).
  - rewrite exec_modify. cbv beta iota. rewrite exec_modify. cbn.
    by rewrite app_nil_r.
  - rewrite exec_ret. cbv beta iota. rewrite exec_modify. cbn.
    by rewrite !app_nil_r.
Qed.

(** While the provider is asking, it says so. *)
Lemma loading_during_refreshAuth p ex :
  ex ∈ exchanges net refreshAuth p →
  AuthContext.isLoading (at_state ex) = true ∧
  AuthContext.authStatus (at_state ex) = AuthContext.authStatus p.
Proof.
  destruct (result_getAuthStatus BASE_API_URL net (AuthContext.localStorage p))
    as (a & Ha & _).
  unfold exchanges. rewrite (exec_refreshAuth p a Ha). cbn [snd].
  intros (ex' & -> & _)%list_elem_of_fmap. done.
Qed.

(** X27.  [refreshAuth] never rejects and always settles.  It ends with
    [isLoading] off and [authStatus] set to the answer of
    [getAuthStatus], with the store as [getAuthStatus] left it, and with
    one toast more exactly when the answer says that the token has
    expired.  While a request of it is out, [isLoading] is on and
    [authStatus] is still the one from before. *)
Theorem refreshAuth_settles p :
  ∃ a,
    result net getAuthStatus (AuthContext.localStorage p) = Returns a ∧
    result net refreshAuth p = Returns tt ∧
    final net refreshAuth p =
      {| AuthContext.localStorage := final net getAuthStatus (AuthContext.localStorage p);
         AuthContext.authStatus := a;
         AuthContext.isLoading := false;
         AuthContext.toasts :=
           AuthContext.toasts p ++
           if bool_decide (tokenExpired a = Some true) then [expired_toast t] else [] |} ∧
    ∀ ex, ex ∈ exchanges net refreshAuth p →
      AuthContext.isLoading (at_state ex) = true ∧
      AuthContext.authStatus (at_state ex) = AuthContext.authStatus p.
Proof.
  destruct (result_getAuthStatus BASE_API_URL net (AuthContext.localStorage p))
    as (a & Ha & _).
  exists a. split; [done|]. unfold result, final.
  rewrite (exec_refreshAuth p a Ha). cbn [fst snd]. split; [done|]. split; [done|].
  apply loading_during_refreshAuth.
Qed.

(** X28.  The dialog waits for the provider.  Given what the provider
    shows at any moment of [refreshAuth], while a request is out or when
    it is over, the callback sends its connect request only when
    [refreshAuth] is over and [getAuthStatus] has answered logged in. *)
Theorem callback_waits_for_session p q (open : bool) page req :
  q = final net refreshAuth p ∨ (∃ ex, ex ∈ exchanges net refreshAuth p ∧ q = at_state ex) →
  awaited (handleOAuthCallback (provided open q) page) = Some req →
  q = final net refreshAuth p ∧
  ∃ info, result net getAuthStatus (AuthContext.localStorage p) =
            Returns (logged_in_status info).
Proof.
  intros Hq Hreq.
  assert (AuthContext.isLoading q = false ∧
          is_logged_in (AuthContext.authStatus q) = true) as [Hloading Hlogged].
  { revert Hreq. unfold InstagramConnectDialog.handleOAuthCallback. cbn.
    destruct (AuthContext.isLoading q); [done|].
    by destruct (is_logged_in (AuthContext.authStatus q)). }
  destruct Hq as [->|(ex & Hin & ->)].
  2: { apply loading_during_refreshAuth in Hin as [Hin _]. congruence. }
  split; [done|].
  destruct (result_getAuthStatus BASE_API_URL net (AuthContext.localStorage p))
    as (a & Ha & Hshape).
  unfold final in Hlogged. rewrite (exec_refreshAuth p a Ha) in Hlogged.
  cbn in Hlogged. rewrite Ha.
  destruct Hshape as [->|[->|[info ->]]]; [done|done|eauto].
Qed.

(** X29.  The administration page turns the visitor away before the
    session is known.  Given what the provider shows when it mounts, or
    while a request of its first [refreshAuth] is out, the guard of the
    page shows the login toast and goes to the home page, whatever the
    store holds. *)
Theorem admin_guard_before_session st q v :
  q = AuthContext.mounted st ∨
  (∃ ex, ex ∈ exchanges net refreshAuth (AuthContext.mounted st) ∧ q = at_state ex) →
  Admin.guard (AuthContext.authStatus q) v = Admin.turn_away "로그인이 필요합니다" v.
Proof.
  intros [->|(ex & Hin & ->)]; [done|].
  apply loading_during_refreshAuth in Hin as [_ ->]. done.
Qed.
End Provider.

Section Administration.
Context (BASE_API_URL : string) (net : Request → FetchOutcome).

#[local] Abbreviation getAuthStatus := (Auth.getAuthStatus BASE_API_URL).

Lemma role_of_UserInfo u :
  Admin.role_of (logged_in_status (Some (UserInfo_json u))) =
    match role u with
    | Some r => Some (JStr r)
    | None => None
    end.
Proof. destruct u as [? ? ? [] [] [] [] [] []]; reflexivity. Qed.

(** X30.  The cached identity is taken at its word when the server cannot
    be asked.  With a token in the store, a cached record whose role is
    [admin], and every request rejected or answered with a status other
    than 200 and 401, [getAuthStatus] answers with that record: the menu
    shows the link to the administration and the guard of the
    administration page lets the visitor in. *)
Theorem cached_admin_trusted_offline st token u :
  stored_token st = Some token →
  cached_record st = Some (JSON_stringify (UserInfo_json u)) →
  role u = Some "admin" →
  (∀ req, unavailable (net req)) →
  ∃ a, result net getAuthStatus st = Returns a ∧
       Admin.isAdmin a = true ∧
       ∀ v, Admin.guard a v = v.
Proof.
  intros Htok Hrec Hrole Hnet.
  assert (cached_identity st = Some (UserInfo_json u)) as Hid.
  { unfold cached_identity, cached_user. by rewrite Hrec, JSON_roundtrip_UserInfo. }
  exists (logged_in_status (Some (UserInfo_json u))). unfold result.
  rewrite (exec_getAuthStatus_unavailable BASE_API_URL net st token _ Htok Hid Hnet).
  split; [done|].
  unfold Admin.isAdmin, Admin.guard. rewrite role_of_UserInfo, Hrole. done.
Qed.
End Administration.

(** The examples: the provider mounting on the example store, with a
    status endpoint that knows the administrator; the same store with
    the administrator's record, and nothing answering. *)

Lemma callback_waits_for_session_witness :
  let net := answers (token_response "t1") (user_response example_admin) in
  final net (AuthContext.refreshAuth example_api example_translation)
    (AuthContext.mounted example_store)
  = final net (AuthContext.refreshAuth example_api example_translation)
      (AuthContext.mounted example_store) ∧
  ∃ info, result net (getAuthStatus example_api) example_store =
            Returns (logged_in_status info).
Proof.
  apply (callback_waits_for_session example_api example_translation example_URL_new
           (answers (token_response "t1") (user_response example_admin))
           (AuthContext.mounted example_store)
           (final (answers (token_response "t1") (user_response example_admin))
              (AuthContext.refreshAuth example_api example_translation)
              (AuthContext.mounted example_store))
           true example_page
           (connect_request (localStorage example_page) "ig-token" "1789" "ann.draws")).
  - left. reflexivity.
  - vm_compute. reflexivity.
Defined.

Lemma admin_guard_before_session_witness :
  Admin.guard (AuthContext.authStatus (AuthContext.mounted example_store))
    {| Admin.toasts := []; Admin.navigation := None |}
  = {| Admin.toasts := ["로그인이 필요합니다"]; Admin.navigation := Some "/" |}.
Proof.
  apply (admin_guard_before_session example_api example_translation
           (answers (token_response "t1") (user_response example_admin))
           example_store (AuthContext.mounted example_store)
           {| Admin.toasts := []; Admin.navigation := None |}).
  left. reflexivity.
Defined.

Lemma cached_admin_trusted_offline_witness :
  let st := setItem USER_INFO_KEY (JSON_stringify (UserInfo_json example_admin))
              example_store in
  ∃ a, result (fun _ => Rejected) (getAuthStatus example_api) st = Returns a ∧
       Admin.isAdmin a = true ∧
       ∀ v, Admin.guard a v = v.
Proof.
  apply (cached_admin_trusted_offline example_api (fun _ => Rejected)
           (setItem USER_INFO_KEY (JSON_stringify (UserInfo_json example_admin))
              example_store)
           "t0" example_admin).
  - reflexivity.
  - reflexivity.
  - reflexivity.
  - intros req. exact I.
Defined.
